(** * The variable-order BDF integrator of pybamm/solvers/jax_bdf_solver.py

    A shallow embedding of the solver and the proofs of the properties its
    specification states about it.

    Numbers.  The source computes in float64.  The embedding computes in the
    real numbers: [+ - * /], [np.sqrt] and [**] are the exact operations on
    their regular domain (non-zero divisor, non-negative radicand, positive
    base).  Where the source itself works with an infinite value ([np.inf] in
    the order selection, a zero base under a negative exponent, the divisor
    [1 - rate] of the Newton tests at [rate = 1], the divisor [rtol] of the
    Newton tolerance) the embedding uses [ext], the reals with [+inf].

    Arrays.  A vector is a list of reals, a matrix a list of rows.  The
    indices [order + 1], [order + 2], ... are computed at run time, so the
    JAX rules for an index outside the array apply: a read is clamped to the
    last row, an update is dropped.  [jget], [jset] and [jadd] write this out.

    External functions.  The right-hand side [fun], its Jacobian [jac]
    (obtained by [jax.jacfwd] in the source) and the LU routines of
    [jax.scipy.linalg] are parameters of the development. *)

From Stdlib Require Import Reals Lra Lia ZArith List Bool Sorted.
Import ListNotations.
Open Scope R_scope.

(** ** Comparisons of reals as booleans *)

Definition Rltb (x y : R) : bool := if Rlt_dec x y then true else false.
Definition Rleb (x y : R) : bool := if Rle_dec x y then true else false.
Definition Reqb (x y : R) : bool := if Req_dec_T x y then true else false.
Definition Rgtb (x y : R) : bool := Rltb y x.
Definition Rgeb (x y : R) : bool := Rleb y x.

(** ** Reals with +inf *)

Inductive ext : Type :=
| Fin (r : R)
| PInf.

(** [x / y] where a zero divisor meets a positive [x]. *)
Definition fdiv (x y : R) : ext :=
  if Req_dec_T y 0 then PInf else Fin (x / y).

(** [x * r] for a positive finite [r] (or a finite [x]). *)
Definition emul (x : ext) (r : R) : ext :=
  match x with
  | Fin a => Fin (a * r)
  | PInf => PInf
  end.

(** [x ** e] for a base [x >= 0]. *)
Definition fpow (x e : R) : ext :=
  if Req_dec_T x 0
  then (if Rlt_dec e 0 then PInf else if Rlt_dec 0 e then Fin 0 else Fin 1)
  else Fin (Rpower x e).

Definition epow (x : ext) (e : R) : ext :=
  match x with
  | Fin r => fpow r e
  | PInf => if Rlt_dec e 0 then Fin 0 else if Rlt_dec 0 e then PInf else Fin 1
  end.

Definition ext_ltb (x y : ext) : bool :=
  match x, y with
  | Fin a, Fin b => Rltb a b
  | Fin _, PInf => true
  | PInf, _ => false
  end.

Definition ext_gtb (x y : ext) : bool := ext_ltb y x.

(** [np.min((m, x))] and [np.max((x, y))]. *)
Definition emin_fin (m : R) (x : ext) : R :=
  match x with
  | Fin r => Rmin m r
  | PInf => m
  end.

Definition emax (x y : ext) : ext :=
  match x, y with
  | Fin a, Fin b => Fin (Rmax a b)
  | _, _ => PInf
  end.

(** [np.argmax]: the index of the first occurrence of the maximum. *)
Fixpoint argmax_from (best : ext) (besti i : nat) (l : list ext) : nat :=
  match l with
  | [] => besti
  | x :: l' =>
      if ext_ltb best x then argmax_from x i (S i) l'
      else argmax_from best besti (S i) l'
  end.

Definition argmax (l : list ext) : nat :=
  match l with
  | [] => 0%nat
  | x :: l' => argmax_from x 0 1 l'
  end.

(** ** Vectors and matrices *)

Definition vec := list R.
Definition matrix := list vec.

Fixpoint zipWith {A B C : Type} (f : A -> B -> C) (l : list A) (l' : list B)
  : list C :=
  match l, l' with
  | a :: r, b :: r' => f a b :: zipWith f r r'
  | _, _ => []
  end.

Definition zeros (n : nat) : vec := repeat 0 n.
Definition vadd : vec -> vec -> vec := zipWith Rplus.
Definition vsub : vec -> vec -> vec := zipWith Rminus.
Definition vmul : vec -> vec -> vec := zipWith Rmult.
Definition vdiv : vec -> vec -> vec := zipWith Rdiv.
Definition vscale (a : R) (v : vec) : vec := map (Rmult a) v.
Definition vadds (a : R) (v : vec) : vec := map (Rplus a) v.
Definition vabs (v : vec) : vec := map Rabs v.
Definition vsq (v : vec) : vec := map (fun x => x ^ 2) v.

Definition rsum (v : vec) : R := fold_right Rplus 0 v.
Definition mean (v : vec) : R := rsum v / INR (length v).

(** [np.sqrt(np.mean(v ** 2))] *)
Definition rms (v : vec) : R := sqrt (mean (vsq v)).

(** [np.sum(M, axis=0)] for a matrix with [n] columns. *)
Definition colsum (n : nat) (M : matrix) : vec := fold_right vadd (zeros n) M.

(** [sum_k a[k] * M[k]]: the product of a row vector with a matrix. *)
Definition lincomb (n : nat) (a : vec) (M : matrix) : vec :=
  colsum n (zipWith vscale a M).

Definition column (j : nat) (M : matrix) : vec := map (fun r => nth j r 0) M.

(** [A.dot(B)] and [np.dot(A.T, B)], [B] with [n] columns. *)
Definition matmul (n : nat) (A B : matrix) : matrix :=
  map (fun a => lincomb n a B) A.

Definition matmul_T (m n : nat) (A B : matrix) : matrix :=
  map (fun i => lincomb n (column i A) B) (seq 0 m).

Definition identity (n : nat) : matrix :=
  map (fun i => map (fun j => if Nat.eqb i j then 1 else 0) (seq 0 n)) (seq 0 n).

Definition mscale (a : R) (M : matrix) : matrix := map (vscale a) M.
Definition msub (A B : matrix) : matrix := zipWith vsub A B.

(** ** Indexing with a run-time index *)

Definition norm_index (n : nat) (i : Z) : Z :=
  if (i <? 0)%Z then (i + Z.of_nat n)%Z else i.

Definition in_bounds (n : nat) (i : Z) : bool :=
  ((0 <=? norm_index n i) && (norm_index n i <? Z.of_nat n))%Z.

(** [l[i]]: the index is clamped to the array. *)
Definition jget {A : Type} (dflt : A) (l : list A) (i : Z) : A :=
  let j := norm_index (length l) i in
  nth (Z.to_nat (Z.min (Z.max j 0) (Z.of_nat (length l) - 1))) l dflt.

Fixpoint list_set {A : Type} (l : list A) (j : nat) (v : A) : list A :=
  match l, j with
  | [], _ => []
  | _ :: r, O => v :: r
  | a :: r, S j' => a :: list_set r j' v
  end.

(** [jax.ops.index_update(l, jax.ops.index[i], v)]: dropped out of bounds. *)
Definition jset {A : Type} (l : list A) (i : Z) (v : A) : list A :=
  if in_bounds (length l) i
  then list_set l (Z.to_nat (norm_index (length l) i)) v
  else l.

(** [jax.ops.index_add(M, jax.ops.index[i], v)]: dropped out of bounds. *)
Definition jadd (M : matrix) (i : Z) (v : vec) : matrix :=
  if in_bounds (length M) i
  then list_set M (Z.to_nat (norm_index (length M) i))
                (vadd (nth (Z.to_nat (norm_index (length M) i)) M []) v)
  else M.

(** [np.arange(a, b)] *)
Definition arange (a b : Z) : list Z :=
  map (fun k => (a + Z.of_nat k)%Z) (seq 0 (Z.to_nat (b - a))).

(** ** Constants *)

Definition MAX_ORDER : Z := 5.
Definition NEWTON_MAXITER : Z := 4.
Definition MIN_FACTOR : R := 2 / 10.
Definition MAX_FACTOR : R := 10.

(** [np.finfo(float64).eps] *)
Definition EPS : R := / 2 ^ 52.

(** ** The Python control flow *)

(** [flax_cond], [flax_while_loop] and [flax_fori_loop]: the Python versions
    of the JAX control flow.  The while loop has no bound in the source;
    [None] is a loop still running when the fuel is spent. *)
Definition flax_cond {A B C : Type} (pred : bool) (true_operand : A)
           (true_fun : A -> C) (false_operand : B) (false_fun : B -> C) : C :=
  if pred then true_fun true_operand else false_fun false_operand.

Fixpoint flax_while_loop {A : Type} (fuel : nat) (cond : A -> bool)
         (body : A -> A) (init_val : A) : option A :=
  if cond init_val
  then match fuel with
       | O => None
       | S f => flax_while_loop f cond body (body init_val)
       end
  else Some init_val.

Definition flax_fori_loop {A : Type} (start stop : Z) (body : Z -> A -> A)
           (init_val : A) : A :=
  fold_left (fun val i => body i val) (arange start stop) init_val.

(** ** compute_R *)

Fixpoint cumprod_from (acc : vec) (M : matrix) : matrix :=
  match M with
  | [] => []
  | r :: M' => vmul acc r :: cumprod_from (vmul acc r) M'
  end.

(** [np.cumprod(M, axis=0)] *)
Definition cumprod (M : matrix) : matrix :=
  match M with
  | [] => []
  | r :: M' => r :: cumprod_from r M'
  end.

(** The matrix [M] is allocated with [np.empty], which is a matrix of zeros
    in JAX: column 0 of the rows [1..] stays zero. *)
Definition compute_R (order : Z) (factor : R) : matrix :=
  let I := map IZR (arange 1 (MAX_ORDER + 1)) in
  let J := map IZR (arange 1 (MAX_ORDER + 1)) in
  let M :=
    repeat 1 (Z.to_nat (MAX_ORDER + 1))
    :: map (fun i => 0 :: map (fun j => (i - 1 - factor * j) / i) J) I in
  cumprod M.

(** ** The solver state

    The dictionary [state] of the source, one field per key. *)

Record state (LUt : Type) : Type := mkState {
  s_t : R;
  s_y : vec;
  s_atol : R;
  s_rtol : R;
  s_order : Z;
  s_h : R;
  s_newton_tol : ext;
  s_n_equal_steps : Z;
  s_D : matrix;
  s_y0 : vec;
  s_scale_y0 : vec;
  s_I : matrix;
  s_kappa : vec;
  s_gamma : vec;
  s_alpha : vec;
  s_c : R;
  s_error_const : vec;
  s_J : matrix;
  s_LU : LUt;
  s_U : list matrix;
  s_psi : vec
}.

Arguments mkState {LUt}.
Arguments s_t {LUt}. Arguments s_y {LUt}. Arguments s_atol {LUt}.
Arguments s_rtol {LUt}. Arguments s_order {LUt}. Arguments s_h {LUt}.
Arguments s_newton_tol {LUt}. Arguments s_n_equal_steps {LUt}.
Arguments s_D {LUt}. Arguments s_y0 {LUt}. Arguments s_scale_y0 {LUt}.
Arguments s_I {LUt}. Arguments s_kappa {LUt}. Arguments s_gamma {LUt}.
Arguments s_alpha {LUt}. Arguments s_c {LUt}. Arguments s_error_const {LUt}.
Arguments s_J {LUt}. Arguments s_LU {LUt}. Arguments s_U {LUt}.
Arguments s_psi {LUt}.

Section Updates.
Context {LUt : Type}.

(** [state[key] = v] *)
Definition set_t (st : state LUt) v :=
  mkState v (s_y st) (s_atol st) (s_rtol st) (s_order st) (s_h st)
    (s_newton_tol st) (s_n_equal_steps st) (s_D st) (s_y0 st)
    (s_scale_y0 st) (s_I st) (s_kappa st) (s_gamma st) (s_alpha st)
    (s_c st) (s_error_const st) (s_J st) (s_LU st) (s_U st) (s_psi st).
Definition set_y (st : state LUt) v :=
  mkState (s_t st) v (s_atol st) (s_rtol st) (s_order st) (s_h st)
    (s_newton_tol st) (s_n_equal_steps st) (s_D st) (s_y0 st)
    (s_scale_y0 st) (s_I st) (s_kappa st) (s_gamma st) (s_alpha st)
    (s_c st) (s_error_const st) (s_J st) (s_LU st) (s_U st) (s_psi st).
Definition set_order (st : state LUt) v :=
  mkState (s_t st) (s_y st) (s_atol st) (s_rtol st) v (s_h st)
    (s_newton_tol st) (s_n_equal_steps st) (s_D st) (s_y0 st)
    (s_scale_y0 st) (s_I st) (s_kappa st) (s_gamma st) (s_alpha st)
    (s_c st) (s_error_const st) (s_J st) (s_LU st) (s_U st) (s_psi st).
Definition set_h (st : state LUt) v :=
  mkState (s_t st) (s_y st) (s_atol st) (s_rtol st) (s_order st) v
    (s_newton_tol st) (s_n_equal_steps st) (s_D st) (s_y0 st)
    (s_scale_y0 st) (s_I st) (s_kappa st) (s_gamma st) (s_alpha st)
    (s_c st) (s_error_const st) (s_J st) (s_LU st) (s_U st) (s_psi st).
Definition set_n_equal_steps (st : state LUt) v :=
  mkState (s_t st) (s_y st) (s_atol st) (s_rtol st) (s_order st) (s_h st)
    (s_newton_tol st) v (s_D st) (s_y0 st)
    (s_scale_y0 st) (s_I st) (s_kappa st) (s_gamma st) (s_alpha st)
    (s_c st) (s_error_const st) (s_J st) (s_LU st) (s_U st) (s_psi st).
Definition set_D (st : state LUt) v :=
  mkState (s_t st) (s_y st) (s_atol st) (s_rtol st) (s_order st) (s_h st)
    (s_newton_tol st) (s_n_equal_steps st) v (s_y0 st)
    (s_scale_y0 st) (s_I st) (s_kappa st) (s_gamma st) (s_alpha st)
    (s_c st) (s_error_const st) (s_J st) (s_LU st) (s_U st) (s_psi st).
Definition set_y0 (st : state LUt) v :=
  mkState (s_t st) (s_y st) (s_atol st) (s_rtol st) (s_order st) (s_h st)
    (s_newton_tol st) (s_n_equal_steps st) (s_D st) v
    (s_scale_y0 st) (s_I st) (s_kappa st) (s_gamma st) (s_alpha st)
    (s_c st) (s_error_const st) (s_J st) (s_LU st) (s_U st) (s_psi st).
Definition set_scale_y0 (st : state LUt) v :=
  mkState (s_t st) (s_y st) (s_atol st) (s_rtol st) (s_order st) (s_h st)
    (s_newton_tol st) (s_n_equal_steps st) (s_D st) (s_y0 st)
    v (s_I st) (s_kappa st) (s_gamma st) (s_alpha st)
    (s_c st) (s_error_const st) (s_J st) (s_LU st) (s_U st) (s_psi st).
Definition set_c (st : state LUt) v :=
  mkState (s_t st) (s_y st) (s_atol st) (s_rtol st) (s_order st) (s_h st)
    (s_newton_tol st) (s_n_equal_steps st) (s_D st) (s_y0 st)
    (s_scale_y0 st) (s_I st) (s_kappa st) (s_gamma st) (s_alpha st)
    v (s_error_const st) (s_J st) (s_LU st) (s_U st) (s_psi st).
Definition set_J (st : state LUt) v :=
  mkState (s_t st) (s_y st) (s_atol st) (s_rtol st) (s_order st) (s_h st)
    (s_newton_tol st) (s_n_equal_steps st) (s_D st) (s_y0 st)
    (s_scale_y0 st) (s_I st) (s_kappa st) (s_gamma st) (s_alpha st)
    (s_c st) (s_error_const st) v (s_LU st) (s_U st) (s_psi st).
Definition set_LU (st : state LUt) (v : LUt) :=
  mkState (s_t st) (s_y st) (s_atol st) (s_rtol st) (s_order st) (s_h st)
    (s_newton_tol st) (s_n_equal_steps st) (s_D st) (s_y0 st)
    (s_scale_y0 st) (s_I st) (s_kappa st) (s_gamma st) (s_alpha st)
    (s_c st) (s_error_const st) (s_J st) v (s_U st) (s_psi st).
Definition set_psi (st : state LUt) v :=
  mkState (s_t st) (s_y st) (s_atol st) (s_rtol st) (s_order st) (s_h st)
    (s_newton_tol st) (s_n_equal_steps st) (s_D st) (s_y0 st)
    (s_scale_y0 st) (s_I st) (s_kappa st) (s_gamma st) (s_alpha st)
    (s_c st) (s_error_const st) (s_J st) (s_LU st) (s_U st) v.
End Updates.

(** ** The solver *)

Section Solver.
(** The right-hand side [fun(t, y)], its Jacobian [jac(t, y)] and the LU
    factorisation and solve of [jax.scipy.linalg]. *)
Context {LUt : Type}.
Variable fun_ : R -> vec -> vec.
Variable jac : R -> vec -> matrix.
Variable lu_factor : matrix -> LUt.
Variable lu_solve : LUt -> vec -> vec.

Abbreviation state := (state LUt).

(** *** _select_initial_step

    Of the state under construction the function reads the keys [atol] and
    [rtol] only; they are passed as such.

    The value is that of the source for a [y0] that is not empty, error
    scales that are not zero, a mean under the root that is not negative,
    and a guess [h0] that is positive, or negative with a positive root
    [d2].  Elsewhere the source computes with [nan] or [-inf] (a zero
    scale, a negative mean, [h0 = 0], [h0 < 0] with [d2 = 0]), which the
    step of the embedding, a real number, does not hold: the statements
    about the selected step carry these conditions. *)
Definition _select_initial_step (atol rtol : R) (t0 : R) (y0 f0 : vec)
           (h0 : R) : R :=
  let scale := vadds atol (vscale rtol (vabs y0)) in
  let y1 := vadd y0 (vscale h0 f0) in
  let f1 := fun_ (t0 + h0) y1 in
  let d2 := sqrt (mean (vdiv (vsub f1 f0) scale)) in
  let order := 1%Z in
  let h1 := emul (fpow d2 (-1 / IZR (order + 1))) h0 in
  emin_fin (100 * h0) h1.

(** *** _predict *)
Definition mask_rows (keep : Z -> bool) (n : nat) (M : matrix) : matrix :=
  zipWith (fun j row => if keep j then row else zeros n)
          (arange 0 (MAX_ORDER + 1)) M.

Definition _predict (st : state) : state :=
  let n := length (s_y st) in
  let order := s_order st in
  let subD := mask_rows (fun j => (j <=? order)%Z) n (s_D st) in
  let st := set_y0 st (colsum n subD) in
  set_scale_y0 st (vadds (s_atol st) (vscale (s_rtol st) (vabs (s_y0 st)))).

(** *** _update_psi *)
Definition _update_psi (st : state) : state :=
  let order := s_order st in
  let n := length (s_y st) in
  let orders := arange 0 (MAX_ORDER + 1) in
  let keep := fun j => ((0 <? j) && (j <=? order))%Z in
  let subGamma :=
    zipWith (fun j g => if keep j then g else 0) orders (s_gamma st) in
  let subD := mask_rows keep n (s_D st) in
  set_psi st (vscale (jget 0 (s_alpha st) order) (lincomb n subGamma subD)).

(** *** _update_difference_for_next_step *)

(** The loop [while i >= 0: D[i] += D[i + 1]; i -= 1], entered with
    [i = k - 1]. *)
Fixpoint difference_loop (k : nat) (D : matrix) : matrix :=
  match k with
  | O => D
  | S i =>
      difference_loop i (jadd D (Z.of_nat i) (jget [] D (Z.of_nat i + 1)))
  end.

Definition _update_difference_for_next_step (st : state) (d : vec)
           (only_update_D : bool) : state :=
  let order := s_order st in
  let D := s_D st in
  let D := jset D (order + 2) (vsub d (jget [] D (order + 1))) in
  let D := jset D (order + 1) d in
  let D := difference_loop (Z.to_nat (order + 1)) D in
  let st := set_D st D in
  if negb only_update_D then _predict (_update_psi st) else st.

(** *** _update_step_size *)
Definition _update_step_size (st : state) (factor : R) (dont_update_lu : bool)
  : state :=
  let order := s_order st in
  let h := s_h st in
  let h := h * factor in
  let st := set_n_equal_steps st 0 in
  let c := h * jget 0 (s_alpha st) order in
  let st :=
    if negb dont_update_lu
    then set_LU st (lu_factor (msub (s_I st) (mscale c (s_J st))))
    else st in
  let st := set_h st h in
  let st := set_c st c in
  let n := length (s_y st) in
  let m := Z.to_nat (MAX_ORDER + 1) in
  let RU := matmul m (compute_R order factor) (jget [] (s_U st) 0) in
  let RU :=
    zipWith (fun i row =>
               zipWith (fun j x =>
                          if ((i <=? order) && (j <=? order))%Z then x
                          else if (i =? j)%Z then 1 else 0)
                       (arange 0 (MAX_ORDER + 1)) row)
            (arange 0 (MAX_ORDER + 1)) RU in
  let D := s_D st in
  let D := matmul_T m n RU D in
  let st := set_D st D in
  _predict (_update_psi st).

(** *** _update_jacobian *)
Definition _update_jacobian (st : state) : state :=
  let J := jac (s_t st) (s_y st) in
  let st := set_LU st (lu_factor (msub (s_I st) (mscale (s_c st) J))) in
  set_J st J.

(** *** _newton_iteration *)

(** The loop state [[k, not_converged, dy_norm_old, d, y]]. *)
Record newton_ws : Type := mkNewton {
  nw_k : Z;
  nw_not_converged : bool;
  nw_dy_norm_old : R;
  nw_d : vec;
  nw_y : vec
}.

Definition newton_cond (ws : newton_ws) : bool :=
  nw_not_converged ws && (nw_k ws <? NEWTON_MAXITER)%Z.

(** The abort test and the convergence test of one iteration. *)
Definition newton_abort_pred (tol : ext) (k : Z) (dy_norm dy_norm_old : R)
  : bool :=
  let rate := dy_norm / dy_norm_old in
  let pred := Rgeb rate 1 in
  let pred :=
    pred || ext_gtb (emul (fdiv (rate ^ Z.to_nat (NEWTON_MAXITER - k))
                                (1 - rate)) dy_norm) tol in
  pred && Rltb dy_norm_old (-1).

Definition newton_converged_pred (tol : ext) (dy_norm dy_norm_old : R)
  : bool :=
  let rate := dy_norm / dy_norm_old in
  let pred := Rgtb rate 0 in
  let pred := pred && ext_ltb (emul (fdiv rate (1 - rate)) dy_norm) tol in
  pred || Reqb dy_norm 0.

Definition newton_body (st : state) (ws : newton_ws) : newton_ws :=
  let tol := s_newton_tol st in
  let c := s_c st in
  let psi := s_psi st in
  let y0 := s_y0 st in
  let LU := s_LU st in
  let scale_y0 := s_scale_y0 st in
  let t := s_t st + s_h st in
  let k := nw_k ws in
  let not_converged := nw_not_converged ws in
  let dy_norm_old := nw_dy_norm_old ws in
  let d := nw_d ws in
  let y := nw_y ws in
  let f_eval := fun_ t y in
  let b := vsub (vsub (vscale c f_eval) psi) d in
  let dy := lu_solve LU b in
  let dy_norm := rms (vdiv dy scale_y0) in
  let pred := newton_abort_pred tol k dy_norm dy_norm_old in
  let k := if pred then NEWTON_MAXITER else k in
  let d := vadd d dy in
  let y := vadd y0 d in
  let pred := newton_converged_pred tol dy_norm dy_norm_old in
  if pred
  then mkNewton k false dy_norm_old d y
  else mkNewton (k + 1) not_converged dy_norm d y.

Fixpoint newton_loop (fuel : nat) (st : state) (ws : newton_ws) : newton_ws :=
  match fuel with
  | O => ws
  | S f =>
      if newton_cond ws then newton_loop f st (newton_body st ws) else ws
  end.

(** The loop leaves after at most [NEWTON_MAXITER] rounds (lemma
    [newton_loop_done]), which is the fuel given here. *)
Definition _newton_iteration (st : state) : bool * Z * vec * vec :=
  let y0 := s_y0 st in
  let d := zeros (length y0) in
  let y := y0 in
  let ws := mkNewton 0 true (-1) d y in
  let ws := newton_loop (Z.to_nat NEWTON_MAXITER) st ws in
  (nw_not_converged ws, (nw_k ws + 1)%Z, nw_y ws, nw_d ws).

(** *** _bdf_step *)

(** The loop state
    [[state, step_accepted, not_updated_jacobian, y, d, n_iter]]. *)
Record step_ws : Type := mkStep {
  sw_state : state;
  sw_step_accepted : bool;
  sw_not_updated_jacobian : bool;
  sw_y : vec;
  sw_d : vec;
  sw_n_iter : Z
}.

Definition scale_of (st : state) (y : vec) : vec :=
  vadds (s_atol st) (vscale (s_rtol st) (vabs y)).

Definition safety_of (n_iter : Z) : R :=
  9 / 10 * IZR (2 * NEWTON_MAXITER + 1) / IZR (2 * NEWTON_MAXITER + n_iter).

(** [error_norm] of the branch [converged] and of [order_change]. *)
Definition error_norm_of (st : state) (y d : vec) : R :=
  let scale_y := scale_of st y in
  let error := vscale (jget 0 (s_error_const st) (s_order st)) d in
  rms (vdiv error scale_y).

(** The factor of the branch [error_too_large]; there [error_norm > 1]. *)
Definition shrink_factor (st : state) (n_iter : Z) (error_norm : R) : R :=
  Rmax MIN_FACTOR
       (safety_of n_iter * Rpower error_norm (-1 / IZR (s_order st + 1))).

Definition step_body (ws : step_ws) : step_ws :=
  let st := sw_state ws in
  let step_accepted := sw_step_accepted ws in
  let not_updated_jacobian := sw_not_updated_jacobian ws in
  let '(not_converged, n_iter, y, d) := _newton_iteration st in
  let pred := not_converged && not_updated_jacobian in
  if pred
  then (* need_to_update_jacobian *)
    mkStep (_update_jacobian st) step_accepted false y d n_iter
  else (* dont_need_to_update_jacobian *)
    if not_converged
    then (* need_to_update_step_size *)
      mkStep (_update_step_size st (3 / 10) false)
             step_accepted not_updated_jacobian y d n_iter
    else (* converged *)
      let error_norm := error_norm_of st y d in
      if Rgtb error_norm 1
      then (* error_too_large *)
        mkStep (_update_step_size st (shrink_factor st n_iter error_norm)
                                  false)
               step_accepted not_updated_jacobian y d n_iter
      else (* step_accepted *)
        mkStep st true not_updated_jacobian y d n_iter.

(** [while step_accepted == False]: the source sets no bound on the number
    of rounds; [None] is a loop still running when the fuel is spent. *)
Fixpoint step_loop (fuel : nat) (ws : step_ws) : option step_ws :=
  if negb (sw_step_accepted ws)
  then match fuel with
       | O => None
       | S f => step_loop f (step_body ws)
       end
  else Some ws.

Definition no_change_in_order (st : state) (d : vec) : state :=
  _update_difference_for_next_step st d false.

(** The three step-size factors of [order_change], for the orders
    [order - 1], [order] and [order + 1]. *)
Definition order_factors (st : state) (d y : vec) : list ext :=
  let order := s_order st in
  let scale_y := scale_of st y in
  let error_norm := error_norm_of st y d in
  let st := _update_difference_for_next_step st d true in
  let error_m_norm :=
    if (order >? 1)%Z
    then Fin (rms (vdiv (vscale (jget 0 (s_error_const st) (order - 1))
                                (jget [] (s_D st) order)) scale_y))
    else PInf in
  let error_p_norm :=
    if (order <? MAX_ORDER)%Z
    then Fin (rms (vdiv (vscale (jget 0 (s_error_const st) (order + 1))
                                (jget [] (s_D st) (order + 2))) scale_y))
    else PInf in
  let error_norms := [error_m_norm; Fin error_norm; error_p_norm] in
  zipWith (fun e j => epow e (-1 / IZR (j + order)))
          error_norms (arange 0 3).

Definition order_change (st : state) (d y : vec) (n_iter : Z) : state :=
  let order := s_order st in
  let safety := safety_of n_iter in
  let factors := order_factors st d y in
  let st := _update_difference_for_next_step st d true in
  let max_index := argmax factors in
  let order := (order + (Z.of_nat max_index - 1))%Z in
  let st := set_order st order in
  let factor :=
    emin_fin MAX_FACTOR (emul (nth max_index factors PInf) safety) in
  _update_step_size st factor false.

Definition _bdf_step (fuel : nat) (st : state) : option state :=
  let n := length (s_y st) in
  let ws := mkStep st false true (zeros n) (zeros n) (-1) in
  match step_loop fuel ws with
  | None => None
  | Some ws =>
      let st := sw_state ws in
      let y := sw_y ws in
      let d := sw_d ws in
      let n_iter := sw_n_iter ws in
      let st := set_y st y in
      let st := set_t st (s_t st + s_h st) in
      let st := set_n_equal_steps st (s_n_equal_steps st + 1) in
      Some (if (s_n_equal_steps st <? s_order st + 1)%Z
            then no_change_in_order st d
            else order_change st d y n_iter)
  end.

(** *** _bdf_interpolate

    The time factor is that of the source for a step [h] that is not zero;
    at [h = 0] the source divides by zero. *)
Fixpoint interpolate_loop (fuel : nat) (st : state) (t_eval : R) (j : Z)
         (time_factor : R) (order_summation : vec) : vec :=
  match fuel with
  | O => order_summation
  | S f =>
      let t := s_t st in
      let h := s_h st in
      let D := s_D st in
      let time_factor :=
        time_factor * ((t_eval - (t - h * IZR j)) / (h * (1 + IZR j))) in
      let order_summation :=
        vadd order_summation
             (map (fun x => x * time_factor) (jget [] D (j + 1))) in
      interpolate_loop f st t_eval (j + 1) time_factor order_summation
  end.

(** The loop [while j < order] runs [order] rounds from [j = 0]. *)
Definition _bdf_interpolate (st : state) (t_eval : R) : vec :=
  interpolate_loop (Z.to_nat (s_order st)) st t_eval 0 1
                   (jget [] (s_D st) 0).

(** *** _bdf_init *)
Fixpoint cumsum_from (acc : R) (v : vec) : vec :=
  match v with
  | [] => []
  | x :: v' => (acc + x) :: cumsum_from (acc + x) v'
  end.

(** [kappa], [gamma], [alpha] and [error_const].  [alpha[0]] divides by
    [gamma[0] = 0]; it is never read, the order being at least 1. *)
Definition kappa_table : vec :=
  [0; - (1850 / 10000); - (1 / 9); - (823 / 10000); - (415 / 10000); 0].

Definition gamma_table : vec :=
  0 :: cumsum_from 0 (map (fun k => 1 / IZR k) (arange 1 (MAX_ORDER + 1))).

Definition alpha_table : vec :=
  zipWith (fun k g => 1 / ((1 - k) * g)) kappa_table gamma_table.

Definition error_const_table : vec :=
  vadd (vmul kappa_table gamma_table)
       (map (fun k => 1 / IZR k) (arange 1 (MAX_ORDER + 2))).

Definition _bdf_init (t0 : R) (y0 : vec) (h0 rtol atol : R) : state :=
  let f0 := fun_ t0 y0 in
  let order := 1%Z in
  let h := _select_initial_step atol rtol t0 y0 f0 h0 in
  let newton_tol :=
    emax (fdiv (10 * EPS) rtol)
         (Fin (emin_fin (3 / 100) (fpow rtol (1 / 2)))) in
  let D := repeat (zeros (length y0)) (Z.to_nat (MAX_ORDER + 1)) in
  let D := jset D 0 y0 in
  let D := jset D 1 (map (fun x => x * h0) f0) in
  let I := identity (length y0) in
  let kappa := kappa_table in
  let gamma := gamma_table in
  let alpha := alpha_table in
  let c := h0 * jget 0 alpha order in
  let error_const := error_const_table in
  let J := jac t0 y0 in
  let LU := lu_factor (msub I (mscale c J)) in
  let U := map (fun order => compute_R order 1) (arange 0 MAX_ORDER) in
  let st :=
    mkState t0 y0 atol rtol order h newton_tol 0 D [] [] I kappa gamma
            alpha c error_const J LU U [] in
  _update_psi (_predict st).

(** *** _bdf_odeint *)

(** [np.searchsorted(a, v)] with the default [side='left']: for an
    ascending [a], the number of its elements that are [< v].  The source
    bisects, and on an [a] that is not ascending its result need not be the
    count of the leading elements below [v] taken here. *)
Fixpoint searchsorted (a : vec) (v : R) : nat :=
  match a with
  | [] => O
  | x :: a' => if Rltb x v then S (searchsorted a' v) else O
  end.

(** [jax.ops.index_update(y_out, jax.ops.index[:, j], v)] *)
Definition set_column (y_out : matrix) (j : nat) (v : vec) : matrix :=
  zipWith (fun row x => jset row (Z.of_nat j) x) y_out v.

(** The loop state [[stepper, t_eval, i, y_out]]. *)
Record odeint_ws : Type := mkOde {
  ow_stepper : state;
  ow_t_eval : vec;
  ow_i : nat;
  ow_y_out : matrix
}.

Definition cond_fun (ws : odeint_ws) : bool :=
  (ow_i ws <? length (ow_t_eval ws))%nat.

Definition for_body (stepper : state) (t_eval : vec) (j : nat)
           (for_state : matrix * nat) : matrix * nat :=
  let '(y_out, i) := for_state in
  let t := nth j t_eval 0 in
  let y_out := set_column y_out j (_bdf_interpolate stepper t) in
  (y_out, S i).

(** [jax.lax.fori_loop(start, stop, body, init)] *)
Definition fori_loop {A : Type} (start stop : nat) (body : nat -> A -> A)
           (init : A) : A :=
  fold_left (fun acc j => body j acc) (seq start (stop - start)) init.

(** The part of [body_fun] that follows the call of [_bdf_step]. *)
Definition fill_outputs (stepper : state) (t_eval : vec) (i : nat)
           (y_out : matrix) : odeint_ws :=
  let index := searchsorted t_eval (s_t stepper) in
  let '(y_out, i) :=
    fori_loop i index (for_body stepper t_eval) (y_out, i) in
  mkOde stepper t_eval i y_out.

Definition body_fun (sfuel : nat) (ws : odeint_ws) : option odeint_ws :=
  match _bdf_step sfuel (ow_stepper ws) with
  | None => None
  | Some stepper =>
      Some (fill_outputs stepper (ow_t_eval ws) (ow_i ws) (ow_y_out ws))
  end.

Fixpoint odeint_loop (sfuel fuel : nat) (ws : odeint_ws) : option odeint_ws :=
  if cond_fun ws
  then match fuel with
       | O => None
       | S f =>
           match body_fun sfuel ws with
           | None => None
           | Some ws' => odeint_loop sfuel f ws'
           end
       end
  else Some ws.

(** The state handed to the loop of [_bdf_odeint].  With one output time
    [t_eval[1]] is clamped to [t_eval[0]], as in JAX; without any the source
    raises at [t_eval[0]], where the reads here give 0. *)
Definition init_state (y0 t_eval : vec) (rtol atol : R) : odeint_ws :=
  let t0 := jget 0 t_eval 0 in
  let h0 := jget 0 t_eval 1 - t0 in
  let stepper := _bdf_init t0 y0 h0 rtol atol in
  let i := O in
  let y_out := repeat (zeros (length t_eval)) (length y0) in
  mkOde stepper t_eval i y_out.

Definition _bdf_odeint (sfuel fuel : nat) (y0 t_eval : vec) (rtol atol : R)
  : option matrix :=
  match odeint_loop sfuel fuel (init_state y0 t_eval rtol atol) with
  | None => None
  | Some ws => Some (ow_y_out ws)
  end.

(** *** jax_bdf_integrate *)
Definition jax_bdf_integrate (sfuel fuel : nat) (y0 t_eval : vec)
           (rtol atol : R) : option matrix :=
  _bdf_odeint sfuel fuel y0 t_eval rtol atol.
End Solver.

(** ** Predicates of the statements *)

(** [dy_norm_old] is [-1] or a norm, and [k] counts upwards from 0. *)
Definition newton_inv (ws : newton_ws) : Prop :=
  -1 <= nw_dy_norm_old ws /\ (0 <= nw_k ws)%Z.

(** Index [i] holds a maximum of [l]. *)
Definition is_max (l : list ext) (i : nat) : Prop :=
  forall j, (j < length l)%nat -> ext_ltb (nth i l PInf) (nth j l PInf) = false.

(** The output times that are still to be produced and lie strictly before
    [t], by ascending index. *)
Definition pending (t_eval : vec) (i : nat) (t : R) : list nat :=
  filter (fun j => Rltb (nth j t_eval 0) t) (seq i (length t_eval - i)).

(** All rows of [M] have [n] entries. *)
Definition rows_of (n : nat) (M : matrix) : Prop :=
  Forall (fun r => length r = n) M.

(** The matrix [RU] of [_update_step_size], after its masking. *)
Definition masked_RU (order : Z) (factor : R) (U0 : matrix) : matrix :=
  zipWith (fun i row =>
             zipWith (fun j x =>
                        if ((i <=? order) && (j <=? order))%Z then x
                        else if (i =? j)%Z then 1 else 0)
                     (arange 0 (MAX_ORDER + 1)) row)
          (arange 0 (MAX_ORDER + 1))
          (matmul (Z.to_nat (MAX_ORDER + 1)) (compute_R order factor) U0).

(** The shape of a solver state: [D] has [MAX_ORDER + 1] rows of the length
    of [y], [psi] has that length, [y0] is the prediction from [D], and
    [U[0]] is the matrix [_bdf_init] stores. *)
Definition well_shaped {LUt : Type} (st : state LUt) : Prop :=
  length (s_D st) = Z.to_nat (MAX_ORDER + 1)
  /\ rows_of (length (s_y st)) (s_D st)
  /\ length (s_psi st) = length (s_y st)
  /\ s_y0 st
     = colsum (length (s_y st))
              (mask_rows (fun j => (j <=? s_order st)%Z) (length (s_y st))
                         (s_D st))
  /\ jget [] (s_U st) 0 = compute_R 0 1.

(** The Newton loop keeps [y = y0 + d]. *)
Definition newton_sum {LUt : Type} (st : state LUt) (ws : newton_ws) : Prop :=
  nw_y ws = vadd (s_y0 st) (nw_d ws) /\ length (nw_d ws) = length (s_y st).

(** While the loop runs [k] is the number of rounds done, at most
    [NEWTON_MAXITER]; once convergence is declared it is below that. *)
Definition newton_count (ws : newton_ws) : Prop :=
  newton_inv ws
  /\ ((nw_not_converged ws = true /\ (nw_k ws <= NEWTON_MAXITER)%Z)
      \/ (nw_not_converged ws = false /\ (nw_k ws <= NEWTON_MAXITER - 1)%Z)).

(** The shapes kept by the loop of [_bdf_odeint]: the state is well shaped
    for [n] equations, and [y_out] has [n] rows and a column for each
    output time. *)
Definition driver_shape {LUt : Type} (n : nat) (ws : @odeint_ws LUt) : Prop :=
  well_shaped (ow_stepper ws)
  /\ length (s_y (ow_stepper ws)) = n
  /\ length (ow_y_out ws) = n
  /\ rows_of (length (ow_t_eval ws)) (ow_y_out ws).

(** The states the integrator reaches from [st] by one step or more. *)
Inductive reached {LUt : Type} (fun_ : R -> vec -> vec)
          (jac : R -> vec -> matrix) (lu_factor : matrix -> LUt)
          (lu_solve : LUt -> vec -> vec) (sfuel : nat)
  : state LUt -> state LUt -> Prop :=
| reached_step st st' :
    _bdf_step fun_ jac lu_factor lu_solve sfuel st = Some st' ->
    reached fun_ jac lu_factor lu_solve sfuel st st'
| reached_more st st1 st' :
    _bdf_step fun_ jac lu_factor lu_solve sfuel st = Some st1 ->
    reached fun_ jac lu_factor lu_solve sfuel st1 st' ->
    reached fun_ jac lu_factor lu_solve sfuel st st'.

(** ** Scalar test problems

    A solver for diagonal systems stands for the LU routines; it is exact on
    the 1 x 1 systems of a scalar problem. *)

Definition diag_factor (M : matrix) : matrix := M.

Definition diag_solve (M : matrix) (b : vec) : vec :=
  zipWith (fun x i => x / nth i (nth i M []) 0) b (seq 0 (length b)).

(** A state of a scalar problem with [atol = rtol = 1]. *)
Definition scalar_state (t y h : R) (order n_equal_steps : Z) (D : matrix)
           (y0 scale_y0 c J psi : R) : state matrix :=
  mkState t [y] 1 1 order h (Fin (3 / 100)) n_equal_steps D [y0] [scale_y0]
          (identity 1) kappa_table gamma_table alpha_table c
          error_const_table [[J]]
          (diag_factor (msub (identity 1) (mscale c [[J]])))
          (map (fun order => compute_R order 1) (arange 0 MAX_ORDER)) [psi].

(** dy/dt = 1 + a y^2 (componentwise) and its Jacobian for one component. *)
Definition fun_quadratic (a : R) (t : R) (y : vec) : vec :=
  map (fun v => 1 + a * v ^ 2) y.

Definition jac_quadratic (a : R) (t : R) (y : vec) : matrix :=
  [[2 * a * nth 0 y 0]].

(** dy/dt = -2 t and its Jacobian for one component. *)
Definition fun_ramp (t : R) (y : vec) : vec := map (fun _ => -2 * t) y.

Definition jac_zero (t : R) (y : vec) : matrix := [[0]].

(** Order 1 at [y = 0] with an empty history: [h = 237/200] gives [c = 1],
    and the Jacobian of [fun_quadratic a] at [y = 0] is 0. *)
Definition st_newton : state matrix :=
  scalar_state 0 0 (237 / 200) 1 0 (repeat [0] 6) 0 1 1 0 0.

(** Order 5 ([MAX_ORDER]): [h = 137/60] gives [c = 1]. *)
Definition D_order5 : matrix := [[1]; [0]; [0]; [0]; [0]; [1]].

Definition st_order5 : state matrix :=
  scalar_state 0 1 (137 / 60) 5 0 D_order5 2 3 1 0 1.

(** Order 1 with the history [D[1] = -10] and the step [h = 37/20]:
    [c = 370/237], [psi = -2000/237], and the prediction is [y0 = -10]. *)
Definition st_reject : state matrix :=
  scalar_state 0 0 (37 / 20) 1 0 [[0]; [-10]; [0]; [0]; [0]; [0]]
               (-10) 11 (370 / 237) 0 (- (2000 / 237)).

(** The state [_bdf_init] builds for dy/dt = -2 t, y(1) = 1 and the output
    times [1, 0] (lemma [init_backward]). *)
Definition st_backward : state matrix :=
  scalar_state 1 1 (-100) 1 0 [[1]; [2]; [0]; [0]; [0]; [0]]
               3 4 (-200 / 237) 0 (400 / 237).

(** The state [_bdf_init] builds for dy/dt = 1, y(0) = 0 and the output
    times [0, 1] (lemma [init_forward]). *)
Definition st_forward : state matrix :=
  scalar_state 0 0 100 1 0 [[0]; [1]; [0]; [0]; [0]; [0]]
               1 2 (200 / 237) 0 (200 / 237).

(** The state after the first step from [st_forward]. *)
Definition st_forward_1 : state matrix :=
  mkState 100 [1] 1 1 1 100 (Fin (3 / 100)) 1
          [[1]; [1]; [0]; [0]; [0]; [0]] [2] [3]
          (identity 1) kappa_table gamma_table alpha_table (200 / 237)
          error_const_table [[0]]
          (diag_factor (msub (identity 1) (mscale (200 / 237) [[0]])))
          (map (fun order => compute_R order 1) (arange 0 MAX_ORDER))
          [200 / 237].

(** * Proofs *)

(** ** Comparisons and arithmetic *)

Lemma Rltb_true x y : x < y -> Rltb x y = true.
Proof. unfold Rltb; destruct (Rlt_dec x y); tauto. Qed.

Lemma Rltb_false x y : ~ x < y -> Rltb x y = false.
Proof. unfold Rltb; destruct (Rlt_dec x y); tauto. Qed.

Lemma Rltb_true_iff x y : Rltb x y = true <-> x < y.
Proof. unfold Rltb; destruct (Rlt_dec x y); split; auto; discriminate. Qed.

Lemma Rleb_true x y : x <= y -> Rleb x y = true.
Proof. unfold Rleb; destruct (Rle_dec x y); tauto. Qed.

Lemma Rleb_false x y : ~ x <= y -> Rleb x y = false.
Proof. unfold Rleb; destruct (Rle_dec x y); tauto. Qed.

Lemma Reqb_true x y : x = y -> Reqb x y = true.
Proof. unfold Reqb; destruct (Req_dec_T x y); tauto. Qed.

Lemma Reqb_false x y : x <> y -> Reqb x y = false.
Proof. unfold Reqb; destruct (Req_dec_T x y); tauto. Qed.

Lemma Rgtb_true_inv x y : Rgtb x y = true -> y < x.
Proof. unfold Rgtb; apply Rltb_true_iff. Qed.

Lemma fdiv_fin x y : y <> 0 -> fdiv x y = Fin (x / y).
Proof. unfold fdiv; destruct (Req_dec_T y 0); tauto. Qed.

Lemma fdiv_inf x y : y = 0 -> fdiv x y = PInf.
Proof. unfold fdiv; destruct (Req_dec_T y 0); tauto. Qed.

Lemma Rabs_eq_pos x a : 0 <= a -> x = a -> Rabs x = a.
Proof. intros Ha ->. apply Rabs_pos_eq, Ha. Qed.

Lemma Rabs_eq_neg x a : 0 <= a -> x = - a -> Rabs x = a.
Proof. intros Ha ->. rewrite Rabs_Ropp. apply Rabs_pos_eq, Ha. Qed.

Lemma Rabs_shrink h factor :
  h <> 0 -> 0 < factor < 1 -> Rabs (h * factor) < Rabs h.
Proof.
  intros Hh [H0 H1]. rewrite Rabs_mult, (Rabs_pos_eq factor) by lra.
  assert (0 < Rabs h) by (apply Rabs_pos_lt; assumption). nra.
Qed.

Lemma Rpower_base_1 e : Rpower 1 e = 1.
Proof. unfold Rpower. rewrite ln_1, Rmult_0_r. apply exp_0. Qed.

Lemma Rpower_neg_lt_1 x e : 1 < x -> e < 0 -> 0 < Rpower x e < 1.
Proof.
  intros Hx He. split; [apply exp_pos|].
  rewrite <- (Rpower_O x) by lra. apply Rpower_lt; assumption.
Qed.

Lemma EPS_small : 0 < 10 * EPS < 3 / 100.
Proof.
  unfold EPS.
  assert (H : 1024 <= 2 ^ 52).
  { change 52%nat with (10 + 42)%nat. rewrite pow_add.
    assert (1 <= 2 ^ 42) by (apply pow_R1_Rle; lra).
    assert (2 ^ 10 = 1024) by (simpl; lra). nra. }
  assert (0 < / 2 ^ 52) by (apply Rinv_0_lt_compat; lra).
  assert (/ 2 ^ 52 <= / 1024) by (apply Rinv_le_contravar; lra).
  lra.
Qed.

Lemma rms_nonneg v : 0 <= rms v.
Proof. apply sqrt_pos. Qed.

Lemma rms_single x : rms [x] = Rabs x.
Proof.
  unfold rms, mean, vsq; simpl.
  replace ((x * (x * 1) + 0) / 1) with (Rsqr x) by (unfold Rsqr; field).
  apply sqrt_Rsqr_abs.
Qed.

Lemma exponent_neg (j order : Z) :
  (0 <= j)%Z -> (1 <= order)%Z -> -1 / IZR (j + order) < 0.
Proof.
  intros Hj Ho. assert (0 < IZR (j + order)) by (apply IZR_lt; lia).
  unfold Rdiv. assert (0 < / IZR (j + order)) by (apply Rinv_0_lt_compat; lra).
  lra.
Qed.

(** Decide the comparisons between closed real expressions of a goal. *)
Ltac Rdecide :=
  repeat match goal with
    | |- context [Rltb ?a ?b] =>
        first [rewrite (Rltb_true a b) by lra | rewrite (Rltb_false a b) by lra]
    | |- context [Rleb ?a ?b] =>
        first [rewrite (Rleb_true a b) by lra | rewrite (Rleb_false a b) by lra]
    | |- context [Reqb ?a ?b] =>
        first [rewrite (Reqb_true a b) by lra | rewrite (Reqb_false a b) by lra]
    | |- context [fdiv ?a ?b] =>
        first [rewrite (fdiv_fin a b) by lra | rewrite (fdiv_inf a b) by lra]
    end.

(** Split an equation between explicit lists into those of its entries. *)
Ltac list_eq :=
  repeat match goal with
    | |- _ :: _ = _ :: _ => apply (f_equal2 (@cons _))
    | |- @nil _ = @nil _ => reflexivity
    end.

(** ** The order on [ext] and [argmax] *)

Lemma ext_ltb_irrefl x : ext_ltb x x = false.
Proof. destruct x; simpl; auto. apply Rltb_false; lra. Qed.

Lemma ext_ltb_spec x y :
  ext_ltb x y = true <->
  match x, y with
  | Fin a, Fin b => a < b
  | Fin _, PInf => True
  | PInf, _ => False
  end.
Proof.
  destruct x, y; simpl; try tauto; try (split; [discriminate | tauto]).
  apply Rltb_true_iff.
Qed.

Lemma ext_ltb_trans x y z :
  ext_ltb x y = true -> ext_ltb y z = true -> ext_ltb x z = true.
Proof.
  rewrite !ext_ltb_spec. destruct x, y, z; try tauto. lra.
Qed.

Lemma ext_ltb_asym x y : ext_ltb x y = true -> ext_ltb y x = false.
Proof.
  intros H. destruct (ext_ltb y x) eqn:E; auto.
  pose proof (ext_ltb_trans _ _ _ H E) as C.
  rewrite ext_ltb_irrefl in C; discriminate.
Qed.

Lemma ext_ltb_false_trans x y z :
  ext_ltb x y = false -> ext_ltb y z = false -> ext_ltb x z = false.
Proof.
  intros H1 H2. destruct (ext_ltb x z) eqn:E; auto.
  apply ext_ltb_spec in E.
  assert (N1 : ~ ext_ltb x y = true) by congruence.
  assert (N2 : ~ ext_ltb y z = true) by congruence.
  rewrite ext_ltb_spec in N1, N2.
  destruct x, y, z; try tauto. lra.
Qed.

(** Two maxima hold the same value. *)
Lemma ext_ltb_total x y :
  ext_ltb x y = false -> ext_ltb y x = false -> x = y.
Proof.
  intros H1 H2.
  assert (N1 : ~ ext_ltb x y = true) by congruence.
  assert (N2 : ~ ext_ltb y x = true) by congruence.
  rewrite ext_ltb_spec in N1, N2.
  destruct x, y; try tauto. f_equal; lra.
Qed.

Lemma argmax3 a b c :
  argmax [a; b; c] =
  if ext_ltb a b then (if ext_ltb b c then 2%nat else 1%nat)
  else (if ext_ltb a c then 2%nat else 0%nat).
Proof. reflexivity. Qed.

Lemma argmax3_lt a b c : (argmax [a; b; c] < 3)%nat.
Proof.
  rewrite argmax3. destruct (ext_ltb a b), (ext_ltb b c), (ext_ltb a c); lia.
Qed.

Lemma argmax3_is_max a b c : is_max [a; b; c] (argmax [a; b; c]).
Proof.
  rewrite argmax3. intros j Hj. simpl in Hj.
  destruct (ext_ltb a b) eqn:Eab.
  - destruct (ext_ltb b c) eqn:Ebc.
    + destruct j as [|[|[|j]]]; simpl; try lia.
      * apply ext_ltb_asym; eauto using ext_ltb_trans.
      * apply ext_ltb_asym; assumption.
      * apply ext_ltb_irrefl.
    + destruct j as [|[|[|j]]]; simpl; try lia.
      * apply ext_ltb_asym; assumption.
      * apply ext_ltb_irrefl.
      * assumption.
  - destruct (ext_ltb a c) eqn:Eac.
    + destruct j as [|[|[|j]]]; simpl; try lia.
      * apply ext_ltb_asym; assumption.
      * destruct (ext_ltb c b) eqn:Ecb; auto.
        rewrite (ext_ltb_trans _ _ _ Eac Ecb) in Eab; discriminate.
      * apply ext_ltb_irrefl.
    + destruct j as [|[|[|j]]]; simpl; try lia; auto using ext_ltb_irrefl.
Qed.

(** Every entry before the selected one is strictly smaller. *)
Lemma argmax3_first a b c j :
  (j < argmax [a; b; c])%nat ->
  ext_ltb (nth j [a; b; c] PInf) (nth (argmax [a; b; c]) [a; b; c] PInf) = true.
Proof.
  rewrite argmax3.
  destruct (ext_ltb a b) eqn:Eab.
  - destruct (ext_ltb b c) eqn:Ebc; intros Hj.
    + destruct j as [|[|j]]; simpl; try lia; eauto using ext_ltb_trans.
    + destruct j as [|j]; simpl; try lia; auto.
  - destruct (ext_ltb a c) eqn:Eac; intros Hj; [|lia].
    destruct j as [|[|j]]; simpl; try lia; auto.
    destruct (ext_ltb b c) eqn:Ebc; auto.
    rewrite (ext_ltb_false_trans _ _ _ Eab Ebc) in Eac; discriminate.
Qed.

Lemma fpow_pos x e : e < 0 -> ext_ltb (Fin 0) (fpow x e) = true.
Proof.
  intros He. unfold fpow. destruct (Req_dec_T x 0).
  - destruct (Rlt_dec e 0); [reflexivity | contradiction].
  - simpl. apply Rltb_true. unfold Rpower. apply exp_pos.
Qed.

Lemma epow_inf e : e < 0 -> epow PInf e = Fin 0.
Proof. intros He; simpl. destruct (Rlt_dec e 0); tauto. Qed.

(** ** The tests of the Newton iteration *)

(** The abort test never fires: it asks for [dy_norm_old < -1], and
    [dy_norm_old] is [-1] or a norm. *)
Lemma newton_abort_pred_false tol k dy_norm old :
  -1 <= old -> newton_abort_pred tol k dy_norm old = false.
Proof.
  intros H. unfold newton_abort_pred.
  rewrite (Rltb_false old (-1)) by lra. apply andb_false_r.
Qed.

Lemma rate_gt_1 dy_norm old : 0 < old -> old < dy_norm -> 1 < dy_norm / old.
Proof.
  intros H0 H1. apply (Rmult_lt_reg_r old); [assumption|].
  unfold Rdiv. rewrite Rmult_assoc, Rinv_l by lra. lra.
Qed.

Lemma rate_lt_1 dy_norm old :
  0 < old -> 0 <= dy_norm < old -> 0 <= dy_norm / old < 1.
Proof.
  intros H0 [H1 H2]. assert (0 < / old) by (apply Rinv_0_lt_compat; assumption).
  split.
  - unfold Rdiv; nra.
  - apply (Rmult_lt_reg_r old); [assumption|].
    unfold Rdiv. rewrite Rmult_assoc, Rinv_l by lra. lra.
Qed.

(** A growing correction ([rate > 1]) passes the convergence test: its
    projected error [rate / (1 - rate) * dy_norm] is negative. *)
Lemma newton_converged_pred_diverging tol dy_norm old :
  0 < old -> old < dy_norm -> ext_ltb (Fin 0) tol = true ->
  newton_converged_pred tol dy_norm old = true.
Proof.
  intros H0 H1 Htol. pose proof (rate_gt_1 _ _ H0 H1) as Hr.
  unfold newton_converged_pred, Rgtb.
  rewrite Rltb_true by lra. rewrite fdiv_fin by lra. cbn [emul andb].
  replace (ext_ltb _ tol) with true; [reflexivity|].
  symmetry. apply (ext_ltb_trans _ (Fin 0)); [|assumption].
  apply Rltb_true.
  assert (0 < / (dy_norm / old - 1)) by (apply Rinv_0_lt_compat; lra).
  replace (dy_norm / old / (1 - dy_norm / old) * dy_norm)
    with (- (dy_norm / old * / (dy_norm / old - 1) * dy_norm)) by (field; lra).
  assert (0 < dy_norm / old * / (dy_norm / old - 1)) by nra.
  nra.
Qed.

(** A repeated correction norm ([rate = 1]) does not pass it. *)
Lemma newton_converged_pred_stalling tol old :
  0 < old -> newton_converged_pred tol old old = false.
Proof.
  intros H0. unfold newton_converged_pred.
  replace (old / old) with 1 by (field; lra).
  rewrite fdiv_inf by lra. cbn [emul ext_ltb].
  rewrite andb_false_r, Reqb_false by lra. reflexivity.
Qed.

(** On a contracting iteration ([rate < 1]) the test is the one the
    specification states. *)
Lemma newton_converged_pred_contracting tol dy_norm old :
  0 < old -> 0 <= dy_norm < old ->
  newton_converged_pred tol dy_norm old = true
  <-> (dy_norm = 0
       \/ ext_ltb (Fin (dy_norm / old / (1 - dy_norm / old) * dy_norm)) tol
          = true).
Proof.
  intros H0 H1. pose proof (rate_lt_1 _ _ H0 H1) as [Hr0 Hr1].
  unfold newton_converged_pred, Rgtb.
  rewrite fdiv_fin by lra. cbn [emul].
  destruct (Req_dec_T dy_norm 0) as [Hz | Hnz].
  - rewrite (Reqb_true _ _ Hz), orb_true_r. tauto.
  - rewrite (Reqb_false _ _ Hnz), orb_false_r.
    assert (0 < dy_norm / old).
    { assert (0 < / old) by (apply Rinv_0_lt_compat; assumption).
      unfold Rdiv; nra. }
    rewrite Rltb_true by assumption. cbn [andb]. tauto.
Qed.

(** ** searchsorted *)

Lemma searchsorted_le a v : (searchsorted a v <= length a)%nat.
Proof.
  induction a as [|x a IH]; simpl; [lia|]. destruct (Rltb x v); simpl; lia.
Qed.

Lemma sorted_nth_ge x a j :
  StronglySorted Rle (x :: a) -> (j < length (x :: a))%nat ->
  x <= nth j (x :: a) 0.
Proof.
  intros Hs Hj. inversion Hs as [|? ? _ Hall]; subst.
  destruct j as [|j]; simpl; [lra|].
  rewrite Forall_forall in Hall. apply Hall, nth_In. simpl in Hj; lia.
Qed.

(** For an ascending array, the indices below [searchsorted a v] are those
    of the elements [< v]. *)
Lemma searchsorted_spec a v j :
  StronglySorted Rle a -> (j < length a)%nat ->
  (j < searchsorted a v)%nat <-> nth j a 0 < v.
Proof.
  intros Hs; revert j; induction Hs as [|x a Hs IH Hall]; intros j Hj;
    [simpl in Hj; lia|].
  simpl searchsorted. destruct (Rltb x v) eqn:E.
  - apply Rltb_true_iff in E. destruct j as [|j]; simpl.
    + split; [auto | lia].
    + rewrite <- IH by (simpl in Hj; lia). lia.
  - assert (~ x < v) by (rewrite <- Rltb_true_iff; congruence).
    pose proof (sorted_nth_ge x a j (SSorted_cons x Hs Hall) Hj).
    split; [lia | lra].
Qed.

Lemma last_nth (a : vec) d : last a d = nth (length a - 1) a d.
Proof.
  induction a as [|x a IH]; [reflexivity|].
  destruct a as [|x' a]; [reflexivity|].
  change (last (x :: x' :: a) d) with (last (x' :: a) d). rewrite IH.
  simpl. rewrite Nat.sub_0_r. reflexivity.
Qed.

Lemma searchsorted_all a v :
  StronglySorted Rle a -> a <> [] ->
  searchsorted a v = length a <-> last a 0 < v.
Proof.
  intros Hs Hne.
  assert (Hlen : (length a - 1 < length a)%nat)
    by (destruct a; [congruence | simpl; lia]).
  pose proof (searchsorted_spec a v _ Hs Hlen) as Hspec.
  pose proof (searchsorted_le a v).
  rewrite last_nth, <- Hspec. lia.
Qed.

Lemma seq_sorted i n : StronglySorted lt (seq i n).
Proof.
  revert i; induction n as [|n IH]; intros i; simpl; constructor; [apply IH|].
  apply Forall_forall; intros j Hj; apply in_seq in Hj; lia.
Qed.

Lemma filter_seq_below k i n :
  filter (fun j => (j <? k)%nat) (seq i n) = seq i (Nat.min n (k - i)).
Proof.
  revert i; induction n as [|n IH]; intros i; simpl; [reflexivity|].
  destruct (i <? k)%nat eqn:E.
  - apply Nat.ltb_lt in E. rewrite IH.
    replace (k - i)%nat with (S (k - S i)) by lia. reflexivity.
  - apply Nat.ltb_ge in E. rewrite IH.
    replace (k - i)%nat with 0%nat by lia.
    replace (k - S i)%nat with 0%nat by lia.
    rewrite Nat.min_0_r. reflexivity.
Qed.

(** The pending output times before [t] are the indices from the cursor [i]
    up to [searchsorted t_eval t]. *)
Lemma pending_seq t_eval i t :
  StronglySorted Rle t_eval ->
  pending t_eval i t = seq i (searchsorted t_eval t - i).
Proof.
  intros Hs. unfold pending.
  rewrite (filter_ext_in _ (fun j => (j <? searchsorted t_eval t)%nat)).
  - rewrite filter_seq_below. f_equal.
    pose proof (searchsorted_le t_eval t). lia.
  - intros j Hj. apply in_seq in Hj.
    apply eq_true_iff_eq. rewrite Rltb_true_iff, Nat.ltb_lt.
    symmetry. apply searchsorted_spec; [assumption | lia].
Qed.

(** ** Properties of the solver, for every right-hand side *)

Section SolverProperties.
Context {LUt : Type}.
Variable fun_ : R -> vec -> vec.
Variable jac : R -> vec -> matrix.
Variable lu_factor : matrix -> LUt.
Variable lu_solve : LUt -> vec -> vec.
Implicit Type st : state LUt.

(** *** The Newton loop *)

Lemma newton_cond_false_loop fuel st ws :
  newton_cond ws = false -> newton_loop fun_ lu_solve fuel st ws = ws.
Proof. destruct fuel; simpl; intros H; [ | rewrite H]; reflexivity. Qed.

(** One round either declares convergence and keeps [k] as the abort
    test left it, or stores the new norm and counts one more round. *)
Lemma newton_body_cases st ws :
  let dy_norm :=
    rms (vdiv (lu_solve (s_LU st)
                 (vsub (vsub (vscale (s_c st)
                                     (fun_ (s_t st + s_h st) (nw_y ws)))
                             (s_psi st))
                       (nw_d ws)))
              (s_scale_y0 st)) in
  let k :=
    if newton_abort_pred (s_newton_tol st) (nw_k ws) dy_norm
                         (nw_dy_norm_old ws)
    then NEWTON_MAXITER else nw_k ws in
  let ws' := newton_body fun_ lu_solve st ws in
  (nw_not_converged ws' = false
   /\ nw_dy_norm_old ws' = nw_dy_norm_old ws /\ nw_k ws' = k)
  \/ (nw_not_converged ws' = nw_not_converged ws
      /\ 0 <= nw_dy_norm_old ws' /\ nw_k ws' = (k + 1)%Z).
Proof.
  unfold newton_body; cbv zeta.
  destruct (newton_converged_pred _ _ _); [left | right]; cbn;
    auto using rms_nonneg.
Qed.

Lemma newton_body_inv st ws :
  newton_inv ws -> newton_inv (newton_body fun_ lu_solve st ws).
Proof.
  intros [Hold Hk]. unfold newton_inv.
  destruct (newton_body_cases st ws) as [(_ & -> & ->) | (_ & H & ->)];
    rewrite newton_abort_pred_false by assumption; split; try lra; lia.
Qed.

(** No round of the loop is cut short: [k] grows by one until
    convergence is declared. *)
Lemma newton_body_k st ws :
  newton_inv ws ->
  let ws' := newton_body fun_ lu_solve st ws in
  nw_not_converged ws' = false \/ nw_k ws' = (nw_k ws + 1)%Z.
Proof.
  intros [Hold Hk].
  destruct (newton_body_cases st ws) as [(H & _) | (_ & _ & H)];
    [left; exact H | right].
  cbv zeta; rewrite H, newton_abort_pred_false by assumption; reflexivity.
Qed.

Lemma newton_loop_inv fuel st ws :
  newton_inv ws -> newton_inv (newton_loop fun_ lu_solve fuel st ws).
Proof.
  revert ws; induction fuel as [|fuel IH]; intros ws H; simpl; auto.
  destruct (newton_cond ws); auto using newton_body_inv.
Qed.

Lemma newton_loop_done fuel st ws :
  newton_inv ws ->
  (NEWTON_MAXITER - nw_k ws <= Z.of_nat fuel)%Z ->
  newton_cond (newton_loop fun_ lu_solve fuel st ws) = false.
Proof.
  revert ws; induction fuel as [|fuel IH]; intros ws Hinv Hk.
  - simpl. unfold newton_cond.
    replace (nw_k ws <? NEWTON_MAXITER)%Z with false; [apply andb_false_r|].
    symmetry; apply Z.ltb_ge; lia.
  - simpl. destruct (newton_cond ws) eqn:Hc; [|exact Hc].
    destruct (newton_body_k st ws Hinv) as [H | H].
    + rewrite newton_cond_false_loop; unfold newton_cond; rewrite H;
        reflexivity.
    + apply IH; [apply newton_body_inv, Hinv | rewrite H; lia].
Qed.

Lemma newton_init_inv (d y : vec) : newton_inv (mkNewton 0 true (-1) d y).
Proof. split; simpl; [lra | lia]. Qed.

(** The fuel of [_newton_iteration] is enough: its loop has left. *)
Lemma newton_iteration_terminates st :
  newton_cond
    (newton_loop fun_ lu_solve (Z.to_nat NEWTON_MAXITER) st
       (mkNewton 0 true (-1) (zeros (length (s_y0 st))) (s_y0 st))) = false.
Proof.
  apply newton_loop_done; [apply newton_init_inv | ].
  cbn [nw_k]; unfold NEWTON_MAXITER; lia.
Qed.

Lemma newton_n_iter_pos st nc n_iter y d :
  _newton_iteration fun_ lu_solve st = (nc, n_iter, y, d) -> (1 <= n_iter)%Z.
Proof.
  unfold _newton_iteration. cbv zeta. intros H.
  pose proof (newton_loop_inv (Z.to_nat NEWTON_MAXITER) st _
                (newton_init_inv (zeros (length (s_y0 st))) (s_y0 st)))
    as [_ Hk].
  set (ws := newton_loop _ _ _ _ _) in *.
  assert (n_iter = (nw_k ws + 1)%Z) by congruence.
  lia.
Qed.

(** *** The order *)

Lemma order_update_difference st d b :
  s_order (_update_difference_for_next_step st d b) = s_order st.
Proof. unfold _update_difference_for_next_step; destruct b; reflexivity. Qed.

Lemma order_update_step_size st factor b :
  s_order (_update_step_size lu_factor st factor b) = s_order st.
Proof. unfold _update_step_size; destruct b; reflexivity. Qed.

Lemma order_step_body ws :
  s_order (sw_state (step_body fun_ jac lu_factor lu_solve ws))
  = s_order (sw_state ws).
Proof.
  unfold step_body; cbv zeta.
  destruct (_newton_iteration fun_ lu_solve (sw_state ws))
    as [[[nc n_iter] y] d].
  destruct (nc && sw_not_updated_jacobian ws); [reflexivity|].
  destruct nc; [apply order_update_step_size|].
  destruct (Rgtb _ 1); [apply order_update_step_size | reflexivity].
Qed.

Lemma order_step_loop fuel ws ws' :
  step_loop fun_ jac lu_factor lu_solve fuel ws = Some ws' ->
  s_order (sw_state ws') = s_order (sw_state ws).
Proof.
  revert ws; induction fuel as [|fuel IH]; intros ws; simpl;
    destruct (sw_step_accepted ws); simpl; try congruence.
  intros H; rewrite (IH _ H); apply order_step_body.
Qed.

(** The three factors: the outer ones are those of an infinite error norm
    at the ends of the order range. *)
Lemma order_factors_shape st d y :
  exists m e p,
    order_factors st d y =
    [epow m (-1 / IZR (0 + s_order st));
     epow (Fin e) (-1 / IZR (1 + s_order st));
     epow p (-1 / IZR (2 + s_order st))]
    /\ ((s_order st >? 1)%Z = false -> m = PInf)
    /\ ((s_order st <? MAX_ORDER)%Z = false -> p = PInf).
Proof.
  unfold order_factors; cbv zeta.
  eexists _, _, _; split; [reflexivity|].
  split; intros ->; reflexivity.
Qed.

Lemma order_factors_length st d y : length (order_factors st d y) = 3%nat.
Proof. reflexivity. Qed.

Lemma order_change_order st d y n_iter :
  s_order (order_change lu_factor st d y n_iter)
  = (s_order st + (Z.of_nat (argmax (order_factors st d y)) - 1))%Z.
Proof.
  unfold order_change; cbv zeta. rewrite order_update_step_size. reflexivity.
Qed.

(** At order 1 the factor of order 0 is 0 and that of order 1 positive, so
    index 0 is not selected; at [MAX_ORDER] likewise for index 2. *)
Lemma order_change_in_range st d y n_iter :
  (1 <= s_order st <= MAX_ORDER)%Z ->
  (1 <= s_order (order_change lu_factor st d y n_iter) <= MAX_ORDER)%Z.
Proof.
  intros Hr. rewrite order_change_order.
  destruct (order_factors_shape st d y) as (m & e & p & -> & Hm & Hp).
  pose proof (argmax3_lt (epow m (-1 / IZR (0 + s_order st)))
                (epow (Fin e) (-1 / IZR (1 + s_order st)))
                (epow p (-1 / IZR (2 + s_order st)))) as Hlt.
  assert (Hmid : ext_ltb (Fin 0) (epow (Fin e) (-1 / IZR (1 + s_order st)))
                 = true)
    by (apply fpow_pos, exponent_neg; lia).
  unfold MAX_ORDER in *.
  assert (Hcases : (s_order st = 1 \/ s_order st = 5
                    \/ 1 < s_order st < 5)%Z) by lia.
  destruct Hcases as [H1 | [H5 | Hin]]; [| |lia].
  - rewrite Hm by (rewrite H1; reflexivity).
    rewrite epow_inf by (apply exponent_neg; lia).
    rewrite argmax3, Hmid.
    destruct (ext_ltb (epow (Fin e) _) _); lia.
  - rewrite Hp by (rewrite H5; reflexivity).
    rewrite (epow_inf (-1 / IZR (2 + s_order st)))
      by (apply exponent_neg; lia).
    rewrite argmax3, (ext_ltb_asym _ _ Hmid).
    destruct (ext_ltb (epow m _) (epow (Fin e) _)) eqn:E1; [lia|].
    destruct (ext_ltb (epow m _) (Fin 0)) eqn:E2; [|lia].
    rewrite (ext_ltb_trans _ _ _ E2 Hmid) in E1; discriminate.
Qed.

Lemma step_keeps_order_in_range fuel st st' :
  (1 <= s_order st <= MAX_ORDER)%Z ->
  _bdf_step fun_ jac lu_factor lu_solve fuel st = Some st' ->
  (1 <= s_order st' <= MAX_ORDER)%Z.
Proof.
  intros Hr. unfold _bdf_step; cbv zeta.
  destruct (step_loop _ _ _ _ fuel _) as [ws|] eqn:Hloop; [|discriminate].
  apply order_step_loop in Hloop; simpl in Hloop.
  intros H; injection H as <-.
  match goal with |- context [if ?b then _ else _] => destruct b end.
  - unfold no_change_in_order. rewrite order_update_difference. simpl.
    rewrite Hloop; exact Hr.
  - apply order_change_in_range. simpl. rewrite Hloop; exact Hr.
Qed.

(** C3.  A step taken from an order in [[1, MAX_ORDER]] ends with an order
    in [[1, MAX_ORDER]], whatever rejections, Newton failures and order
    decision it went through: the order changes in [order_change] only,
    which does not select [order - 1] at order 1 nor [order + 1] at
    [MAX_ORDER] ([order_change_in_range]).  Along a whole integration:
    [odeint_loop_order_in_range]. *)
Theorem bdf_step_order_in_range fuel st st' :
  (1 <= s_order st <= MAX_ORDER)%Z ->
  _bdf_step fun_ jac lu_factor lu_solve fuel st = Some st' ->
  (1 <= s_order st' <= MAX_ORDER)%Z.
Proof. apply step_keeps_order_in_range. Qed.

(** C9.  The order decision takes the first maximum of the three factors:
    the selected index holds a maximum, and no lower index does; the new
    order is [order + max_index - 1]. *)
Theorem order_change_first_maximum st d y n_iter :
  let factors := order_factors st d y in
  let max_index := argmax factors in
  s_order (order_change lu_factor st d y n_iter)
  = (s_order st + (Z.of_nat max_index - 1))%Z
  /\ (max_index < length factors)%nat
  /\ is_max factors max_index
  /\ (forall j, (j < length factors)%nat -> is_max factors j ->
                (max_index <= j)%nat).
Proof.
  cbv zeta. split; [apply order_change_order|].
  destruct (order_factors_shape st d y) as (m & e & p & -> & _).
  split; [apply argmax3_lt|]. split; [apply argmax3_is_max|].
  intros j Hj Hmax.
  destruct (Nat.le_gt_cases (argmax [epow m (-1 / IZR (0 + s_order st));
                                     epow (Fin e) (-1 / IZR (1 + s_order st));
                                     epow p (-1 / IZR (2 + s_order st))]) j)
    as [Hle | Hgt]; [exact Hle|].
  apply argmax3_first in Hgt.
  rewrite (Hmax _ (argmax3_lt _ _ _)) in Hgt. discriminate.
Qed.

(** *** Rejections *)

Lemma h_update_step_size st factor b :
  s_h (_update_step_size lu_factor st factor b) = s_h st * factor.
Proof. unfold _update_step_size; destruct b; reflexivity. Qed.

Lemma safety_of_range n_iter :
  (1 <= n_iter)%Z -> 0 < safety_of n_iter <= 9 / 10.
Proof.
  intros Hn. unfold safety_of, NEWTON_MAXITER.
  assert (Hd : 9 <= IZR (2 * 4 + n_iter)) by (apply IZR_le; lia).
  replace (IZR (2 * 4 + 1)) with 9 by (simpl; lra).
  assert (Hinv : 0 < / IZR (2 * 4 + n_iter)) by (apply Rinv_0_lt_compat; lra).
  assert (Hle : / IZR (2 * 4 + n_iter) <= / 9)
    by (apply Rinv_le_contravar; lra).
  unfold Rdiv; split; nra.
Qed.

Lemma shrink_factor_range st n_iter error_norm :
  (1 <= s_order st)%Z -> (1 <= n_iter)%Z -> 1 < error_norm ->
  0 < shrink_factor st n_iter error_norm < 1.
Proof.
  intros Ho Hn He. unfold shrink_factor, MIN_FACTOR.
  pose proof (safety_of_range n_iter Hn) as [Hs0 Hs1].
  assert (Hx : -1 / IZR (s_order st + 1) < 0).
  { replace (s_order st + 1)%Z with (1 + s_order st)%Z by lia.
    apply exponent_neg; lia. }
  pose proof (Rpower_neg_lt_1 error_norm _ He Hx) as [Hp0 Hp1].
  unfold Rmax; destruct (Rle_dec _ _); nra.
Qed.

(** C6.  A round of the retry loop that neither accepts the step nor
    merely refreshes the Jacobian multiplies the step by the factor the
    source names: 3/10 after a failed Newton iteration, and
    [max(MIN_FACTOR, safety * error_norm ** (-1 / (order + 1)))] after a
    converged one with [error_norm > 1], where
    [safety = 0.9 * (2 * NEWTON_MAXITER + 1) / (2 * NEWTON_MAXITER + n_iter)]
    is at most 9/10 and the power is below 1.  Either factor lies in (0, 1),
    so that a non-zero step gets strictly smaller. *)
Theorem rejection_shrinks_step ws :
  (1 <= s_order (sw_state ws))%Z ->
  sw_step_accepted (step_body fun_ jac lu_factor lu_solve ws) = false ->
  sw_not_updated_jacobian (step_body fun_ jac lu_factor lu_solve ws)
  = sw_not_updated_jacobian ws ->
  let st := sw_state ws in
  let st' := sw_state (step_body fun_ jac lu_factor lu_solve ws) in
  exists not_converged n_iter y d,
    _newton_iteration fun_ lu_solve st = (not_converged, n_iter, y, d)
    /\ let scale_y := vadds (s_atol st) (vscale (s_rtol st) (vabs y)) in
       let error := vscale (jget 0 (s_error_const st) (s_order st)) d in
       let error_norm := rms (vdiv error scale_y) in
       let safety :=
         9 / 10 * IZR (2 * NEWTON_MAXITER + 1)
         / IZR (2 * NEWTON_MAXITER + n_iter) in
       let power := Rpower error_norm (-1 / IZR (s_order st + 1)) in
       let factor :=
         if not_converged then 3 / 10
         else Rmax MIN_FACTOR (safety * power) in
       (not_converged = false ->
        1 < error_norm /\ 0 < safety <= 9 / 10 /\ 0 < power < 1
        /\ MIN_FACTOR <= factor)
       /\ 0 < factor < 1
       /\ s_h st' = s_h st * factor
       /\ (s_h st <> 0 -> Rabs (s_h st') < Rabs (s_h st)).
Proof.
  intros Ho; cbv zeta. unfold step_body; cbv zeta.
  destruct (_newton_iteration fun_ lu_solve (sw_state ws))
    as [[[nc n_iter] y] d] eqn:Hn.
  apply newton_n_iter_pos in Hn.
  destruct nc; cbn [andb].
  - destruct (sw_not_updated_jacobian ws) eqn:Hj;
      cbn [sw_step_accepted sw_not_updated_jacobian sw_state].
    + intros _ Hflag; discriminate.
    + intros _ _. exists true, n_iter, y, d. split; [reflexivity|].
      rewrite h_update_step_size.
      split; [discriminate|]. split; [lra|]. split; [reflexivity|].
      intros Hh; apply Rabs_shrink; [assumption | lra].
  - destruct (Rgtb _ 1) eqn:He;
      cbn [sw_step_accepted sw_not_updated_jacobian sw_state];
      [|discriminate].
    intros _ _. exists false, n_iter, y, d. split; [reflexivity|].
    apply Rgtb_true_inv in He.
    pose proof (shrink_factor_range (sw_state ws) n_iter _ Ho Hn He) as Hf.
    pose proof (safety_of_range n_iter Hn) as Hs.
    assert (Hx : -1 / IZR (s_order (sw_state ws) + 1) < 0).
    { replace (s_order (sw_state ws) + 1)%Z
        with (1 + s_order (sw_state ws))%Z by lia.
      apply exponent_neg; lia. }
    pose proof (Rpower_neg_lt_1 _ _ He Hx) as Hp.
    rewrite h_update_step_size.
    unfold shrink_factor, safety_of, error_norm_of, scale_of in *.
    split; [intros _; repeat split; try tauto; apply Rmax_l|].
    split; [exact Hf|]. split; [reflexivity|].
    intros Hh; apply Rabs_shrink; assumption.
Qed.

(** *** Initialisation *)

Lemma init_D t0 y0 h0 rtol atol :
  s_D (_bdf_init fun_ jac lu_factor t0 y0 h0 rtol atol)
  = [y0; map (fun x => x * h0) (fun_ t0 y0);
     zeros (length y0); zeros (length y0); zeros (length y0);
     zeros (length y0)].
Proof. reflexivity. Qed.

Lemma init_h t0 y0 h0 rtol atol :
  s_h (_bdf_init fun_ jac lu_factor t0 y0 h0 rtol atol)
  = _select_initial_step fun_ atol rtol t0 y0 (fun_ t0 y0) h0.
Proof. reflexivity. Qed.

Lemma init_order t0 y0 h0 rtol atol :
  s_order (_bdf_init fun_ jac lu_factor t0 y0 h0 rtol atol) = 1%Z.
Proof. reflexivity. Qed.

(** The selected step is at most 100 times the guess. *)
Lemma select_initial_step_cap atol rtol t0 y0 f0 h0 :
  _select_initial_step fun_ atol rtol t0 y0 f0 h0 <= 100 * h0.
Proof.
  unfold _select_initial_step; cbv zeta.
  destruct (emul _ h0); simpl; [apply Rmin_l | lra].
Qed.

(** C4 (defect of the code).  [_bdf_init] allocates [MAX_ORDER + 1] = 6
    rows, 0 to 5.  Row [order + 2] lies outside the table from order 4 on
    and row [order + 1] at order 5: the updates of these rows are dropped
    and their reads are clamped to row 5. *)
Theorem difference_table_rows t0 y0 h0 rtol atol :
  let D := s_D (_bdf_init fun_ jac lu_factor t0 y0 h0 rtol atol) in
  length D = Z.to_nat (MAX_ORDER + 1)
  /\ in_bounds (length D) (MAX_ORDER - 1 + 2) = false
  /\ in_bounds (length D) (MAX_ORDER + 1) = false
  /\ in_bounds (length D) (MAX_ORDER + 2) = false
  /\ (forall v, jset D (MAX_ORDER - 1 + 2) v = D)
  /\ (forall v, jset D (MAX_ORDER + 1) v = D)
  /\ (forall v, jset D (MAX_ORDER + 2) v = D)
  /\ jget [] D (MAX_ORDER - 1 + 2) = jget [] D MAX_ORDER
  /\ jget [] D (MAX_ORDER + 1) = jget [] D MAX_ORDER.
Proof. cbv zeta. rewrite init_D. repeat split. Qed.

(** *** The driver loop *)

Lemma fori_loop_for_body (stepper : state LUt) t_eval js y_out i :
  fold_left (fun acc j => for_body stepper t_eval j acc) js (y_out, i)
  = (fold_left (fun y j =>
                  set_column y j
                    (_bdf_interpolate stepper (nth j t_eval 0)))
               js y_out,
     (i + length js)%nat).
Proof.
  revert y_out i; induction js as [|j js IH]; intros y_out i; simpl.
  - f_equal; lia.
  - rewrite IH. f_equal; lia.
Qed.

Lemma fill_outputs_pending (stepper : state LUt) t_eval i y_out :
  StronglySorted Rle t_eval ->
  fill_outputs stepper t_eval i y_out
  = mkOde stepper t_eval
      (i + length (pending t_eval i (s_t stepper)))
      (fold_left (fun y j =>
                    set_column y j
                      (_bdf_interpolate stepper (nth j t_eval 0)))
                 (pending t_eval i (s_t stepper)) y_out).
Proof.
  intros Hs. unfold fill_outputs, fori_loop; cbv zeta.
  rewrite fori_loop_for_body, pending_seq by assumption. reflexivity.
Qed.

Lemma fill_outputs_exit (stepper : state LUt) t_eval i y_out :
  StronglySorted Rle t_eval -> (i < length t_eval)%nat ->
  cond_fun (fill_outputs stepper t_eval i y_out) = false
  <-> last t_eval 0 < s_t stepper.
Proof.
  intros Hs Hi. rewrite fill_outputs_pending, pending_seq by assumption.
  unfold cond_fun; cbn [ow_i ow_t_eval]. rewrite length_seq, Nat.ltb_ge.
  assert (Hne : t_eval <> [])
    by (destruct t_eval; [simpl in Hi; lia | congruence]).
  rewrite <- (searchsorted_all t_eval (s_t stepper) Hs Hne).
  pose proof (searchsorted_le t_eval (s_t stepper)). lia.
Qed.

Lemma fill_outputs_fields (stepper : state LUt) t_eval i y_out :
  ow_stepper (fill_outputs stepper t_eval i y_out) = stepper
  /\ ow_t_eval (fill_outputs stepper t_eval i y_out) = t_eval.
Proof.
  unfold fill_outputs; cbv zeta.
  destruct (fori_loop _ _ _ _); split; reflexivity.
Qed.

(** C10.  After a step to the accepted time [t], with ascending output
    times and the cursor at a pending output [i], the driver interpolates
    the pending outputs whose time is strictly below [t] and no other, by
    ascending index, each with the state of this step, and moves the
    cursor past them; the loop is left exactly when the last output time is
    strictly below [t].  An output time equal to [t] is thus not pending
    before [t] and waits for a later step. *)
Theorem driver_fills_pending_outputs (stepper : state LUt) t_eval i y_out :
  StronglySorted Rle t_eval -> (i < length t_eval)%nat ->
  let ws' := fill_outputs stepper t_eval i y_out in
  let js := pending t_eval i (s_t stepper) in
  ws' = mkOde stepper t_eval (i + length js)
          (fold_left (fun y j =>
                        set_column y j
                          (_bdf_interpolate stepper (nth j t_eval 0)))
                     js y_out)
  /\ (forall j, In j js <->
                (i <= j < length t_eval)%nat /\ nth j t_eval 0 < s_t stepper)
  /\ StronglySorted lt js
  /\ (cond_fun ws' = false <-> last t_eval 0 < s_t stepper).
Proof.
  intros Hs Hi; cbv zeta. split; [apply fill_outputs_pending, Hs|].
  split; [|split].
  - intros j. unfold pending. rewrite filter_In, in_seq, Rltb_true_iff.
    split; intros [H1 H2]; split; auto; lia.
  - rewrite pending_seq by assumption. apply seq_sorted.
  - apply fill_outputs_exit; assumption.
Qed.

(** The order stays in range along the whole integration. *)
Lemma odeint_loop_order_in_range sfuel fuel ws ws' :
  (1 <= s_order (ow_stepper ws) <= MAX_ORDER)%Z ->
  odeint_loop fun_ jac lu_factor lu_solve sfuel fuel ws = Some ws' ->
  (1 <= s_order (ow_stepper ws') <= MAX_ORDER)%Z.
Proof.
  revert ws; induction fuel as [|fuel IH]; intros ws Hr; simpl;
    destruct (cond_fun ws); try discriminate;
    try (intros H; injection H as <-; exact Hr).
  unfold body_fun.
  destruct (_bdf_step _ _ _ _ sfuel _) as [stepper|] eqn:Hs; [|discriminate].
  apply IH. rewrite (proj1 (fill_outputs_fields _ _ _ _)).
  eapply step_keeps_order_in_range; eassumption.
Qed.

(** When the loop of [_bdf_odeint] has run and left, the accepted time
    lies strictly beyond the last output time. *)
Lemma odeint_loop_exit sfuel fuel ws ws' :
  StronglySorted Rle (ow_t_eval ws) -> cond_fun ws = true ->
  odeint_loop fun_ jac lu_factor lu_solve sfuel fuel ws = Some ws' ->
  ow_t_eval ws' = ow_t_eval ws
  /\ last (ow_t_eval ws) 0 < s_t (ow_stepper ws').
Proof.
  revert ws; induction fuel as [|fuel IH]; intros ws Hs Hc; simpl;
    rewrite Hc; [discriminate|].
  unfold body_fun.
  destruct (_bdf_step _ _ _ _ sfuel _) as [stepper|] eqn:Hstep;
    [|discriminate].
  set (ws1 := fill_outputs stepper (ow_t_eval ws) (ow_i ws) (ow_y_out ws)).
  pose proof (fill_outputs_fields stepper (ow_t_eval ws) (ow_i ws)
                (ow_y_out ws)) as [Hst Hte]. fold ws1 in Hst, Hte.
  destruct (cond_fun ws1) eqn:Hc1.
  - intros H. destruct (IH ws1) as [E1 E2]; auto.
    + rewrite Hte; exact Hs.
    + rewrite Hte in E1, E2. split; assumption.
  - destruct fuel; simpl; rewrite Hc1; intros H; injection H as <-;
      (split; [exact Hte|]); rewrite Hst;
      apply (fill_outputs_exit stepper (ow_t_eval ws) (ow_i ws)
               (ow_y_out ws) Hs);
      try exact Hc1; unfold cond_fun in Hc; apply Nat.ltb_lt in Hc; exact Hc.
Qed.
End SolverProperties.

(** ** Interpolation at the accepted time *)

(** ** Vectors *)

Lemma length_zipWith {A B C} (f : A -> B -> C) a b :
  length (zipWith f a b) = Nat.min (length a) (length b).
Proof.
  revert b; induction a as [|x a IH]; intros [|y b]; simpl; auto.
Qed.

Lemma length_zeros n : length (zeros n) = n.
Proof. apply repeat_length. Qed.

Lemma length_vadd a b : length (vadd a b) = Nat.min (length a) (length b).
Proof. apply length_zipWith. Qed.

Lemma length_vscale c v : length (vscale c v) = length v.
Proof. apply length_map. Qed.

Lemma vadd_assoc a b c : vadd (vadd a b) c = vadd a (vadd b c).
Proof.
  revert b c; induction a as [|x a IH]; intros [|y b] [|z c]; simpl; auto.
  unfold vadd in *; simpl. rewrite IH. f_equal; lra.
Qed.

Lemma vadd_zeros_r a n : (length a <= n)%nat -> vadd a (zeros n) = a.
Proof.
  revert n; induction a as [|x a IH]; intros [|n] H; simpl in *; auto; try lia.
  unfold vadd, zeros in *; simpl. rewrite IH by lia. f_equal; lra.
Qed.

Lemma vadd_zeros_l a n : (length a <= n)%nat -> vadd (zeros n) a = a.
Proof.
  revert n; induction a as [|x a IH]; intros [|n] H; simpl in *; auto; try lia.
  unfold vadd, zeros in *; simpl. rewrite IH by lia. f_equal; lra.
Qed.

Lemma vscale_one c v : c = 1 -> vscale c v = v.
Proof.
  intros ->. induction v as [|x v IH]; simpl; auto.
  unfold vscale in *; rewrite IH. f_equal; lra.
Qed.

Lemma vscale_zero c v : c = 0 -> vscale c v = zeros (length v).
Proof.
  intros ->. induction v as [|x v IH]; simpl; auto.
  unfold vscale, zeros in *; simpl; rewrite IH. f_equal; lra.
Qed.

Lemma vadd_times_zero a b :
  (length a <= length b)%nat -> vadd a (map (fun x => x * 0) b) = a.
Proof.
  revert b; induction a as [|x a IH]; intros [|y b] H; simpl in *; auto;
    try lia.
  unfold vadd in *; simpl. rewrite IH by lia. f_equal; lra.
Qed.

(** ** Shapes *)

Lemma length_colsum n M : rows_of n M -> length (colsum n M) = n.
Proof.
  induction 1 as [|r M Hr HM IH]; simpl; [apply length_zeros|].
  rewrite length_vadd, IH, Hr. lia.
Qed.

Lemma rows_of_zipWith {A} n (f : A -> vec -> vec) (a : list A) M :
  (forall x r, length r = n -> length (f x r) = n) ->
  rows_of n M -> rows_of n (zipWith f a M).
Proof.
  intros Hf HM; revert a; induction HM as [|r M Hr HM IH]; intros [|x a];
    simpl; constructor; auto. apply IH.
Qed.

Lemma rows_of_mask keep n M : rows_of n M -> rows_of n (mask_rows keep n M).
Proof.
  apply rows_of_zipWith. intros j r Hr. destruct (keep j); auto using length_zeros.
Qed.

Lemma length_lincomb n a M : rows_of n M -> length (lincomb n a M) = n.
Proof.
  intros HM. apply length_colsum. apply rows_of_zipWith; auto.
  intros x r Hr. rewrite length_vscale; exact Hr.
Qed.

Lemma length_list_set {A} (l : list A) j v : length (list_set l j v) = length l.
Proof.
  revert j; induction l as [|a l IH]; intros [|j]; simpl; auto.
Qed.

Lemma rows_of_list_set n M j v :
  rows_of n M -> length v = n -> rows_of n (list_set M j v).
Proof.
  intros HM Hv; revert j; induction HM as [|r M Hr HM IH]; intros [|j]; simpl;
    constructor; auto. apply IH.
Qed.

Lemma length_jset {A} (l : list A) i v : length (jset l i v) = length l.
Proof. unfold jset. destruct (in_bounds _ _); auto using length_list_set. Qed.

Lemma rows_of_jset n M i v :
  rows_of n M -> length v = n -> rows_of n (jset M i v).
Proof.
  intros HM Hv. unfold jset. destruct (in_bounds _ _);
    auto using rows_of_list_set.
Qed.

Lemma rows_of_nth n M j : rows_of n M -> (j < length M)%nat ->
  length (nth j M []) = n.
Proof.
  intros HM Hj. unfold rows_of in HM. rewrite Forall_forall in HM.
  apply HM, nth_In, Hj.
Qed.

Lemma rows_of_jget n M i : rows_of n M -> M <> [] ->
  length (jget [] M i) = n.
Proof.
  intros HM Hne. unfold jget; cbv zeta. apply rows_of_nth; [assumption|].
  unfold matrix, vec in *.
  assert (0 < length M)%nat by (destruct M; [congruence | simpl; lia]).
  lia.
Qed.

Lemma length_jadd M i v : length (jadd M i v) = length M.
Proof. unfold jadd. destruct (in_bounds _ _); auto using length_list_set. Qed.

Lemma rows_of_jadd n M i v :
  rows_of n M -> length v = n -> rows_of n (jadd M i v).
Proof.
  intros HM Hv. unfold jadd. destruct (in_bounds _ _) eqn:E; auto.
  apply rows_of_list_set; auto.
  unfold in_bounds in E. apply andb_prop in E as [E1 E2].
  apply Z.leb_le in E1. apply Z.ltb_lt in E2.
  rewrite length_vadd, Hv, (rows_of_nth n M) by (auto; lia). lia.
Qed.

Lemma difference_loop_shape n k M :
  rows_of n M -> M <> [] ->
  rows_of n (difference_loop k M) /\ length (difference_loop k M) = length M.
Proof.
  revert M; induction k as [|k IH]; intros M HM Hne; simpl; auto.
  assert (Hne' : jadd M (Z.of_nat k) (jget [] M (Z.of_nat k + 1)) <> []).
  { intros E. apply (f_equal (@length _)) in E. rewrite length_jadd in E.
    destruct M; [congruence | discriminate]. }
  destruct (IH (jadd M (Z.of_nat k) (jget [] M (Z.of_nat k + 1)))) as [H1 H2];
    auto.
  - apply rows_of_jadd; auto using rows_of_jget.
  - split; [exact H1|]. rewrite H2. apply length_jadd.
Qed.

Lemma rows6 n (D : matrix) :
  length D = 6%nat -> rows_of n D ->
  exists r0 r1 r2 r3 r4 r5,
    D = [r0; r1; r2; r3; r4; r5]
    /\ length r0 = n /\ length r1 = n /\ length r2 = n
    /\ length r3 = n /\ length r4 = n /\ length r5 = n.
Proof.
  intros HL HR.
  destruct D as [|r0 [|r1 [|r2 [|r3 [|r4 [|r5 [|]]]]]]]; try discriminate.
  exists r0, r1, r2, r3, r4, r5.
  repeat match goal with
         | H : rows_of _ (_ :: _) |- _ => inversion H; subst; clear H
         | H : Forall _ (_ :: _) |- _ => inversion H; subst; clear H
         end.
  repeat split; assumption.
Qed.

(** Row 0 after the update, while row [order + 1] exists. *)
Lemma update_row0 n (D : matrix) (d v : vec) (order : Z) :
  length D = 6%nat -> rows_of n D -> length d = n -> (0 <= order <= 4)%Z ->
  jget [] (difference_loop (Z.to_nat (order + 1))
             (jset (jset D (order + 2) v) (order + 1) d)) 0
  = vadd (colsum n (mask_rows (fun j => (j <=? order)%Z) n D)) d.
Proof.
  intros HL HR Hd Ho.
  destruct (rows6 n D HL HR)
    as (r0 & r1 & r2 & r3 & r4 & r5 & -> & H0 & H1 & H2 & H3 & H4 & H5).
  assert (Hc : (order = 0 \/ order = 1 \/ order = 2 \/ order = 3
                \/ order = 4)%Z) by lia.
  destruct Hc as [-> | [-> | [-> | [-> | ->]]]];
    unfold jget, jset, jadd, in_bounds, norm_index, mask_rows, colsum;
    simpl;
    rewrite !vadd_zeros_r by (rewrite ?length_zeros; lia);
    rewrite ?vadd_assoc; reflexivity.
Qed.

Lemma D_update_step_size {LUt} (lu_factor : matrix -> LUt) st factor b :
  s_D (_update_step_size lu_factor st factor b)
  = matmul_T (Z.to_nat (MAX_ORDER + 1)) (length (s_y st))
             (masked_RU (s_order st) factor (jget [] (s_U st) 0)) (s_D st).
Proof. unfold _update_step_size; destruct b; reflexivity. Qed.

Lemma masked_RU_column0 order factor :
  column 0 (masked_RU order factor (compute_R 0 1)) = [1; 0; 0; 0; 0; 0].
Proof.
  unfold masked_RU, compute_R, matmul, lincomb, colsum, column.
  unfold vadd, vmul, vscale, zeros. simpl.
  list_eq;
    match goal with
    | |- (if ?c then _ else _) = _ => destruct c
    end; try reflexivity; unfold Rdiv; ring.
Qed.

Lemma jget_0_cons {A} (d x : A) l : jget d (x :: l) 0 = x.
Proof.
  unfold jget, norm_index. cbn [Z.ltb Z.compare length].
  replace (Z.to_nat _) with 0%nat by lia. reflexivity.
Qed.

Lemma vadd_times_zero' a b c :
  c = 0 -> (length a <= length b)%nat -> vadd a (map (fun x => x * c) b) = a.
Proof. intros ->. apply vadd_times_zero. Qed.

Lemma rescale_row0 n order factor (D : matrix) :
  length D = 6%nat -> rows_of n D ->
  jget [] (matmul_T (Z.to_nat (MAX_ORDER + 1)) n
             (masked_RU order factor (compute_R 0 1)) D) 0
  = jget [] D 0.
Proof.
  intros HL HR.
  destruct (rows6 n D HL HR)
    as (r0 & r1 & r2 & r3 & r4 & r5 & -> & H0 & H1 & H2 & H3 & H4 & H5).
  unfold matmul_T. change (Z.to_nat (MAX_ORDER + 1)) with 6%nat.
  cbn [seq map]. rewrite !jget_0_cons. rewrite masked_RU_column0.
  unfold lincomb, colsum; simpl.
  rewrite (vscale_one 1 r0) by reflexivity.
  rewrite !(vscale_zero 0) by reflexivity.
  rewrite H1, H2, H3, H4, H5.
  rewrite !vadd_zeros_r by (rewrite ?length_zeros; lia). reflexivity.
Qed.

Lemma rows_of_matmul_T m n A (D : matrix) :
  rows_of n D ->
  rows_of n (matmul_T m n A D) /\ length (matmul_T m n A D) = m.
Proof.
  intros HR. unfold matmul_T. split.
  - apply Forall_forall. intros r Hr. apply in_map_iff in Hr as (i & <- & _).
    apply length_lincomb, HR.
  - rewrite length_map, length_seq. reflexivity.
Qed.

Section InterpolationLoop.
Context {LUt : Type}.
Implicit Type st : state LUt.

Lemma interpolate_loop_zero n fuel st t_eval j tf acc :
  rows_of n (s_D st) -> s_D st <> [] -> length acc = n -> tf = 0 ->
  interpolate_loop fuel st t_eval j tf acc = acc.
Proof.
  intros HR Hne. revert j tf acc.
  induction fuel as [|fuel IH]; intros j tf acc Ha Htf; simpl; auto.
  subst tf. rewrite IH.
  - apply vadd_times_zero'.
    + apply Rmult_0_l.
    + rewrite Ha, (rows_of_jget n); auto.
  - rewrite length_vadd, length_map, Ha, (rows_of_jget n); auto. lia.
  - apply Rmult_0_l.
Qed.
End InterpolationLoop.

Section Interpolation.
Context {LUt : Type}.
Variable fun_ : R -> vec -> vec.
Variable jac : R -> vec -> matrix.
Variable lu_factor : matrix -> LUt.
Variable lu_solve : LUt -> vec -> vec.
Hypothesis fun_length : forall t y, length (fun_ t y) = length y.
Hypothesis lu_solve_length : forall LU b, length (lu_solve LU b) = length b.
Implicit Type st : state LUt.

Lemma interpolate_at_step_time n st :
  rows_of n (s_D st) -> s_D st <> [] ->
  _bdf_interpolate st (s_t st) = jget [] (s_D st) 0.
Proof.
  intros HR Hne. unfold _bdf_interpolate.
  destruct (Z.to_nat (s_order st)) as [|fuel]; [reflexivity|].
  cbn [interpolate_loop].
  assert (Hz : 1 * ((s_t st - (s_t st - s_h st * IZR 0))
                    / (s_h st * (1 + IZR 0))) = 0)
    by (unfold Rdiv; ring).
  rewrite (interpolate_loop_zero n); auto.
  - apply vadd_times_zero'; [exact Hz|].
    rewrite !(rows_of_jget n); auto.
  - rewrite length_vadd, length_map, !(rows_of_jget n); auto. lia.
Qed.

Lemma well_shaped_length_y0 st :
  well_shaped st -> length (s_y0 st) = length (s_y st).
Proof.
  intros (HL & HR & Hpsi & Hy0 & HU). rewrite Hy0.
  apply length_colsum, rows_of_mask, HR.
Qed.

(** *** The Newton loop returns [y = y0 + d] *)

Lemma newton_body_sum st ws :
  well_shaped st -> newton_sum st ws ->
  newton_sum st (newton_body fun_ lu_solve st ws).
Proof.
  intros Hw [Hy Hd]. pose proof (well_shaped_length_y0 st Hw) as Hy0.
  destruct Hw as (HL & HR & Hpsi & _ & HU).
  assert (Hdy : length (lu_solve (s_LU st)
                  (vsub (vsub (vscale (s_c st)
                                 (fun_ (s_t st + s_h st) (nw_y ws)))
                              (s_psi st)) (nw_d ws)))
                = length (s_y st)).
  { rewrite lu_solve_length. unfold vsub. rewrite !length_zipWith.
    rewrite length_vscale, fun_length, Hy, length_vadd, Hy0, Hd, Hpsi. lia. }
  unfold newton_sum, newton_body; cbv zeta.
  destruct (newton_converged_pred _ _ _); cbn [nw_y nw_d];
    (split; [reflexivity|]); rewrite length_vadd, Hd, Hdy; lia.
Qed.

Lemma newton_loop_sum fuel st ws :
  well_shaped st -> newton_sum st ws ->
  newton_sum st (newton_loop fun_ lu_solve fuel st ws).
Proof.
  intros Hw. revert ws; induction fuel as [|fuel IH]; intros ws H; simpl;
    auto.
  destruct (newton_cond ws); auto using newton_body_sum.
Qed.

Lemma newton_iteration_sum st nc n_iter y d :
  well_shaped st ->
  _newton_iteration fun_ lu_solve st = (nc, n_iter, y, d) ->
  y = vadd (s_y0 st) d /\ length d = length (s_y st).
Proof.
  intros Hw. unfold _newton_iteration; cbv zeta. intros H.
  pose proof (well_shaped_length_y0 st Hw) as Hy0.
  assert (Hinit : newton_sum st (mkNewton 0 true (-1)
                                   (zeros (length (s_y0 st))) (s_y0 st))).
  { split; cbn [nw_y nw_d].
    - symmetry; apply vadd_zeros_r; lia.
    - rewrite length_zeros; exact Hy0. }
  pose proof (newton_loop_sum (Z.to_nat NEWTON_MAXITER) st _ Hw Hinit)
    as [Hy Hd].
  set (ws := newton_loop _ _ _ _ _) in *.
  assert (y = nw_y ws) by congruence. assert (d = nw_d ws) by congruence.
  subst y d. split; assumption.
Qed.

(** *** The shape is kept *)

Lemma well_shaped_update_jacobian st :
  well_shaped st -> well_shaped (_update_jacobian jac lu_factor st).
Proof. intros H; exact H. Qed.

Lemma well_shaped_refresh st :
  length (s_D st) = Z.to_nat (MAX_ORDER + 1) ->
  rows_of (length (s_y st)) (s_D st) ->
  jget [] (s_U st) 0 = compute_R 0 1 ->
  well_shaped (_predict (_update_psi st)).
Proof.
  intros HL HR HU. unfold well_shaped.
  split; [exact HL|]. split; [exact HR|]. split; [|split; [reflexivity|exact HU]].
  unfold _predict, _update_psi; cbv zeta.
  cbn [s_psi s_y set_psi set_y0 set_scale_y0].
  rewrite length_vscale. apply length_lincomb, rows_of_mask, HR.
Qed.

Lemma well_shaped_update_step_size st factor b :
  well_shaped st -> well_shaped (_update_step_size lu_factor st factor b).
Proof.
  intros (HL & HR & Hpsi & Hy0 & HU).
  destruct (rows_of_matmul_T (Z.to_nat (MAX_ORDER + 1)) (length (s_y st))
              (masked_RU (s_order st) factor (jget [] (s_U st) 0))
              (s_D st) HR) as [HR' HL'].
  unfold _update_step_size; cbv zeta.
  destruct b; apply well_shaped_refresh; cbn; auto.
Qed.
End Interpolation.

Lemma nonempty_of_length {A} (l : list A) n :
  length l = S n -> l <> [].
Proof. destruct l; [discriminate | congruence]. Qed.

Section StepInterpolation.
Context {LUt : Type}.
Variable fun_ : R -> vec -> vec.
Variable jac : R -> vec -> matrix.
Variable lu_factor : matrix -> LUt.
Variable lu_solve : LUt -> vec -> vec.
Hypothesis fun_length : forall t y, length (fun_ t y) = length y.
Hypothesis lu_solve_length : forall LU b, length (lu_solve LU b) = length b.
Implicit Type st : state LUt.

Lemma D_update_difference st d b :
  s_D (_update_difference_for_next_step st d b)
  = difference_loop (Z.to_nat (s_order st + 1))
      (jset (jset (s_D st) (s_order st + 2)
                  (vsub d (jget [] (s_D st) (s_order st + 1))))
            (s_order st + 1) d).
Proof. unfold _update_difference_for_next_step; destruct b; reflexivity. Qed.

Lemma update_difference_shape n (D : matrix) d order :
  length D = 6%nat -> rows_of n D -> length d = n ->
  let D' := difference_loop (Z.to_nat (order + 1))
              (jset (jset D (order + 2) (vsub d (jget [] D (order + 1))))
                    (order + 1) d) in
  length D' = 6%nat /\ rows_of n D'.
Proof.
  intros HL HR Hd; cbv zeta.
  assert (Hne : D <> []) by (eapply nonempty_of_length; eassumption).
  assert (HR1 : rows_of n (jset (jset D (order + 2)
                                   (vsub d (jget [] D (order + 1))))
                                (order + 1) d)).
  { apply rows_of_jset; [|exact Hd]. apply rows_of_jset; [exact HR|].
    unfold vsub. rewrite length_zipWith, Hd, (rows_of_jget n); auto. lia. }
  assert (HL1 : length (jset (jset D (order + 2)
                                (vsub d (jget [] D (order + 1))))
                             (order + 1) d) = 6%nat)
    by (rewrite !length_jset; exact HL).
  destruct (difference_loop_shape n (Z.to_nat (order + 1)) _ HR1) as [H1 H2].
  - eapply nonempty_of_length; eassumption.
  - split; [rewrite H2; exact HL1 | exact H1].
Qed.

Lemma step_body_shape ws :
  well_shaped (sw_state ws) ->
  well_shaped (sw_state (step_body fun_ jac lu_factor lu_solve ws))
  /\ (sw_step_accepted ws = false ->
      sw_step_accepted (step_body fun_ jac lu_factor lu_solve ws) = true ->
      sw_y (step_body fun_ jac lu_factor lu_solve ws)
      = vadd (s_y0 (sw_state (step_body fun_ jac lu_factor lu_solve ws)))
             (sw_d (step_body fun_ jac lu_factor lu_solve ws))
      /\ length (sw_d (step_body fun_ jac lu_factor lu_solve ws))
         = length (s_y (sw_state
                          (step_body fun_ jac lu_factor lu_solve ws)))).
Proof.
  intros Hw. unfold step_body; cbv zeta.
  destruct (_newton_iteration fun_ lu_solve (sw_state ws))
    as [[[nc n_iter] y] d] eqn:Hn.
  apply (newton_iteration_sum fun_ lu_solve fun_length lu_solve_length)
    in Hn; [|exact Hw].
  destruct (nc && sw_not_updated_jacobian ws);
    cbn [sw_state sw_step_accepted sw_y sw_d];
    [split; [exact Hw | congruence]|].
  destruct nc; cbn [sw_state sw_step_accepted sw_y sw_d];
    [split; [apply well_shaped_update_step_size, Hw | congruence]|].
  destruct (Rgtb _ 1); cbn [sw_state sw_step_accepted sw_y sw_d];
    [split; [apply well_shaped_update_step_size, Hw | congruence]|].
  split; [exact Hw | intros _ _; exact Hn].
Qed.

Lemma step_loop_shape fuel ws ws' :
  well_shaped (sw_state ws) -> sw_step_accepted ws = false ->
  step_loop fun_ jac lu_factor lu_solve fuel ws = Some ws' ->
  well_shaped (sw_state ws')
  /\ sw_y ws' = vadd (s_y0 (sw_state ws')) (sw_d ws')
  /\ length (sw_d ws') = length (s_y (sw_state ws')).
Proof.
  revert ws; induction fuel as [|fuel IH]; intros ws Hw Ha; simpl;
    rewrite Ha; simpl; [discriminate|].
  destruct (step_body_shape ws Hw) as [Hw1 Hacc].
  destruct (sw_step_accepted (step_body fun_ jac lu_factor lu_solve ws))
    eqn:Ha1.
  - destruct fuel; simpl; rewrite Ha1; simpl; intros H; injection H as <-;
      (split; [exact Hw1 | apply Hacc; auto]).
  - apply IH; assumption.
Qed.

(** A step taken at an order below [MAX_ORDER] ends in a state whose
    interpolant at the accepted time is the accepted [y]: row 0 of [D] is
    [y0 + d = y] after the update, the rescaling of an order change keeps
    row 0, and the first time factor of the interpolant vanishes.  At order
    [MAX_ORDER] row [order + 1] does not exist and this fails (see the run
    from [st_order5] below). *)
Theorem step_interpolates_accepted_state fuel st st' :
  well_shaped st -> (0 <= s_order st <= MAX_ORDER - 1)%Z ->
  _bdf_step fun_ jac lu_factor lu_solve fuel st = Some st' ->
  _bdf_interpolate st' (s_t st') = s_y st' /\ well_shaped st'.
Proof.
  intros Hw Ho. unfold _bdf_step; cbv zeta.
  destruct (step_loop _ _ _ _ fuel _) as [ws|] eqn:Hloop; [|discriminate].
  pose proof (order_step_loop _ _ _ _ _ _ _ Hloop) as Hord.
  apply step_loop_shape in Hloop; [|exact Hw | reflexivity].
  cbn [sw_state] in Hord.
  destruct Hloop as ((HL & HR & Hpsi & Hy0 & HU) & Hy & Hd).
  set (st1 := sw_state ws) in *. set (y := sw_y ws) in *.
  set (d := sw_d ws) in *.
  assert (Hly : length y = length (s_y st1)).
  { rewrite Hy, length_vadd, Hd, Hy0.
    rewrite length_colsum by (apply rows_of_mask, HR). lia. }
  set (st2 := set_n_equal_steps _ _).
  assert (E2 : s_D st2 = s_D st1 /\ s_order st2 = s_order st1
               /\ s_y st2 = y /\ s_U st2 = s_U st1) by (repeat split).
  destruct E2 as (ED & EO & EY & EU).
  change (Z.to_nat (MAX_ORDER + 1)) with 6%nat in HL.
  rewrite <- Hly in HR, Hd.
  destruct (update_difference_shape (length y) (s_D st1) d (s_order st1)
              HL HR Hd) as [HL' HR'].
  assert (Hrow0 : jget [] (difference_loop (Z.to_nat (s_order st1 + 1))
                     (jset (jset (s_D st1) (s_order st1 + 2)
                                 (vsub d (jget [] (s_D st1)
                                               (s_order st1 + 1))))
                           (s_order st1 + 1) d)) 0 = y).
  { rewrite (update_row0 (length y)); auto.
    - rewrite Hly, <- Hy0. symmetry; exact Hy.
    - unfold MAX_ORDER in Ho. lia. }
  intros H; injection H as <-.
  match goal with |- context [if ?c then _ else _] => destruct c end.
  - (* no_change_in_order *)
    unfold no_change_in_order.
    assert (Hw' : well_shaped (_update_difference_for_next_step st2 d false)).
    { unfold _update_difference_for_next_step; cbv zeta. cbn [negb].
      apply well_shaped_refresh; cbn [s_D s_y s_U set_D];
        rewrite ?ED, ?EO, ?EY, ?EU; auto. }
    split; [|exact Hw'].
    rewrite (interpolate_at_step_time (length y)).
    + rewrite D_update_difference, ED, EO. exact Hrow0.
    + rewrite D_update_difference, ED, EO. exact HR'.
    + rewrite D_update_difference, ED, EO.
      eapply nonempty_of_length; eassumption.
  - (* order_change *)
    unfold order_change; cbv zeta.
    set (st3 := set_order (_update_difference_for_next_step st2 d true) _).
    assert (E3 : s_D st3 = difference_loop (Z.to_nat (s_order st1 + 1))
                     (jset (jset (s_D st1) (s_order st1 + 2)
                                 (vsub d (jget [] (s_D st1)
                                               (s_order st1 + 1))))
                           (s_order st1 + 1) d)
                 /\ s_y st3 = y /\ s_U st3 = s_U st1).
    { unfold st3. cbn [s_D s_y s_U set_order].
      rewrite D_update_difference, ED, EO. repeat split. }
    destruct E3 as (ED3 & EY3 & EU3).
    assert (Hw3 : well_shaped (_update_step_size lu_factor st3
                     (emin_fin MAX_FACTOR
                        (emul (nth (argmax (order_factors st2 d y))
                                   (order_factors st2 d y) PInf)
                              (safety_of (sw_n_iter ws)))) false)).
    { unfold _update_step_size; cbv zeta. cbn [negb].
      destruct (rows_of_matmul_T 6 (length y)
                  (masked_RU (s_order st3)
                     (emin_fin MAX_FACTOR
                        (emul (nth (argmax (order_factors st2 d y))
                                   (order_factors st2 d y) PInf)
                              (safety_of (sw_n_iter ws))))
                     (jget [] (s_U st3) 0)) (s_D st3)) as [HRm HLm];
        [rewrite ED3; exact HR'|].
      apply well_shaped_refresh;
        cbn [s_D s_y s_U set_D set_c set_h set_LU set_n_equal_steps];
        rewrite ?EY3, ?EU3; auto. }
    split; [|exact Hw3].
    destruct Hw3 as (HL4 & HR4 & _).
    rewrite (interpolate_at_step_time _ _ HR4)
      by (eapply nonempty_of_length; exact HL4).
    rewrite D_update_step_size, EY3, EU3, HU, ED3.
    rewrite (rescale_row0 (length y)); auto.
Qed.

(** The state built by [_bdf_init] has this shape, and its order is 1. *)
Lemma init_well_shaped t0 y0 h0 rtol atol :
  well_shaped (_bdf_init fun_ jac lu_factor t0 y0 h0 rtol atol).
Proof.
  unfold _bdf_init; cbv zeta. apply well_shaped_refresh.
  - reflexivity.
  - cbn [s_D s_y]. unfold jset; simpl.
    repeat constructor; auto using length_zeros.
    rewrite length_map. apply fun_length.
  - reflexivity.
Qed.
End StepInterpolation.

(** ** Runs of the scalar test problems *)

(** One round of the Newton loop on a scalar state. *)
Lemma newton_body_scalar f (st : state matrix) k nc old d y p s q m fy dy dn :
  s_y0 st = [p] -> s_scale_y0 st = [s] -> s_psi st = [q] -> s_LU st = [[m]] ->
  f (s_t st + s_h st) [y] = [fy] ->
  dy = (s_c st * fy - q - d) / m ->
  Rabs (dy / s) = dn ->
  -1 <= old ->
  newton_body f diag_solve st (mkNewton k nc old [d] [y]) =
  if newton_converged_pred (s_newton_tol st) dn old
  then mkNewton k false old [d + dy] [p + (d + dy)]
  else mkNewton (k + 1) nc dn [d + dy] [p + (d + dy)].
Proof.
  intros Hp Hs Hq Hm Hf Hdy Hdn Hold. unfold newton_body. simpl.
  rewrite Hp, Hs, Hq, Hm, Hf.
  unfold diag_solve, vsub, vadd, vdiv, vscale. simpl.
  rewrite <- Hdy, rms_single, Hdn.
  rewrite newton_abort_pred_false by assumption.
  reflexivity.
Qed.

Lemma newton_loop_S {LUt} f (lu_solve : LUt -> vec -> vec) n st ws :
  newton_loop f lu_solve (S n) st ws =
  if newton_cond ws
  then newton_loop f lu_solve n st (newton_body f lu_solve st ws)
  else ws.
Proof. reflexivity. Qed.

(** Run one round on a scalar state with the tolerance 3/100: [p], [s], [q]
    and [m] are the entries of [y0], [scale_y0], [psi] and [LU], [fy] the
    value of the right-hand side, [dy] the correction and [dn] its norm. *)
Ltac newton_round p s q m fy dy dn :=
  rewrite newton_loop_S; change (newton_cond _) with true; cbv iota;
  rewrite (newton_body_scalar _ _ _ _ _ _ _ p s q m fy dy dn);
  [ change (s_newton_tol _) with (Fin (3 / 100));
    unfold newton_converged_pred, Rgtb; Rdecide;
    cbn [orb andb ext_ltb emul]; Rdecide; cbn [orb andb Z.add]
  | try reflexivity ..
  | unfold fun_quadratic, fun_ramp; simpl; f_equal; lra
  | simpl; lra
  | first [apply Rabs_eq_pos; lra | apply Rabs_eq_neg; lra]
  | lra ].

(** The hand-written states are consistent: [y0], [scale_y0] and [psi] are
    what [_predict] and [_update_psi] compute from [D], and
    [c = h * alpha[order]]. *)
Lemma st_newton_consistent :
  s_y0 (_predict st_newton) = s_y0 st_newton
  /\ s_scale_y0 (_predict st_newton) = s_scale_y0 st_newton
  /\ s_psi (_update_psi st_newton) = s_psi st_newton
  /\ s_c st_newton
     = s_h st_newton * jget 0 (s_alpha st_newton) (s_order st_newton).
Proof.
  repeat split.
  - simpl. unfold vadd; simpl. f_equal; lra.
  - simpl. unfold vadd, vadds, vscale, vabs; simpl. f_equal.
    match goal with |- context [Rabs ?x] => replace x with 0 by lra end.
    rewrite Rabs_R0; lra.
  - simpl. unfold vadd, vscale, alpha_table, gamma_table, kappa_table, jget;
      simpl.
    f_equal. field.
  - unfold alpha_table, gamma_table, kappa_table, jget; simpl. field.
Qed.

Lemma st_order5_consistent :
  s_y0 (_predict st_order5) = s_y0 st_order5
  /\ s_scale_y0 (_predict st_order5) = s_scale_y0 st_order5
  /\ s_psi (_update_psi st_order5) = s_psi st_order5
  /\ s_c st_order5
     = s_h st_order5 * jget 0 (s_alpha st_order5) (s_order st_order5).
Proof.
  repeat split.
  - simpl. unfold vadd; simpl. f_equal; lra.
  - simpl. unfold vadd, vadds, vscale, vabs; simpl. f_equal.
    match goal with |- context [Rabs ?x] => replace x with 2 by lra end.
    rewrite Rabs_pos_eq; lra.
  - simpl. unfold vadd, vscale, alpha_table, gamma_table, kappa_table, jget;
      simpl.
    f_equal. field.
  - unfold alpha_table, gamma_table, kappa_table, jget; simpl. field.
Qed.

(** dy/dt = 1 + 2 y^2 from [st_newton]: the corrections are 1 and 2. *)
Lemma newton_diverging :
  _newton_iteration (fun_quadratic 2) diag_solve st_newton
  = (false, 2%Z, [3], [3]).
Proof.
  unfold _newton_iteration.
  change (Z.to_nat NEWTON_MAXITER) with 4%nat.
  change (s_y0 st_newton) with [0]. change (zeros (length [0])) with [0].
  newton_round 0 1 0 (1 - 1 * 0) 1 1 1.
  newton_round 0 1 0 (1 - 1 * 0) 3 2 2.
  rewrite newton_loop_S; change (newton_cond _) with false; cbv iota.
  cbn [nw_not_converged nw_k nw_y nw_d].
  replace (0 + (0 + 1 + 2)) with 3 by lra.
  replace (0 + 1 + 2) with 3 by lra.
  reflexivity.
Qed.

(** dy/dt = 1 + y^2 / 4 from [st_newton]: the corrections are 1, 1/4, 9/64
    and 1521/16384. *)
Lemma newton_slow :
  _newton_iteration (fun_quadratic (1 / 4)) diag_solve st_newton
  = (true, 5%Z, [24305 / 16384], [24305 / 16384]).
Proof.
  unfold _newton_iteration.
  change (Z.to_nat NEWTON_MAXITER) with 4%nat.
  change (s_y0 st_newton) with [0]. change (zeros (length [0])) with [0].
  newton_round 0 1 0 (1 - 1 * 0) 1 1 1.
  newton_round 0 1 0 (1 - 1 * 0) (5 / 4) (1 / 4) (1 / 4).
  newton_round 0 1 0 (1 - 1 * 0) (89 / 64) (9 / 64) (9 / 64).
  newton_round 0 1 0 (1 - 1 * 0) (24305 / 16384) (1521 / 16384)
               (1521 / 16384).
  cbn [newton_loop nw_not_converged nw_k nw_y nw_d].
  match goal with |- (_, _, [?a], [?b]) = _ =>
    replace a with (24305 / 16384) by lra;
    replace b with (24305 / 16384) by lra end.
  reflexivity.
Qed.

(** dy/dt = 1 from [st_newton]: the corrections are 1 and 0. *)
Lemma newton_constant :
  _newton_iteration (fun_quadratic 0) diag_solve st_newton
  = (false, 2%Z, [1], [1]).
Proof.
  unfold _newton_iteration.
  change (Z.to_nat NEWTON_MAXITER) with 4%nat.
  change (s_y0 st_newton) with [0]. change (zeros (length [0])) with [0].
  newton_round 0 1 0 (1 - 1 * 0) 1 1 1.
  newton_round 0 1 0 (1 - 1 * 0) 1 0 0.
  rewrite newton_loop_S; change (newton_cond _) with false; cbv iota.
  cbn [nw_not_converged nw_k nw_y nw_d].
  replace (0 + (0 + 1 + 0)) with 1 by lra. replace (0 + 1 + 0) with 1 by lra.
  reflexivity.
Qed.

Lemma step_loop_constant :
  step_loop (fun_quadratic 0) (jac_quadratic 0) diag_factor diag_solve 1
            (mkStep st_newton false true [0] [0] (-1))
  = Some (mkStep st_newton true true [1] [1] 2).
Proof.
  cbn [step_loop sw_step_accepted negb].
  unfold step_body; cbv zeta.
  cbn [sw_state sw_step_accepted sw_not_updated_jacobian].
  rewrite newton_constant. cbn [andb].
  replace (error_norm_of st_newton [1] [1]) with (315 / 2000).
  - unfold Rgtb; Rdecide. reflexivity.
  - unfold error_norm_of, scale_of, vdiv, vscale, vadds, vabs; simpl.
    rewrite rms_single. symmetry.
    unfold error_const_table, gamma_table, kappa_table, vadd, vmul, jget; simpl.
    rewrite (Rabs_pos_eq 1) by lra.
    apply Rabs_eq_pos; [lra|]. field.
Qed.

Lemma bdf_step_constant :
  exists st',
    _bdf_step (fun_quadratic 0) (jac_quadratic 0) diag_factor diag_solve 1
              st_newton = Some st'.
Proof.
  eexists. unfold _bdf_step; cbv zeta.
  change (zeros (length (s_y st_newton))) with [0].
  rewrite step_loop_constant. cbv iota.
  cbn [sw_state sw_y sw_d sw_n_iter]. reflexivity.
Qed.

(** C1 (defect of the code).  For dy/dt = 1 + 2 y^2 the corrections of the
    Newton loop have the norms 1 and 2: rate = 2.  The convergence test asks
    for [rate > 0], not [rate < 1], and the projected error
    [rate / (1 - rate) * dy_norm = -4] is below the tolerance: the loop
    returns [not_converged = False] after this round. *)
Theorem newton_reports_growing_correction_converged :
  _newton_iteration (fun_quadratic 2) diag_solve st_newton
  = (false, 2%Z, [3], [3])
  /\ newton_converged_pred (s_newton_tol st_newton) 2 1 = true
  /\ 1 <= 2 / 1.
Proof.
  split; [exact newton_diverging|]. split; [|lra].
  apply newton_converged_pred_diverging; [lra | lra |].
  apply Rltb_true; lra.
Qed.

(** C2 (defect of the code).  For dy/dt = 1 + y^2 / 4 the third correction
    has the norm 9/64 after 1/4: rate = 9/16, and the projection
    [rate ** 2 / (1 - rate) * dy_norm] = 729/7168 of the error after the
    remaining rounds exceeds the tolerance 3/100.  The abort test is false
    all the same, since it also asks for [dy_norm_old < -1]; the loop runs
    all [NEWTON_MAXITER] rounds and returns [k + 1 = NEWTON_MAXITER + 1]. *)
Theorem newton_runs_to_exhaustion_without_abort :
  _newton_iteration (fun_quadratic (1 / 4)) diag_solve st_newton
  = (true, (NEWTON_MAXITER + 1)%Z, [24305 / 16384], [24305 / 16384])
  /\ 3 / 100
     < (9 / 64 / (1 / 4)) ^ Z.to_nat (NEWTON_MAXITER - 2)
       / (1 - 9 / 64 / (1 / 4)) * (9 / 64)
  /\ newton_abort_pred (s_newton_tol st_newton) 2 (9 / 64) (1 / 4) = false.
Proof.
  split; [exact newton_slow|]. split.
  - change (Z.to_nat (NEWTON_MAXITER - 2)) with 2%nat. simpl. lra.
  - apply newton_abort_pred_false; lra.
Qed.

(** The step from [st_order5] for dy/dt = 1: the Newton loop converges at
    once with [d = 0] to the prediction [y = 2], and the step is accepted. *)
Lemma newton_order5 :
  _newton_iteration (fun_quadratic 0) diag_solve st_order5
  = (false, 1%Z, [2], [0]).
Proof.
  unfold _newton_iteration.
  change (Z.to_nat NEWTON_MAXITER) with 4%nat.
  change (s_y0 st_order5) with [2]. change (zeros (length [2])) with [0].
  newton_round 2 3 1 (1 - 1 * 0) 1 0 0.
  rewrite newton_loop_S; change (newton_cond _) with false; cbv iota.
  cbn [nw_not_converged nw_k nw_y nw_d].
  replace (2 + (0 + 0)) with 2 by lra. replace (0 + 0) with 0 by lra.
  reflexivity.
Qed.

Lemma step_loop_order5 :
  step_loop (fun_quadratic 0) (jac_quadratic 0) diag_factor diag_solve 1
            (mkStep st_order5 false true [0] [0] (-1))
  = Some (mkStep st_order5 true true [2] [0] 1).
Proof.
  cbn [step_loop sw_step_accepted negb].
  unfold step_body; cbv zeta.
  cbn [sw_state sw_step_accepted sw_not_updated_jacobian].
  rewrite newton_order5. cbn [andb].
  replace (error_norm_of st_order5 [2] [0]) with 0.
  - unfold Rgtb; Rdecide. reflexivity.
  - unfold error_norm_of, scale_of, vdiv, vscale, vadds, vabs; simpl.
    rewrite rms_single. symmetry. apply Rabs_eq_pos; [lra|].
    unfold Rdiv; ring.
Qed.

(** The step at order 5, an order the runs from [_bdf_init] do not reach
    (lemma [bdf_step_order_below_max]).  There the update of the difference
    table writes [d] to row 6, which does not exist, and then adds row 6,
    read as row 5, to row 5: row 0 ends as [D[0] + ... + D[4] + 2 D[5]] and
    not as [y = D[0] + ... + D[5] + d].  From [st_order5] the accepted
    state is [y = 2], and interpolating at the accepted time returns 3. *)
Lemma interpolation_at_step_time_order5 :
  exists st',
    _bdf_step (fun_quadratic 0) (jac_quadratic 0) diag_factor diag_solve 1
              st_order5 = Some st'
    /\ s_y st' = [2]
    /\ _bdf_interpolate st' (s_t st') = [3]
    /\ _bdf_interpolate st' (s_t st') <> s_y st'.
Proof.
  eexists. split.
  - unfold _bdf_step; cbv zeta.
    change (zeros (length (s_y st_order5))) with [0].
    rewrite step_loop_order5. cbv iota.
    cbn [sw_state sw_y sw_d sw_n_iter]. reflexivity.
  - assert (H : forall a b : R, a = 3 -> b = 2 -> [a] <> [b])
      by (intros a b -> ->; intros E; injection E; lra).
    split; [reflexivity|].
    unfold _bdf_interpolate. simpl. unfold vadd; simpl.
    split; [f_equal; field | apply H; [field | reflexivity]].
Qed.

(** C8 (defect of the code).  For dy/dt = 1, y(0) = 0 and the guess
    [h0 = 1] the step stored in the state is 100 (the right-hand side does
    not change over the trial step, so the refinement is capped), while row 1
    of [D] is [h0 * f0 = 1] and not [h * f0 = 100]. *)
Theorem init_first_difference_uses_guess :
  let st := _bdf_init (fun_quadratic 0) (jac_quadratic 0) diag_factor
                      0 [0] 1 1 1 in
  s_h st = 100
  /\ jget [] (s_D st) 0 = [0]
  /\ jget [] (s_D st) 1 = [1]
  /\ map (fun x => x * s_h st) (fun_quadratic 0 0 [0]) = [100]
  /\ jget [] (s_D st) 1 <> map (fun x => x * s_h st) (fun_quadratic 0 0 [0]).
Proof.
  cbv zeta.
  assert (Hh : s_h (_bdf_init (fun_quadratic 0) (jac_quadratic 0) diag_factor
                      0 [0] 1 1 1) = 100).
  { rewrite init_h. unfold _select_initial_step; cbv zeta.
    replace (sqrt _) with 0.
    - unfold fpow. destruct (Req_dec_T 0 0) as [_|N]; [|contradiction].
      destruct (Rlt_dec (-1 / IZR (1 + 1)) 0) as [_|N];
        [|exfalso; apply N; simpl; lra].
      simpl. lra.
    - transitivity (sqrt 0); [symmetry; apply sqrt_0 | f_equal].
      unfold mean, vdiv, vsub, vadd, vadds, vscale, vabs, fun_quadratic; simpl.
      rewrite Rabs_R0. field. }
  assert (H1 : jget [] (s_D (_bdf_init (fun_quadratic 0) (jac_quadratic 0)
                               diag_factor 0 [0] 1 1 1)) 1 = [1]).
  { rewrite init_D. unfold jget, fun_quadratic; simpl. f_equal; lra. }
  assert (H2 : map (fun x => x * 100) (fun_quadratic 0 0 [0]) = [100]).
  { unfold fun_quadratic; simpl. f_equal; lra. }
  split; [exact Hh|]. split; [reflexivity|]. split; [exact H1|].
  rewrite Hh, H1, H2. split; [reflexivity|].
  intros E; injection E; lra.
Qed.

(** The state [_bdf_init] builds for dy/dt = -2 t, y(1) = 1 and the step
    guess [-1] of the output times [1, 0]. *)
Lemma init_backward :
  _bdf_init fun_ramp jac_zero diag_factor 1 [1] (-1) 1 1 = st_backward.
Proof.
  unfold _bdf_init, st_backward, scalar_state; cbv zeta.
  unfold _update_psi, _predict, set_psi, set_y0, set_scale_y0; simpl.
  f_equal.
  - unfold _select_initial_step; cbv zeta.
    replace (sqrt _) with 1.
    + unfold fpow. destruct (Req_dec_T 1 0) as [N|_]; [lra|].
      rewrite Rpower_base_1. simpl. unfold Rmin.
      destruct (Rle_dec _ _); lra.
    + transitivity (sqrt 1); [symmetry; apply sqrt_1 | f_equal].
      unfold mean, vdiv, vsub, vadd, vadds, vscale, vabs, fun_ramp; simpl.
      rewrite Rabs_R1. field.
  - rewrite fdiv_fin by lra. unfold fpow.
    destruct (Req_dec_T 1 0) as [N|_]; [lra|].
    rewrite Rpower_base_1. cbn [emin_fin emax]. f_equal.
    pose proof EPS_small.
    rewrite Rmin_left, Rmax_right by lra. reflexivity.
  - unfold fun_ramp, jset, zeros; simpl. list_eq; lra.
  - unfold vadd, fun_ramp, jset, zeros, colsum, mask_rows; simpl. list_eq; lra.
  - unfold vadd, vadds, vscale, vabs, fun_ramp, jset, zeros, colsum, mask_rows;
      simpl. f_equal.
    match goal with |- context [Rabs ?x] => replace x with 3 by lra end.
    rewrite Rabs_pos_eq; lra.
  - unfold alpha_table, gamma_table, kappa_table, jget; simpl. field.
  - unfold diag_factor, msub, mscale, vsub, vscale, alpha_table, gamma_table,
      kappa_table, jget; simpl.
    list_eq; field.
  - unfold vadd, vscale, alpha_table, gamma_table, kappa_table, jget, fun_ramp,
      jset, zeros, lincomb, colsum, mask_rows; simpl.
    list_eq. field.
Qed.

Lemma newton_backward :
  _newton_iteration fun_ramp diag_solve st_backward
  = (false, 2%Z, [3 - 40000 / 237], [- (40000 / 237)]).
Proof.
  unfold _newton_iteration.
  change (Z.to_nat NEWTON_MAXITER) with 4%nat.
  change (s_y0 st_backward) with [3]. change (zeros (length [3])) with [0].
  newton_round 3 4 (400 / 237) (1 - -200 / 237 * 0) 198 (- (40000 / 237))
               (10000 / 237).
  newton_round 3 4 (400 / 237) (1 - -200 / 237 * 0) 198 0 0.
  rewrite newton_loop_S; change (newton_cond _) with false; cbv iota.
  cbn [nw_not_converged nw_k nw_y nw_d].
  match goal with |- (_, _, [?a], [?b]) = _ =>
    replace a with (3 - 40000 / 237) by lra;
    replace b with (- (40000 / 237)) by lra end.
  reflexivity.
Qed.

Lemma step_loop_backward :
  step_loop fun_ramp jac_zero diag_factor diag_solve 1
            (mkStep st_backward false true [0] [0] (-1))
  = Some (mkStep st_backward true true [3 - 40000 / 237] [- (40000 / 237)] 2).
Proof.
  cbn [step_loop sw_step_accepted negb].
  unfold step_body; cbv zeta.
  cbn [sw_state sw_step_accepted sw_not_updated_jacobian].
  rewrite newton_backward. cbn [andb].
  replace (error_norm_of st_backward _ _) with (6300 / 19763).
  - unfold Rgtb; Rdecide. reflexivity.
  - unfold error_norm_of, scale_of, vdiv, vscale, vadds, vabs; simpl.
    rewrite rms_single. symmetry.
    unfold error_const_table, gamma_table, kappa_table, vadd, vmul, jget; simpl.
    rewrite (Rabs_left (3 - 40000 / 237)) by lra.
    apply Rabs_eq_neg; [lra|]. field.
Qed.

(** C7 (counterexample).  The output times [1, 0] are not increasing and
    imply the step guess [-1].  The call is not refused: the solver state
    is built with the step [-100], the loop of [_bdf_odeint] is entered, and
    its first step is accepted and moves the time from 1 to -99. *)
Lemma degenerate_input_is_integrated :
  let t_eval := [1; 0] in
  let ws := init_state fun_ramp jac_zero diag_factor [1] t_eval 1 1 in
  jget 0 t_eval 1 - jget 0 t_eval 0 <= 0
  /\ ~ StronglySorted Rlt t_eval
  /\ cond_fun ws = true
  /\ s_h (ow_stepper ws) = -100
  /\ exists st',
      _bdf_step fun_ramp jac_zero diag_factor diag_solve 1 (ow_stepper ws)
      = Some st'
      /\ s_t st' = -99.
Proof.
  cbv zeta.
  split; [unfold jget; simpl; lra|].
  split.
  { intros Hs. inversion Hs as [|? ? _ Hall]; subst.
    inversion Hall as [|? ? Hlt _]; subst. lra. }
  split; [reflexivity|].
  unfold init_state; cbv zeta. cbn [ow_stepper].
  replace (jget 0 [1; 0] 1 - jget 0 [1; 0] 0) with (-1)
    by (unfold jget; simpl; lra).
  change (jget 0 [1; 0] 0) with 1.
  rewrite init_backward. split; [reflexivity|].
  eexists. split.
  - unfold _bdf_step; cbv zeta.
    change (zeros (length (s_y st_backward))) with [0].
    rewrite step_loop_backward. cbv iota.
    cbn [sw_state sw_y sw_d sw_n_iter]. reflexivity.
  - simpl. lra.
Qed.

Lemma fun_quadratic_length a t y : length (fun_quadratic a t y) = length y.
Proof. apply length_map. Qed.

Lemma diag_solve_length M b : length (diag_solve M b) = length b.
Proof.
  unfold diag_solve. rewrite length_zipWith, length_seq. apply Nat.min_id.
Qed.

Lemma st_newton_well_shaped : well_shaped st_newton.
Proof.
  destruct st_newton_consistent as (Hy0 & _ & _ & _).
  repeat split.
  - repeat constructor.
  - symmetry; exact Hy0.
Qed.

(** The step from [st_newton] (order 1) for dy/dt = 1: interpolating at the
    accepted time returns the accepted state. *)
Lemma step_interpolates_accepted_state_constant :
  exists st',
    _bdf_step (fun_quadratic 0) (jac_quadratic 0) diag_factor diag_solve 1
              st_newton = Some st'
    /\ _bdf_interpolate st' (s_t st') = s_y st'.
Proof.
  destruct bdf_step_constant as [st' H]. exists st'. split; [exact H|].
  apply (step_interpolates_accepted_state (fun_quadratic 0) (jac_quadratic 0)
           diag_factor diag_solve (fun_quadratic_length 0) diag_solve_length
           1 st_newton st' st_newton_well_shaped); [|exact H].
  unfold MAX_ORDER; simpl; lia.
Qed.

(** ** The run from [st_reject] *)

(** dy/dt = 1 from [st_reject]: the corrections are 10 and 0. *)
Lemma newton_reject :
  _newton_iteration (fun_quadratic 0) diag_solve st_reject
  = (false, 2%Z, [0], [10]).
Proof.
  unfold _newton_iteration.
  change (Z.to_nat NEWTON_MAXITER) with 4%nat.
  change (s_y0 st_reject) with [-10]. change (zeros (length [-10])) with [0].
  newton_round (-10) 11 (- (2000 / 237)) (1 - 370 / 237 * 0) 1 10 (10 / 11).
  newton_round (-10) 11 (- (2000 / 237)) (1 - 370 / 237 * 0) 1 0 0.
  rewrite newton_loop_S; change (newton_cond _) with false; cbv iota.
  cbn [nw_not_converged nw_k nw_y nw_d].
  match goal with |- (_, _, [?a], [?b]) = _ =>
    replace a with 0 by lra; replace b with 10 by lra end.
  reflexivity.
Qed.

Lemma error_norm_reject : error_norm_of st_reject [0] [10] = 63 / 20.
Proof.
  unfold error_norm_of, scale_of, vdiv, vscale, vadds, vabs; simpl.
  rewrite rms_single.
  unfold error_const_table, gamma_table, kappa_table, vadd, vmul, jget; simpl.
  rewrite Rabs_R0. apply Rabs_eq_pos; [lra|]. field.
Qed.

Lemma st_reject_consistent :
  s_y0 (_predict st_reject) = s_y0 st_reject
  /\ s_scale_y0 (_predict st_reject) = s_scale_y0 st_reject
  /\ s_psi (_update_psi st_reject) = s_psi st_reject
  /\ s_c st_reject
     = s_h st_reject * jget 0 (s_alpha st_reject) (s_order st_reject).
Proof.
  repeat split.
  - simpl. unfold vadd; simpl. f_equal; lra.
  - simpl. unfold vadd, vadds, vscale, vabs; simpl. f_equal.
    match goal with |- context [Rabs ?x] => replace x with (- (10)) by lra end.
    rewrite Rabs_Ropp, Rabs_pos_eq; lra.
  - simpl. unfold vadd, vscale, alpha_table, gamma_table, kappa_table, jget;
      simpl.
    f_equal. field.
  - unfold alpha_table, gamma_table, kappa_table, jget; simpl. field.
Qed.

(** The round from [st_reject] rejects the step for its error norm. *)
Lemma step_body_reject :
  step_body (fun_quadratic 0) (jac_quadratic 0) diag_factor diag_solve
            (mkStep st_reject false true [0] [0] (-1))
  = mkStep (_update_step_size diag_factor st_reject
              (shrink_factor st_reject 2 (63 / 20)) false)
           false true [0] [10] 2.
Proof.
  unfold step_body; cbv zeta.
  cbn [sw_state sw_step_accepted sw_not_updated_jacobian].
  rewrite newton_reject. cbn [andb]. rewrite error_norm_reject.
  unfold Rgtb; Rdecide. reflexivity.
Qed.

(** ** The theorems at concrete inputs *)

(** The step from [st_newton] for dy/dt = 1 ends at an order in range. *)
Lemma bdf_step_order_in_range_witness :
  exists st',
    _bdf_step (fun_quadratic 0) (jac_quadratic 0) diag_factor diag_solve 1
              st_newton = Some st'
    /\ (1 <= s_order st' <= MAX_ORDER)%Z.
Proof.
  destruct bdf_step_constant as [st' H]. exists st'. split; [exact H|].
  apply (bdf_step_order_in_range (fun_quadratic 0) (jac_quadratic 0)
           diag_factor diag_solve 1 st_newton st'); [|exact H].
  unfold MAX_ORDER; simpl; lia.
Defined.

(** The two rejections.  From [st_newton] with a refreshed Jacobian, the
    Newton loop fails for dy/dt = 1 + y^2 / 4 and the step is cut to 3/10.
    From [st_reject] the Newton loop converges for dy/dt = 1 with the error
    norm 63/20, and the step is cut by the factor of the error. *)
Lemma rejection_shrinks_step_witness :
  let round1 :=
    step_body (fun_quadratic (1 / 4)) (jac_quadratic (1 / 4)) diag_factor
              diag_solve (mkStep st_newton false false [0] [0] (-1)) in
  let round2 :=
    step_body (fun_quadratic 0) (jac_quadratic 0) diag_factor diag_solve
              (mkStep st_reject false true [0] [0] (-1)) in
  (s_h (sw_state round1) = s_h st_newton * (3 / 10)
   /\ Rabs (s_h (sw_state round1)) < Rabs (s_h st_newton))
  /\ (s_h (sw_state round2)
      = s_h st_reject
        * Rmax MIN_FACTOR
               (9 / 10 * IZR (2 * NEWTON_MAXITER + 1)
                / IZR (2 * NEWTON_MAXITER + 2)
                * Rpower (error_norm_of st_reject [0] [10])
                         (-1 / IZR (1 + 1)))
      /\ Rabs (s_h (sw_state round2)) < Rabs (s_h st_reject)).
Proof.
  cbv zeta. split.
  - destruct (rejection_shrinks_step (fun_quadratic (1 / 4))
                (jac_quadratic (1 / 4)) diag_factor diag_solve
                (mkStep st_newton false false [0] [0] (-1)))
      as (nc & n_iter & y & d & Hn & _ & _ & Hh & Hab).
    + simpl; lia.
    + unfold step_body; cbv zeta.
      cbn [sw_state sw_step_accepted sw_not_updated_jacobian].
      rewrite newton_slow. reflexivity.
    + unfold step_body; cbv zeta.
      cbn [sw_state sw_step_accepted sw_not_updated_jacobian].
      rewrite newton_slow. reflexivity.
    + cbn [sw_state] in Hn, Hh, Hab. rewrite newton_slow in Hn.
      injection Hn as <- <- <- <-.
      split; [exact Hh | apply Hab; simpl; lra].
  - destruct (rejection_shrinks_step (fun_quadratic 0) (jac_quadratic 0)
                diag_factor diag_solve
                (mkStep st_reject false true [0] [0] (-1)))
      as (nc & n_iter & y & d & Hn & _ & _ & Hh & Hab).
    + simpl; lia.
    + rewrite step_body_reject. reflexivity.
    + rewrite step_body_reject. reflexivity.
    + cbn [sw_state] in Hn, Hh, Hab. rewrite newton_reject in Hn.
      injection Hn as <- <- <- <-.
      split; [exact Hh | apply Hab; simpl; lra].
Defined.

(** Output times [0, 1, 2] and a state at time 0: nothing is pending before
    0, and the loop goes on. *)
Lemma driver_fills_pending_outputs_witness :
  cond_fun (fill_outputs st_newton [0; 1; 2] 0 [[0; 0; 0]]) = false
  <-> last [0; 1; 2] 0 < s_t st_newton.
Proof.
  apply (driver_fills_pending_outputs st_newton [0; 1; 2] 0 [[0; 0; 0]]).
  - repeat constructor; lra.
  - simpl; lia.
Defined.

(** * Further properties of the solver *)

(** ** Entries of vector expressions *)

Lemma nth_zipWith_zero (f : R -> R -> R) i a b :
  length a = length b -> f 0 0 = 0 ->
  nth i (zipWith f a b) 0 = f (nth i a 0) (nth i b 0).
Proof.
  intros Hl Hf. revert i b Hl.
  induction a as [|x a IH]; intros i [|y b] Hl; try discriminate.
  - destruct i; simpl; symmetry; exact Hf.
  - destruct i; simpl; [reflexivity|]. apply IH. simpl in Hl; lia.
Qed.

Lemma nth_vadd n i a b :
  length a = n -> length b = n ->
  nth i (vadd a b) 0 = nth i a 0 + nth i b 0.
Proof.
  intros Ha Hb. apply nth_zipWith_zero; [congruence | lra].
Qed.

Lemma nth_vsub n i a b :
  length a = n -> length b = n ->
  nth i (vsub a b) 0 = nth i a 0 - nth i b 0.
Proof.
  intros Ha Hb. apply nth_zipWith_zero; [congruence | lra].
Qed.

Lemma nth_vscale i c v : nth i (vscale c v) 0 = c * nth i v 0.
Proof.
  unfold vscale. revert i. induction v as [|x v IH]; intros [|i]; simpl;
    try lra. apply IH.
Qed.

Lemma nth_map_times i c v :
  nth i (map (fun x => x * c) v) 0 = nth i v 0 * c.
Proof.
  revert i. induction v as [|x v IH]; intros [|i]; simpl; try lra. apply IH.
Qed.

Lemma nth_zeros i n : nth i (zeros n) 0 = 0.
Proof.
  unfold zeros. revert i. induction n; intros [|i]; simpl; try reflexivity.
  apply IHn.
Qed.

Lemma length_vadd_n n a b :
  length a = n -> length b = n -> length (vadd a b) = n.
Proof. intros Ha Hb. rewrite length_vadd, Ha, Hb. apply Nat.min_id. Qed.

Lemma length_vsub_n n a b :
  length a = n -> length b = n -> length (vsub a b) = n.
Proof.
  intros Ha Hb. unfold vsub. rewrite length_zipWith, Ha, Hb. apply Nat.min_id.
Qed.

Lemma length_vscale_n n c v : length v = n -> length (vscale c v) = n.
Proof. intros H. rewrite length_vscale. exact H. Qed.

Lemma length_map_times_n n c (v : vec) :
  length v = n -> length (map (fun x => x * c) v) = n.
Proof. intros H. rewrite length_map. exact H. Qed.

(** The length of an expression over vectors of length [n]. *)
Ltac len_n :=
  repeat first
    [ assumption
    | apply length_zeros
    | apply length_vadd_n
    | apply length_vsub_n
    | apply length_vscale_n
    | apply length_map_times_n ].

(** The entry [i] of an expression over vectors of length [n]. *)
Ltac nth_push n :=
  repeat first
    [ rewrite (nth_vadd n) by len_n
    | rewrite (nth_vsub n) by len_n
    | rewrite nth_vscale
    | rewrite nth_map_times
    | rewrite nth_zeros ].

(** Prove an equation between such expressions entry by entry; what is left
    is an equation between reals. *)
Ltac vec_ext n i :=
  apply nth_ext with (d := 0) (d' := 0);
  [ transitivity n; [|symmetry]; len_n
  | intros i _; nth_push n ].

(** Name the coefficients of the rows in a linear combination. *)
Ltac name_coefficients :=
  repeat match goal with |- context [map (Rmult ?c) ?v] =>
    change (map (Rmult c) v) with (vscale c v) end;
  repeat match goal with |- context [vscale ?c ?v] =>
    assert_fails (is_var c);
    lazymatch c with 0 => fail | 1 => fail | _ => idtac end;
    let x := fresh "c" in set (x := c) end.

Ltac unname_coefficients :=
  repeat match goal with x := _ : R |- _ => subst x end.

(** ** The interpolant and a change of the step size *)

Lemma interpolate_loop_congr {LUt} fuel (st1 st2 : state LUt) t j tf acc :
  s_t st1 = s_t st2 -> s_h st1 = s_h st2 -> s_D st1 = s_D st2 ->
  interpolate_loop fuel st1 t j tf acc = interpolate_loop fuel st2 t j tf acc.
Proof.
  intros Ht Hh HD. revert j tf acc.
  induction fuel as [|f IH]; intros j tf acc; [reflexivity|].
  cbn [interpolate_loop]. rewrite Ht, Hh, HD. apply IH.
Qed.

(** Evaluate the loop counts [Z.to_nat k] of a goal. *)
Ltac eval_to_nat :=
  repeat match goal with |- context [Z.to_nat ?k] =>
    let m := eval compute in (Z.to_nat k) in change (Z.to_nat k) with m end.

(** Unfold the rescaled table of order [k] to linear combinations of the
    rows, and the two interpolation loops to sums. *)
Ltac rescale_case n i Hh Hf :=
  unfold masked_RU, compute_R, matmul, matmul_T, lincomb, colsum, column;
  unfold cumprod, jget; simpl; unfold vmul; simpl;
  fold vadd; fold (zeros n);
  name_coefficients;
  vec_ext n i;
  unname_coefficients;
  field; split; assumption.

Lemma rescale_interpolant_rows {LUt} n k (r0 r1 r2 r3 r4 r5 : vec) f t h tt
      (st1 st2 : state LUt) :
  length r0 = n -> length r1 = n -> length r2 = n -> length r3 = n ->
  length r4 = n -> length r5 = n -> h <> 0 -> f <> 0 -> (0 <= k <= 5)%Z ->
  s_t st2 = t -> s_h st2 = h -> s_D st2 = [r0; r1; r2; r3; r4; r5] ->
  s_t st1 = t -> s_h st1 = h * f ->
  s_D st1 = matmul_T 6 n (masked_RU k f (compute_R 0 1))
                     [r0; r1; r2; r3; r4; r5] ->
  interpolate_loop (Z.to_nat k) st1 tt 0 1 (jget [] (s_D st1) 0)
  = interpolate_loop (Z.to_nat k) st2 tt 0 1 r0.
Proof.
  intros H0 H1 H2 H3 H4 H5 Hh Hf Hk Ht2 Hh2 HD2 Ht1 Hh1 HD1.
  assert (Hc : (k = 0 \/ k = 1 \/ k = 2 \/ k = 3 \/ k = 4 \/ k = 5)%Z) by lia.
  destruct Hc as [-> | [-> | [-> | [-> | [-> | ->]]]]];
    eval_to_nat; cbn [interpolate_loop];
    rewrite ?Ht1, ?Hh1, ?HD1, ?Ht2, ?Hh2, ?HD2;
    rescale_case n i Hh Hf.
Qed.

Lemma t_update_step_size {LUt} (lu_factor : matrix -> LUt) st factor b :
  s_t (_update_step_size lu_factor st factor b) = s_t st.
Proof. unfold _update_step_size; destruct b; reflexivity. Qed.

Lemma y_update_step_size {LUt} (lu_factor : matrix -> LUt) st factor b :
  s_y (_update_step_size lu_factor st factor b) = s_y st.
Proof. unfold _update_step_size; destruct b; reflexivity. Qed.

(** The rescaled table describes the polynomial it described before. *)
Lemma update_step_size_interpolate {LUt} (lu_factor : matrix -> LUt) st factor
      b tt :
  length (s_D st) = 6%nat -> rows_of (length (s_y st)) (s_D st) ->
  jget [] (s_U st) 0 = compute_R 0 1 ->
  (0 <= s_order st <= 5)%Z -> s_h st <> 0 -> factor <> 0 ->
  _bdf_interpolate (_update_step_size lu_factor st factor b) tt
  = _bdf_interpolate st tt.
Proof.
  intros HL HR HU Hk Hh Hf.
  destruct (rows6 _ _ HL HR)
    as (r0 & r1 & r2 & r3 & r4 & r5 & HD & H0 & H1 & H2 & H3 & H4 & H5).
  assert (HD1 : s_D (_update_step_size lu_factor st factor b)
                = matmul_T 6 (length (s_y st))
                    (masked_RU (s_order st) factor (compute_R 0 1))
                    [r0; r1; r2; r3; r4; r5])
    by (rewrite D_update_step_size, HU, HD; reflexivity).
  unfold _bdf_interpolate at 1 2. rewrite (order_update_step_size lu_factor).
  rewrite (rescale_interpolant_rows (length (s_y st)) (s_order st)
             r0 r1 r2 r3 r4 r5 factor (s_t st) (s_h st) tt
             (_update_step_size lu_factor st factor b) st
             H0 H1 H2 H3 H4 H5 Hh Hf Hk eq_refl eq_refl HD
             (t_update_step_size lu_factor st factor b)
             (h_update_step_size lu_factor st factor b) HD1).
  rewrite HD, jget_0_cons. reflexivity.
Qed.

(** The prediction is the interpolant one step ahead: every time factor of
    the loop is 1 at [t + h]. *)
Lemma interpolate_at_next_time {LUt} (st : state LUt) :
  length (s_D st) = 6%nat -> rows_of (length (s_y st)) (s_D st) ->
  (0 <= s_order st <= 5)%Z -> s_h st <> 0 ->
  _bdf_interpolate st (s_t st + s_h st) = s_y0 (_predict st).
Proof.
  intros HL HR Hk Hh.
  destruct (rows6 _ _ HL HR)
    as (r0 & r1 & r2 & r3 & r4 & r5 & HD & H0 & H1 & H2 & H3 & H4 & H5).
  unfold _bdf_interpolate, _predict; cbv zeta.
  cbn [s_y0 set_y0 set_scale_y0 s_D s_order s_y].
  set (n := length (s_y st)) in *. set (h := s_h st) in *.
  set (t := s_t st) in *.
  assert (Hc : (s_order st = 0 \/ s_order st = 1 \/ s_order st = 2
                \/ s_order st = 3 \/ s_order st = 4 \/ s_order st = 5)%Z)
    by lia.
  destruct Hc as [-> | [-> | [-> | [-> | [-> | ->]]]]];
    eval_to_nat; cbn [interpolate_loop]; fold h; fold t; rewrite HD;
    unfold mask_rows, colsum, jget; simpl; fold vadd; fold (zeros n);
    vec_ext n i; field; assumption.
Qed.

(** A change by the factor 1 leaves the table as it is. *)
Lemma update_step_size_one {LUt} (lu_factor : matrix -> LUt) st b :
  length (s_D st) = 6%nat -> rows_of (length (s_y st)) (s_D st) ->
  jget [] (s_U st) 0 = compute_R 0 1 ->
  (0 <= s_order st <= 5)%Z ->
  s_D (_update_step_size lu_factor st 1 b) = s_D st.
Proof.
  intros HL HR HU Hk.
  destruct (rows6 _ _ HL HR)
    as (r0 & r1 & r2 & r3 & r4 & r5 & HD & H0 & H1 & H2 & H3 & H4 & H5).
  rewrite D_update_step_size, HU, HD.
  set (n := length (s_y st)) in *.
  assert (Hc : (s_order st = 0 \/ s_order st = 1 \/ s_order st = 2
                \/ s_order st = 3 \/ s_order st = 4 \/ s_order st = 5)%Z)
    by lia.
  destruct Hc as [-> | [-> | [-> | [-> | [-> | ->]]]]];
    unfold masked_RU, compute_R, matmul, matmul_T, lincomb, colsum, column;
    unfold cumprod; simpl; unfold vmul; simpl;
    fold vadd; fold (zeros n);
    name_coefficients;
    list_eq; vec_ext n i; unname_coefficients; field.
Qed.

(** ** The update of the difference table *)

(** The rows after the update, while row [order + 1] exists. *)
Lemma update_difference_rows n (D : matrix) (d : vec) (order : Z) :
  length D = 6%nat -> rows_of n D -> length d = n -> (0 <= order <= 4)%Z ->
  let D' := difference_loop (Z.to_nat (order + 1))
              (jset (jset D (order + 2) (vsub d (jget [] D (order + 1))))
                    (order + 1) d) in
  jget [] D' (order + 1) = d
  /\ (forall j, (0 <= j <= order)%Z ->
                jget [] D' j = vadd (jget [] D j) (jget [] D' (j + 1)))
  /\ (forall j, (order + 2 < j <= 5)%Z -> jget [] D' j = jget [] D j)
  /\ ((order <= 3)%Z ->
      jget [] D' (order + 2) = vsub d (jget [] D (order + 1))).
Proof.
  intros HL HR Hd Ho.
  destruct (rows6 n D HL HR)
    as (r0 & r1 & r2 & r3 & r4 & r5 & -> & H0 & H1 & H2 & H3 & H4 & H5).
  assert (Hc : (order = 0 \/ order = 1 \/ order = 2 \/ order = 3
                \/ order = 4)%Z) by lia.
  destruct Hc as [-> | [-> | [-> | [-> | ->]]]]; cbv zeta;
    (split; [reflexivity|]); (split; [|split]).
  all: try (intros j Hj;
            assert (Hj' : (j = 0 \/ j = 1 \/ j = 2 \/ j = 3 \/ j = 4
                           \/ j = 5)%Z) by lia;
            destruct Hj' as [-> | [-> | [-> | [-> | [-> | ->]]]]];
            try lia; reflexivity).
  all: try (intros _; reflexivity).
  all: intros; lia.
Qed.

(** ** The retry loop of a step *)

Section StepRounds.
Context {LUt : Type}.
Variable fun_ : R -> vec -> vec.
Variable jac : R -> vec -> matrix.
Variable lu_factor : matrix -> LUt.
Variable lu_solve : LUt -> vec -> vec.
Implicit Type st : state LUt.

Abbreviation round := (step_body fun_ jac lu_factor lu_solve).
Abbreviation rounds := (step_loop fun_ jac lu_factor lu_solve).
Abbreviation newton := (_newton_iteration fun_ lu_solve).

(** The four ways a round of the loop ends: the Jacobian is refreshed, the
    step is cut to 3/10 after a failed Newton iteration, the step is cut
    after an error norm above 1, or the step is accepted. *)
Lemma step_body_cases ws :
  exists nc n_iter y d,
    newton (sw_state ws) = (nc, n_iter, y, d)
    /\ sw_y (round ws) = y /\ sw_d (round ws) = d
    /\ sw_n_iter (round ws) = n_iter
    /\ ((nc = true /\ sw_not_updated_jacobian ws = true
         /\ sw_state (round ws) = _update_jacobian jac lu_factor (sw_state ws)
         /\ sw_not_updated_jacobian (round ws) = false
         /\ sw_step_accepted (round ws) = sw_step_accepted ws)
        \/ (nc = true /\ sw_not_updated_jacobian ws = false
            /\ sw_state (round ws)
               = _update_step_size lu_factor (sw_state ws) (3 / 10) false
            /\ sw_not_updated_jacobian (round ws) = false
            /\ sw_step_accepted (round ws) = sw_step_accepted ws)
        \/ (nc = false /\ 1 < error_norm_of (sw_state ws) y d
            /\ sw_state (round ws)
               = _update_step_size lu_factor (sw_state ws)
                   (shrink_factor (sw_state ws) n_iter
                      (error_norm_of (sw_state ws) y d)) false
            /\ sw_not_updated_jacobian (round ws)
               = sw_not_updated_jacobian ws
            /\ sw_step_accepted (round ws) = sw_step_accepted ws)
        \/ (nc = false /\ error_norm_of (sw_state ws) y d <= 1
            /\ sw_state (round ws) = sw_state ws
            /\ sw_not_updated_jacobian (round ws)
               = sw_not_updated_jacobian ws
            /\ sw_step_accepted (round ws) = true)).
Proof.
  unfold step_body; cbv zeta.
  destruct (newton (sw_state ws)) as [[[nc n_iter] y] d] eqn:Hn.
  exists nc, n_iter, y, d. split; [reflexivity|].
  destruct nc; cbn [andb].
  - destruct (sw_not_updated_jacobian ws) eqn:Hj;
      cbn [sw_state sw_step_accepted sw_not_updated_jacobian sw_y sw_d
           sw_n_iter]; repeat (split; [reflexivity|]).
    + left. repeat split.
    + right; left. repeat split.
  - destruct (Rgtb (error_norm_of (sw_state ws) y d) 1) eqn:He;
      cbn [sw_state sw_step_accepted sw_not_updated_jacobian sw_y sw_d
           sw_n_iter]; repeat (split; [reflexivity|]).
    + right; right; left. apply Rgtb_true_inv in He. repeat split; assumption.
    + right; right; right. repeat split.
      unfold Rgtb, Rltb in He.
      destruct (Rlt_dec 1 (error_norm_of (sw_state ws) y d));
        [discriminate | lra].
Qed.

(** A property kept by every round holds when the loop leaves, and the loop
    leaves with an accepted step. *)
Lemma step_loop_invariant (P : step_ws -> Prop) fuel ws ws' :
  (forall w, P w -> sw_step_accepted w = false -> P (round w)) ->
  P ws -> rounds fuel ws = Some ws' ->
  P ws' /\ sw_step_accepted ws' = true.
Proof.
  intros Hstep. revert ws.
  induction fuel as [|fuel IH]; intros ws HP; simpl;
    destruct (sw_step_accepted ws) eqn:Ha; simpl; try discriminate.
  - intros H; injection H as <-. auto.
  - intros H; injection H as <-. auto.
  - intros H. apply (IH (round ws)); auto.
Qed.

(** What the rounds leave alone. *)
Lemma update_step_size_frame st factor b :
  let st' := _update_step_size lu_factor st factor b in
  s_t st' = s_t st /\ s_y st' = s_y st /\ s_order st' = s_order st
  /\ s_atol st' = s_atol st /\ s_rtol st' = s_rtol st
  /\ s_I st' = s_I st /\ s_J st' = s_J st /\ s_U st' = s_U st
  /\ s_alpha st' = s_alpha st /\ s_error_const st' = s_error_const st
  /\ s_newton_tol st' = s_newton_tol st.
Proof. unfold _update_step_size; destruct b; repeat split. Qed.

Lemma step_body_frame ws :
  s_t (sw_state (round ws)) = s_t (sw_state ws)
  /\ s_y (sw_state (round ws)) = s_y (sw_state ws)
  /\ s_order (sw_state (round ws)) = s_order (sw_state ws)
  /\ s_I (sw_state (round ws)) = s_I (sw_state ws).
Proof.
  destruct (step_body_cases ws) as (nc & n_iter & y & d & _ & _ & _ & _ & H).
  destruct H as [(_ & _ & -> & _) | [(_ & _ & -> & _)
                | [(_ & _ & -> & _) | (_ & _ & -> & _)]]];
    try (repeat split; fail);
    destruct (update_step_size_frame (sw_state ws)) with (b := false)
      as (? & ? & ? & ? & ? & ? & _); eauto.
Qed.
End StepRounds.

(** ** The number of Newton iterations *)

Section NewtonCount.
Context {LUt : Type}.
Variable fun_ : R -> vec -> vec.
Variable lu_solve : LUt -> vec -> vec.
Implicit Type st : state LUt.

Lemma newton_body_count st ws :
  newton_count ws -> newton_cond ws = true ->
  newton_count (newton_body fun_ lu_solve st ws).
Proof.
  intros [Hinv Hk] Hc. split; [apply newton_body_inv, Hinv|].
  unfold newton_cond in Hc. apply andb_prop in Hc as [Hnc Hlt].
  apply Z.ltb_lt in Hlt. destruct Hinv as [Hold _].
  destruct (newton_body_cases fun_ lu_solve st ws)
    as [(H1 & _ & H2) | (H1 & _ & H2)];
    rewrite newton_abort_pred_false in H2 by assumption; rewrite H1, H2.
  - right. split; [reflexivity | lia].
  - left. split; [exact Hnc | lia].
Qed.

Lemma newton_loop_count fuel st ws :
  newton_count ws -> newton_count (newton_loop fun_ lu_solve fuel st ws).
Proof.
  revert ws; induction fuel as [|fuel IH]; intros ws H; simpl; auto.
  destruct (newton_cond ws) eqn:Hc; auto using newton_body_count.
Qed.

Lemma newton_loop_k_mono fuel st ws :
  newton_inv ws ->
  (nw_k ws <= nw_k (newton_loop fun_ lu_solve fuel st ws))%Z.
Proof.
  revert ws; induction fuel as [|fuel IH]; intros ws Hinv; simpl; [lia|].
  destruct (newton_cond ws); [|lia].
  specialize (IH _ (newton_body_inv fun_ lu_solve st ws Hinv)).
  destruct Hinv as [Hold _].
  destruct (newton_body_cases fun_ lu_solve st ws)
    as [(_ & _ & H2) | (_ & _ & H2)];
    rewrite newton_abort_pred_false in H2 by assumption; lia.
Qed.

Lemma newton_iteration_count st nc n_iter y d :
  _newton_iteration fun_ lu_solve st = (nc, n_iter, y, d) ->
  (1 <= n_iter <= NEWTON_MAXITER + 1)%Z
  /\ (nc = true <-> n_iter = (NEWTON_MAXITER + 1)%Z).
Proof.
  unfold _newton_iteration; cbv zeta. intros H.
  assert (Hc0 : newton_count
                  (mkNewton 0 true (-1) (zeros (length (s_y0 st))) (s_y0 st))).
  { split; [apply newton_init_inv|]. left; split; [reflexivity|].
    cbn [nw_k]. unfold NEWTON_MAXITER; lia. }
  pose proof (newton_loop_count (Z.to_nat NEWTON_MAXITER) st _ Hc0)
    as [[_ Hk0] Hk].
  pose proof (newton_iteration_terminates fun_ lu_solve st) as Hdone.
  set (ws := newton_loop _ _ _ _ _) in *.
  assert (En : n_iter = (nw_k ws + 1)%Z) by congruence.
  assert (Ec : nc = nw_not_converged ws) by congruence.
  unfold newton_cond in Hdone. subst n_iter nc.
  destruct Hk as [[Hnc Hle] | [Hnc Hle]]; rewrite Hnc in *.
  - cbn [andb] in Hdone. apply Z.ltb_ge in Hdone.
    split; [lia|]. split; intros _; [lia | reflexivity].
  - split; [lia|]. split; [discriminate | lia].
Qed.

Lemma Reqb_true_inv x y : Reqb x y = true -> x = y.
Proof. unfold Reqb; destruct (Req_dec_T x y); [auto | discriminate]. Qed.

(** The first round compares with the norm [-1]: its rate is not positive,
    and it declares convergence only for a correction of norm 0. *)
Lemma newton_converged_pred_first tol dy_norm :
  0 <= dy_norm -> newton_converged_pred tol dy_norm (-1) = Reqb dy_norm 0.
Proof.
  intros H. unfold newton_converged_pred, Rgtb; cbv zeta.
  rewrite Rltb_false; [reflexivity|]. unfold Rdiv.
  replace (/ -1) with (-1); [lra|].
  apply Rmult_eq_reg_l with (-1); [|lra]. rewrite Rinv_r; lra.
Qed.

Lemma newton_single_iteration st nc n_iter y d :
  let dy :=
    lu_solve (s_LU st)
      (vsub (vsub (vscale (s_c st) (fun_ (s_t st + s_h st) (s_y0 st)))
                  (s_psi st))
            (zeros (length (s_y0 st)))) in
  _newton_iteration fun_ lu_solve st = (nc, n_iter, y, d) ->
  (n_iter = 1%Z <-> rms (vdiv dy (s_scale_y0 st)) = 0)
  /\ (n_iter = 1%Z ->
      nc = false /\ d = vadd (zeros (length (s_y0 st))) dy
      /\ y = vadd (s_y0 st) d).
Proof.
  cbv zeta. unfold _newton_iteration; cbv zeta.
  change (Z.to_nat NEWTON_MAXITER) with 4%nat.
  rewrite newton_loop_S. change (newton_cond _) with true. cbv iota.
  set (ws0 := mkNewton 0 true (-1) (zeros (length (s_y0 st))) (s_y0 st)).
  set (dn := rms _).
  assert (Hdn : 0 <= dn) by apply rms_nonneg.
  assert (Hb : newton_body fun_ lu_solve st ws0
               = if Reqb dn 0
                 then mkNewton 0 false (-1)
                        (vadd (zeros (length (s_y0 st)))
                           (lu_solve (s_LU st)
                              (vsub (vsub (vscale (s_c st)
                                             (fun_ (s_t st + s_h st)
                                                (s_y0 st)))
                                          (s_psi st))
                                    (zeros (length (s_y0 st))))))
                        (vadd (s_y0 st)
                           (vadd (zeros (length (s_y0 st)))
                              (lu_solve (s_LU st)
                                 (vsub (vsub (vscale (s_c st)
                                                (fun_ (s_t st + s_h st)
                                                   (s_y0 st)))
                                             (s_psi st))
                                       (zeros (length (s_y0 st)))))))
                 else mkNewton 1 true dn
                        (vadd (zeros (length (s_y0 st)))
                           (lu_solve (s_LU st)
                              (vsub (vsub (vscale (s_c st)
                                             (fun_ (s_t st + s_h st)
                                                (s_y0 st)))
                                          (s_psi st))
                                    (zeros (length (s_y0 st))))))
                        (vadd (s_y0 st)
                           (vadd (zeros (length (s_y0 st)))
                              (lu_solve (s_LU st)
                                 (vsub (vsub (vscale (s_c st)
                                                (fun_ (s_t st + s_h st)
                                                   (s_y0 st)))
                                             (s_psi st))
                                       (zeros (length (s_y0 st)))))))).
  { unfold newton_body; cbv zeta. cbn [nw_k nw_not_converged nw_dy_norm_old
                                        nw_d nw_y ws0].
    fold dn. rewrite newton_abort_pred_false by lra.
    rewrite newton_converged_pred_first by exact Hdn.
    destruct (Reqb dn 0); reflexivity. }
  rewrite Hb. destruct (Reqb dn 0) eqn:E.
  - apply Reqb_true_inv in E.
    rewrite newton_cond_false_loop by reflexivity.
    cbn [nw_k nw_not_converged nw_d nw_y].
    intros H; injection H as <- <- <- <-.
    split; [split; auto|]. intros _. repeat split.
  - assert (Hne : dn <> 0).
    { intros Hz. rewrite Reqb_true in E; [discriminate | exact Hz]. }
    set (w1 := mkNewton 1 true dn _ _).
    assert (Hi : newton_inv w1) by (split; cbn; [lra | lia]).
    pose proof (newton_loop_k_mono 3 st w1 Hi) as Hm.
    set (w := newton_loop _ _ _ _ _) in *.
    intros H.
    assert (Hk : n_iter = (nw_k w + 1)%Z) by congruence.
    cbn [nw_k w1] in Hm.
    split; [split; [lia | contradiction]|]. lia.
Qed.
End NewtonCount.

(** ** A step of the integrator *)

Section StepFacts.
Context {LUt : Type}.
Variable fun_ : R -> vec -> vec.
Variable jac : R -> vec -> matrix.
Variable lu_factor : matrix -> LUt.
Variable lu_solve : LUt -> vec -> vec.
Implicit Type st : state LUt.

Abbreviation round := (step_body fun_ jac lu_factor lu_solve).
Abbreviation rounds := (step_loop fun_ jac lu_factor lu_solve).
Abbreviation newton := (_newton_iteration fun_ lu_solve).
Abbreviation bdf_step := (_bdf_step fun_ jac lu_factor lu_solve).

(** [_bdf_step] is its retry loop followed by the update of [y], [t],
    [n_equal_steps] and of the difference table. *)
Lemma bdf_step_unfold fuel st st' :
  bdf_step fuel st = Some st' ->
  exists ws,
    rounds fuel (mkStep st false true (zeros (length (s_y st)))
                        (zeros (length (s_y st))) (-1)) = Some ws
    /\ st' =
       if (s_n_equal_steps (sw_state ws) + 1 <? s_order (sw_state ws) + 1)%Z
       then no_change_in_order
              (set_n_equal_steps
                 (set_t (set_y (sw_state ws) (sw_y ws))
                        (s_t (sw_state ws) + s_h (sw_state ws)))
                 (s_n_equal_steps (sw_state ws) + 1))
              (sw_d ws)
       else order_change lu_factor
              (set_n_equal_steps
                 (set_t (set_y (sw_state ws) (sw_y ws))
                        (s_t (sw_state ws) + s_h (sw_state ws)))
                 (s_n_equal_steps (sw_state ws) + 1))
              (sw_d ws) (sw_y ws) (sw_n_iter ws).
Proof.
  unfold _bdf_step; cbv zeta.
  destruct (rounds fuel _) as [ws|]; [|discriminate].
  intros H; injection H as <-. exists ws. split; reflexivity.
Qed.

Lemma update_difference_frame st d b :
  let st' := _update_difference_for_next_step st d b in
  s_t st' = s_t st /\ s_y st' = s_y st /\ s_h st' = s_h st
  /\ s_order st' = s_order st /\ s_n_equal_steps st' = s_n_equal_steps st
  /\ s_J st' = s_J st /\ s_LU st' = s_LU st /\ s_c st' = s_c st
  /\ s_I st' = s_I st /\ s_U st' = s_U st.
Proof.
  unfold _update_difference_for_next_step; destruct b; repeat split.
Qed.

Lemma order_change_unfold st d y n_iter :
  order_change lu_factor st d y n_iter
  = _update_step_size lu_factor
      (set_order (_update_difference_for_next_step st d true)
         (s_order st + (Z.of_nat (argmax (order_factors st d y)) - 1)))
      (emin_fin MAX_FACTOR
         (emul (nth (argmax (order_factors st d y)) (order_factors st d y)
                    PInf)
               (safety_of n_iter)))
      false.
Proof. reflexivity. Qed.

(** The factor of an order change lies in (0, MAX_FACTOR]: the factor of
    the current order is positive or infinite, and the maximum is taken. *)
Lemma order_change_factor_range st d y n_iter :
  (1 <= s_order st)%Z -> (1 <= n_iter)%Z ->
  0 < emin_fin MAX_FACTOR
        (emul (nth (argmax (order_factors st d y)) (order_factors st d y)
                   PInf)
              (safety_of n_iter)) <= MAX_FACTOR.
Proof.
  intros Ho Hn.
  destruct (order_factors_shape st d y) as (m & e & p & -> & _ & _).
  pose proof (argmax3_is_max (epow m (-1 / IZR (0 + s_order st)))
                (epow (Fin e) (-1 / IZR (1 + s_order st)))
                (epow p (-1 / IZR (2 + s_order st))) 1%nat) as Hmax.
  cbn [length nth] in Hmax. specialize (Hmax ltac:(lia)).
  assert (Hmid : ext_ltb (Fin 0) (epow (Fin e) (-1 / IZR (1 + s_order st)))
                 = true)
    by (apply fpow_pos, exponent_neg; lia).
  pose proof (safety_of_range n_iter Hn) as [Hs0 Hs1].
  set (v := nth _ _ PInf) in *.
  assert (Hv : ext_ltb (Fin 0) v = true).
  { destruct (ext_ltb (Fin 0) v) eqn:E; [reflexivity|].
    rewrite (ext_ltb_false_trans _ _ _ E Hmax) in Hmid. discriminate. }
  unfold MAX_FACTOR. destruct v as [r|]; cbn [emul emin_fin]; [|lra].
  apply ext_ltb_spec in Hv. unfold Rmin.
  destruct (Rle_dec 10 (r * safety_of n_iter)); split; try lra; nra.
Qed.

(** *** What the retry loop keeps *)

Lemma step_loop_frame fuel ws ws' :
  rounds fuel ws = Some ws' ->
  s_t (sw_state ws') = s_t (sw_state ws)
  /\ s_y (sw_state ws') = s_y (sw_state ws)
  /\ s_order (sw_state ws') = s_order (sw_state ws)
  /\ s_I (sw_state ws') = s_I (sw_state ws).
Proof.
  intros H.
  apply (step_loop_invariant fun_ jac lu_factor lu_solve
           (fun w => s_t (sw_state w) = s_t (sw_state ws)
                     /\ s_y (sw_state w) = s_y (sw_state ws)
                     /\ s_order (sw_state w) = s_order (sw_state ws)
                     /\ s_I (sw_state w) = s_I (sw_state ws)) fuel ws ws');
    auto.
  intros w (H1 & H2 & H3 & H4) _.
  destruct (step_body_frame fun_ jac lu_factor lu_solve w)
    as (E1 & E2 & E3 & E4).
  rewrite E1, E2, E3, E4. auto.
Qed.

(** A positive step stays positive and does not grow. *)
Lemma step_body_h ws :
  (1 <= s_order (sw_state ws))%Z ->
  exists factor,
    0 < factor <= 1
    /\ s_h (sw_state (round ws)) = s_h (sw_state ws) * factor.
Proof.
  intros Ho.
  destruct (step_body_cases fun_ jac lu_factor lu_solve ws)
    as (nc & n_iter & y & d & Hn & _ & _ & _ & H).
  apply newton_n_iter_pos in Hn.
  destruct H as [(_ & _ & -> & _) | [(_ & _ & -> & _)
                | [(_ & He & -> & _) | (_ & _ & -> & _)]]].
  - exists 1. split; [lra|]. cbn. lra.
  - exists (3 / 10). split; [lra|]. apply h_update_step_size.
  - pose proof (shrink_factor_range (sw_state ws) n_iter _ Ho Hn He) as Hf.
    eexists. split; [|apply h_update_step_size]. lra.
  - exists 1. split; lra.
Qed.

Lemma step_loop_h fuel ws ws' :
  (1 <= s_order (sw_state ws))%Z ->
  rounds fuel ws = Some ws' ->
  exists factor,
    0 < factor <= 1 /\ s_h (sw_state ws') = s_h (sw_state ws) * factor.
Proof.
  intros Ho H.
  apply (step_loop_invariant fun_ jac lu_factor lu_solve
           (fun w => s_order (sw_state w) = s_order (sw_state ws)
                     /\ exists factor,
                         0 < factor <= 1
                         /\ s_h (sw_state w) = s_h (sw_state ws) * factor)
           fuel ws ws'); auto.
  - intros w (Eo & f & Hf & Eh) _.
    split; [rewrite order_step_body; exact Eo|].
    destruct (step_body_h w) as (g & Hg & Eg); [rewrite Eo; exact Ho|].
    exists (f * g). split; [nra|]. rewrite Eg, Eh. ring.
  - split; [reflexivity|]. exists 1. split; lra.
Qed.

(** [n_equal_steps] is kept by a round, or reset by a change of the step. *)
Lemma update_step_size_n_equal_steps st factor b :
  s_n_equal_steps (_update_step_size lu_factor st factor b) = 0%Z.
Proof. unfold _update_step_size; destruct b; reflexivity. Qed.

Lemma step_loop_n_equal_steps fuel ws ws' :
  rounds fuel ws = Some ws' ->
  s_n_equal_steps (sw_state ws') = s_n_equal_steps (sw_state ws)
  \/ s_n_equal_steps (sw_state ws') = 0%Z.
Proof.
  intros H.
  apply (step_loop_invariant fun_ jac lu_factor lu_solve
           (fun w => s_n_equal_steps (sw_state w)
                     = s_n_equal_steps (sw_state ws)
                     \/ s_n_equal_steps (sw_state w) = 0%Z) fuel ws ws');
    auto.
  intros w Hw _.
  destruct (step_body_cases fun_ jac lu_factor lu_solve w)
    as (nc & n_iter & y & d & _ & _ & _ & _ & Hc).
  destruct Hc as [(_ & _ & -> & _) | [(_ & _ & -> & _)
                 | [(_ & _ & -> & _) | (_ & _ & -> & _)]]];
    rewrite ?update_step_size_n_equal_steps; auto.
Qed.

(** The loop leaves after a round in which the Newton iteration converged
    and the error norm was at most 1. *)
Lemma step_loop_accepted fuel ws ws' :
  sw_step_accepted ws = false ->
  rounds fuel ws = Some ws' ->
  newton (sw_state ws') = (false, sw_n_iter ws', sw_y ws', sw_d ws')
  /\ error_norm_of (sw_state ws') (sw_y ws') (sw_d ws') <= 1.
Proof.
  intros Ha H.
  destruct (step_loop_invariant fun_ jac lu_factor lu_solve
           (fun w => sw_step_accepted w = true ->
                     newton (sw_state w)
                     = (false, sw_n_iter w, sw_y w, sw_d w)
                     /\ error_norm_of (sw_state w) (sw_y w) (sw_d w) <= 1)
           fuel ws ws') as [HP Hacc]; auto.
  - intros w _ Haw.
    destruct (step_body_cases fun_ jac lu_factor lu_solve w)
      as (nc & n_iter & y & d & Hn & Ey & Ed & En & Hc).
    destruct Hc as [(_ & _ & _ & _ & E) | [(_ & _ & _ & _ & E)
                   | [(_ & _ & _ & _ & E) | (-> & He & Es & _ & _)]]];
      try (rewrite E, Haw; discriminate).
    intros _. rewrite Es, Ey, Ed, En. auto.
  - rewrite Ha; discriminate.
Qed.

(** The Jacobian is refreshed at the point the step starts from, if at
    all, and the factorisation follows [c] and [J]. *)
Lemma step_loop_jacobian fuel ws ws' :
  s_LU (sw_state ws)
  = lu_factor (msub (s_I (sw_state ws))
                    (mscale (s_c (sw_state ws)) (s_J (sw_state ws)))) ->
  rounds fuel ws = Some ws' ->
  s_LU (sw_state ws')
  = lu_factor (msub (s_I (sw_state ws'))
                    (mscale (s_c (sw_state ws')) (s_J (sw_state ws'))))
  /\ (s_J (sw_state ws') = s_J (sw_state ws)
      \/ s_J (sw_state ws')
         = jac (s_t (sw_state ws)) (s_y (sw_state ws))).
Proof.
  intros HLU H.
  destruct (step_loop_invariant fun_ jac lu_factor lu_solve
           (fun w =>
              s_t (sw_state w) = s_t (sw_state ws)
              /\ s_y (sw_state w) = s_y (sw_state ws)
              /\ s_LU (sw_state w)
                 = lu_factor (msub (s_I (sw_state w))
                                (mscale (s_c (sw_state w))
                                        (s_J (sw_state w))))
              /\ (s_J (sw_state w) = s_J (sw_state ws)
                  \/ s_J (sw_state w)
                     = jac (s_t (sw_state ws)) (s_y (sw_state ws))))
           fuel ws ws') as [(_ & _ & HP) _]; auto.
  intros w (Et & Ey & ELU & EJ) _.
  destruct (step_body_frame fun_ jac lu_factor lu_solve w)
    as (Ft & Fy & _ & _).
  split; [congruence|]. split; [congruence|].
  destruct (step_body_cases fun_ jac lu_factor lu_solve w)
    as (nc & n_iter & y & d & _ & _ & _ & _ & Hc).
  destruct Hc as [(_ & _ & -> & _) | [(_ & _ & -> & _)
                 | [(_ & _ & -> & _) | (_ & _ & -> & _)]]].
  - split; [reflexivity|]. right. cbn. rewrite Et, Ey. reflexivity.
  - split; [reflexivity | exact EJ].
  - split; [reflexivity | exact EJ].
  - split; [exact ELU | exact EJ].
Qed.
End StepFacts.

Section StepResults.
Context {LUt : Type}.
Variable fun_ : R -> vec -> vec.
Variable jac : R -> vec -> matrix.
Variable lu_factor : matrix -> LUt.
Variable lu_solve : LUt -> vec -> vec.
Implicit Type st : state LUt.

Abbreviation rounds := (step_loop fun_ jac lu_factor lu_solve).
Abbreviation newton := (_newton_iteration fun_ lu_solve).
Abbreviation bdf_step := (_bdf_step fun_ jac lu_factor lu_solve).

(** *** The accepted step *)

Lemma bdf_step_y_t fuel st st' ws :
  rounds fuel (mkStep st false true (zeros (length (s_y st)))
                      (zeros (length (s_y st))) (-1)) = Some ws ->
  st' =
  (if (s_n_equal_steps (sw_state ws) + 1 <? s_order (sw_state ws) + 1)%Z
   then no_change_in_order
          (set_n_equal_steps
             (set_t (set_y (sw_state ws) (sw_y ws))
                    (s_t (sw_state ws) + s_h (sw_state ws)))
             (s_n_equal_steps (sw_state ws) + 1))
          (sw_d ws)
   else order_change lu_factor
          (set_n_equal_steps
             (set_t (set_y (sw_state ws) (sw_y ws))
                    (s_t (sw_state ws) + s_h (sw_state ws)))
             (s_n_equal_steps (sw_state ws) + 1))
          (sw_d ws) (sw_y ws) (sw_n_iter ws)) ->
  s_y st' = sw_y ws
  /\ s_t st' = s_t st + s_h (sw_state ws)
  /\ s_J st' = s_J (sw_state ws)
  /\ s_I st' = s_I st.
Proof.
  intros Hloop ->.
  destruct (step_loop_frame fun_ jac lu_factor lu_solve _ _ _ Hloop)
    as (Et & _ & _ & EI).
  cbn [sw_state] in Et, EI. rewrite <- Et, <- EI.
  destruct (_ <? _)%Z.
  - unfold no_change_in_order.
    destruct (update_difference_frame
                (set_n_equal_steps
                   (set_t (set_y (sw_state ws) (sw_y ws))
                          (s_t (sw_state ws) + s_h (sw_state ws)))
                   (s_n_equal_steps (sw_state ws) + 1)) (sw_d ws) false)
      as (-> & -> & _ & _ & _ & -> & _ & _ & -> & _).
    repeat split.
  - rewrite order_change_unfold.
    match goal with |- context [_update_step_size _ ?s ?f ?b] =>
      destruct (update_step_size_frame lu_factor s f b)
        as (-> & -> & _ & _ & _ & -> & -> & _)
    end.
    cbn [s_t s_y s_I s_J set_order].
    match goal with |- context [_update_difference_for_next_step ?s ?d ?b] =>
      destruct (update_difference_frame s d b)
        as (-> & -> & _ & _ & _ & -> & _ & _ & -> & _)
    end.
    repeat split.
Qed.

(** The state returned by a step is a converged Newton solution whose error
    norm is at most 1, at the time reached with the accepted step size. *)
Lemma bdf_step_accepted fuel st st' :
  bdf_step fuel st = Some st' ->
  exists sa n_iter d,
    s_t sa = s_t st /\ s_y sa = s_y st /\ s_order sa = s_order st
    /\ newton sa = (false, n_iter, s_y st', d)
    /\ error_norm_of sa (s_y st') d <= 1
    /\ s_t st' = s_t st + s_h sa.
Proof.
  intros H. destruct (bdf_step_unfold _ _ _ _ _ _ _ H) as (ws & Hloop & E).
  destruct (bdf_step_y_t _ _ _ _ Hloop E) as (Ey & Et & _).
  destruct (step_loop_frame fun_ jac lu_factor lu_solve _ _ _ Hloop)
    as (Ft & Fy & Fo & _).
  pose proof Hloop as Hacc.
  apply step_loop_accepted in Hacc as [Hn He]; [|reflexivity].
  exists (sw_state ws), (sw_n_iter ws), (sw_d ws).
  rewrite Ey. repeat split; assumption.
Qed.

(** *** Time and step size *)

Lemma bdf_step_progress fuel st st' :
  (1 <= s_order st)%Z -> 0 < s_h st ->
  bdf_step fuel st = Some st' ->
  s_t st < s_t st' <= s_t st + s_h st
  /\ 0 < s_h st' <= MAX_FACTOR * s_h st.
Proof.
  intros Ho Hh H.
  destruct (bdf_step_unfold _ _ _ _ _ _ _ H) as (ws & Hloop & E).
  destruct (bdf_step_y_t _ _ _ _ Hloop E) as (_ & Et & _).
  destruct (step_loop_frame fun_ jac lu_factor lu_solve _ _ _ Hloop)
    as (_ & _ & Fo & _).
  pose proof Hloop as Hlh.
  apply step_loop_h in Hlh as (f & Hf & Eh); [|exact Ho].
  pose proof Hloop as Hacc.
  apply step_loop_accepted in Hacc as [Hn _]; [|reflexivity].
  apply newton_n_iter_pos in Hn.
  cbn [sw_state] in Fo, Eh.
  assert (Hha : 0 < s_h (sw_state ws) <= s_h st) by (rewrite Eh; nra).
  split; [rewrite Et; lra|].
  unfold MAX_FACTOR. rewrite E. destruct (_ <? _)%Z.
  - unfold no_change_in_order.
    match goal with |- context [_update_difference_for_next_step ?s ?d ?b] =>
      destruct (update_difference_frame s d b) as (_ & _ & -> & _)
    end.
    cbn [s_h set_n_equal_steps set_t set_y]. lra.
  - rewrite order_change_unfold, h_update_step_size.
    cbn [s_h set_order].
    match goal with |- context [_update_difference_for_next_step ?s ?d ?b] =>
      destruct (update_difference_frame s d b) as (_ & _ & -> & _)
    end.
    cbn [s_h set_n_equal_steps set_t set_y].
    match goal with |- context [emin_fin ?a ?b] =>
      assert (Hfac : 0 < emin_fin a b <= MAX_FACTOR)
    end.
    { apply order_change_factor_range; [|exact Hn].
      cbn [s_order set_n_equal_steps set_t set_y]. rewrite Fo; exact Ho. }
    unfold MAX_FACTOR in Hfac. set (F := emin_fin _ _) in *.
    split; [apply Rmult_lt_0_compat; lra|].
    apply Rle_trans with (s_h st * F); [|nra].
    apply Rmult_le_compat_r; lra.
Qed.

(** *** The order and the count of equal steps *)

Lemma bdf_step_order_schedule fuel st st' :
  (1 <= s_order st <= MAX_ORDER)%Z ->
  (0 <= s_n_equal_steps st <= s_order st)%Z ->
  bdf_step fuel st = Some st' ->
  (0 <= s_n_equal_steps st' <= s_order st')%Z
  /\ (s_order st - 1 <= s_order st' <= s_order st + 1)%Z
  /\ ((s_n_equal_steps st < s_order st)%Z ->
      s_order st' = s_order st /\ (1 <= s_n_equal_steps st')%Z)
  /\ (s_order st' <> s_order st -> s_n_equal_steps st' = 0%Z).
Proof.
  intros Ho Hn H.
  destruct (bdf_step_unfold _ _ _ _ _ _ _ H) as (ws & Hloop & E).
  destruct (step_loop_frame fun_ jac lu_factor lu_solve _ _ _ Hloop)
    as (_ & _ & Fo & _).
  pose proof (step_loop_n_equal_steps fun_ jac lu_factor lu_solve _ _ _ Hloop)
    as Fn.
  cbn [sw_state] in Fo, Fn.
  destruct (_ <? _)%Z eqn:Hb in E.
  - apply Z.ltb_lt in Hb. subst st'. unfold no_change_in_order.
    match goal with |- context [_update_difference_for_next_step ?s ?d ?b] =>
      destruct (update_difference_frame s d b)
        as (_ & _ & _ & -> & -> & _)
    end.
    cbn [s_order s_n_equal_steps set_n_equal_steps set_t set_y].
    rewrite Fo. repeat split; try lia.
  - apply Z.ltb_ge in Hb. subst st'.
    match goal with |- context [order_change _ ?s ?d ?y ?n] =>
      pose proof (order_change_in_range lu_factor s d y n) as Hr;
      pose proof (order_change_order lu_factor s d y n) as Hk;
      pose proof (order_factors_length s d y) as Hl;
      rewrite (order_change_unfold _ s d y n),
              update_step_size_n_equal_steps;
      rewrite <- (order_change_unfold _ s d y n)
    end.
    cbn [s_order set_n_equal_steps set_t set_y] in Hr, Hk.
    rewrite Fo in Hr, Hk. specialize (Hr Ho).
    match type of Hk with context [argmax ?l] =>
      assert (Ha : (argmax l < 3)%nat)
    end.
    { match goal with |- context [argmax ?l] =>
        destruct l as [|a [|b [|c [|]]]]; try discriminate
      end. apply argmax3_lt. }
    repeat split; try lia.
Qed.

(** *** The Jacobian and its factorisation *)

Lemma update_step_size_lu st factor :
  s_LU (_update_step_size lu_factor st factor false)
  = lu_factor
      (msub (s_I (_update_step_size lu_factor st factor false))
            (mscale (s_c (_update_step_size lu_factor st factor false))
                    (s_J (_update_step_size lu_factor st factor false)))).
Proof. reflexivity. Qed.

Lemma bdf_step_jacobian fuel st st' :
  s_LU st = lu_factor (msub (s_I st) (mscale (s_c st) (s_J st))) ->
  bdf_step fuel st = Some st' ->
  s_LU st' = lu_factor (msub (s_I st') (mscale (s_c st') (s_J st')))
  /\ (s_J st' = s_J st \/ s_J st' = jac (s_t st) (s_y st)).
Proof.
  intros HLU H.
  destruct (bdf_step_unfold _ _ _ _ _ _ _ H) as (ws & Hloop & E).
  destruct (bdf_step_y_t _ _ _ _ Hloop E) as (_ & _ & EJ & _).
  pose proof Hloop as Hlj.
  apply step_loop_jacobian in Hlj as [HLU' HJ]; [|exact HLU].
  cbn [sw_state] in HJ. rewrite EJ. split; [|exact HJ].
  rewrite <- EJ. rewrite E. destruct (_ <? _)%Z.
  - unfold no_change_in_order.
    match goal with |- context [_update_difference_for_next_step ?s ?d ?b] =>
      destruct (update_difference_frame s d b)
        as (_ & _ & _ & _ & _ & -> & -> & -> & -> & _)
    end.
    exact HLU'.
  - rewrite order_change_unfold. apply update_step_size_lu.
Qed.
End StepResults.

(** ** The dense output across a step *)

Lemma map_times_eq c c' (v : vec) :
  c = c' -> map (fun x => x * c) v = map (fun x => x * c') v.
Proof. intros ->; reflexivity. Qed.

(** One step back from the time of the state, the interpolant is
    [D[0] - D[1]]: the first time factor is -1 and the second 0. *)
Lemma interpolate_one_step_back {LUt} n (st : state LUt) tt :
  rows_of n (s_D st) -> s_D st <> [] -> (1 <= s_order st)%Z ->
  s_h st <> 0 -> tt = s_t st - s_h st ->
  _bdf_interpolate st tt
  = vadd (jget [] (s_D st) 0) (map (fun x => x * -1) (jget [] (s_D st) 1)).
Proof.
  intros HR Hne Ho Hh ->. unfold _bdf_interpolate.
  assert (H1 : 1 * ((s_t st - s_h st - (s_t st - s_h st * IZR 0))
                    / (s_h st * (1 + IZR 0))) = -1)
    by (field; exact Hh).
  assert (H2 : 1 * ((s_t st - s_h st - (s_t st - s_h st * IZR 0))
                    / (s_h st * (1 + IZR 0)))
               * ((s_t st - s_h st - (s_t st - s_h st * IZR (0 + 1)))
                  / (s_h st * (1 + IZR (0 + 1)))) = 0)
    by (simpl; unfold Rdiv; ring).
  assert (HL : forall i, length (jget [] (s_D st) i) = n)
    by (intros i; apply rows_of_jget; assumption).
  destruct (Z.to_nat (s_order st)) as [|[|fuel]] eqn:Ek; [lia| |];
    cbn [interpolate_loop].
  - apply f_equal, map_times_eq, H1.
  - rewrite (interpolate_loop_zero n); auto.
    + rewrite vadd_times_zero' by
        (auto; rewrite length_vadd, length_map, !HL; lia).
      apply f_equal, map_times_eq, H1.
    + rewrite !length_vadd, !length_map, !HL. lia.
Qed.

(** Row 0 after the update of the table is row 0 before it plus the new
    row 1, at every order. *)
Lemma update_difference_row0 n (D : matrix) (d v : vec) (order : Z) :
  length D = 6%nat -> rows_of n D -> (0 <= order <= 5)%Z ->
  let D' := difference_loop (Z.to_nat (order + 1))
              (jset (jset D (order + 2) v) (order + 1) d) in
  jget [] D' 0 = vadd (jget [] D 0) (jget [] D' 1).
Proof.
  intros HL HR Ho.
  destruct (rows6 n D HL HR)
    as (r0 & r1 & r2 & r3 & r4 & r5 & -> & _).
  assert (Hc : (order = 0 \/ order = 1 \/ order = 2 \/ order = 3
                \/ order = 4 \/ order = 5)%Z) by lia.
  destruct Hc as [-> | [-> | [-> | [-> | [-> | ->]]]]]; reflexivity.
Qed.

(** A change of the step size re-establishes the shape of the state from
    the shape of its table. *)
Lemma update_step_size_shape {LUt} (lu_factor : matrix -> LUt) st factor b :
  length (s_D st) = 6%nat -> rows_of (length (s_y st)) (s_D st) ->
  jget [] (s_U st) 0 = compute_R 0 1 ->
  well_shaped (_update_step_size lu_factor st factor b).
Proof.
  intros HL HR HU.
  destruct (rows_of_matmul_T (Z.to_nat (MAX_ORDER + 1)) (length (s_y st))
              (masked_RU (s_order st) factor (jget [] (s_U st) 0))
              (s_D st) HR) as [HR' HL'].
  unfold _update_step_size; cbv zeta.
  destruct b; apply well_shaped_refresh; cbn; auto.
Qed.

Section DenseOutput.
Context {LUt : Type}.
Variable fun_ : R -> vec -> vec.
Variable jac : R -> vec -> matrix.
Variable lu_factor : matrix -> LUt.
Variable lu_solve : LUt -> vec -> vec.
Hypothesis fun_length : forall t y, length (fun_ t y) = length y.
Hypothesis lu_solve_length : forall LU b, length (lu_solve LU b) = length b.
Implicit Type st : state LUt.

Abbreviation round := (step_body fun_ jac lu_factor lu_solve).
Abbreviation rounds := (step_loop fun_ jac lu_factor lu_solve).
Abbreviation bdf_step := (_bdf_step fun_ jac lu_factor lu_solve).

(** The retry loop keeps row 0 of the table. *)
Lemma step_loop_row0 fuel ws ws' :
  well_shaped (sw_state ws) ->
  rounds fuel ws = Some ws' ->
  well_shaped (sw_state ws')
  /\ jget [] (s_D (sw_state ws')) 0 = jget [] (s_D (sw_state ws)) 0.
Proof.
  intros Hw H.
  destruct (step_loop_invariant fun_ jac lu_factor lu_solve
           (fun w => well_shaped (sw_state w)
                     /\ jget [] (s_D (sw_state w)) 0
                        = jget [] (s_D (sw_state ws)) 0) fuel ws ws')
    as [HP _]; auto.
  intros w [Hww E] _.
  split; [apply (step_body_shape fun_ jac lu_factor lu_solve fun_length
                   lu_solve_length w Hww)|].
  rewrite <- E. destruct Hww as (HL & HR & _ & _ & HU).
  destruct (step_body_cases fun_ jac lu_factor lu_solve w)
    as (nc & n_iter & y & d & _ & _ & _ & _ & Hc).
  destruct Hc as [(_ & _ & -> & _) | [(_ & _ & -> & _)
                 | [(_ & _ & -> & _) | (_ & _ & -> & _)]]];
    try reflexivity;
    rewrite D_update_step_size, HU; apply rescale_row0; assumption.
Qed.

(** The table kept by a step has its shape, and [y] keeps its length. *)
Lemma bdf_step_shape fuel st st' :
  well_shaped st -> bdf_step fuel st = Some st' ->
  well_shaped st' /\ length (s_y st') = length (s_y st).
Proof.
  intros Hw H.
  destruct (bdf_step_unfold _ _ _ _ _ _ _ H) as (ws & Hloop & E).
  destruct (bdf_step_y_t _ _ _ _ _ _ _ _ Hloop E) as (Ey & _).
  destruct (step_loop_frame fun_ jac lu_factor lu_solve _ _ _ Hloop)
    as (_ & Fy & _).
  cbn [sw_state] in Fy.
  pose proof Hloop as Hs.
  apply (step_loop_shape fun_ jac lu_factor lu_solve fun_length
           lu_solve_length) in Hs; [|exact Hw | reflexivity].
  destruct Hs as ((HL & HR & Hpsi & Hy0 & HU) & Hy & Hd).
  assert (Hly : length (sw_y ws) = length (s_y (sw_state ws))).
  { rewrite Hy, length_vadd, Hd, Hy0.
    rewrite length_colsum by (apply rows_of_mask, HR). lia. }
  split; [|rewrite Ey, Hly, Fy; reflexivity].
  change (Z.to_nat (MAX_ORDER + 1)) with 6%nat in HL.
  rewrite <- Hly in HR, Hd.
  destruct (update_difference_shape (length (sw_y ws)) (s_D (sw_state ws))
              (sw_d ws) (s_order (sw_state ws)) HL HR Hd) as [HL' HR'].
  rewrite E. destruct (_ <? _)%Z.
  - unfold no_change_in_order, _update_difference_for_next_step; cbv zeta.
    cbn [negb]. apply well_shaped_refresh; cbn [s_D s_y s_U set_D]; auto.
  - rewrite order_change_unfold.
    apply update_step_size_shape; cbn [s_D s_y s_U set_order];
      rewrite ?D_update_difference;
      cbn [s_D s_y s_U s_order set_n_equal_steps set_t set_y]; auto.
Qed.

(** The interpolants of two consecutive steps agree where they join: at the
    time the step started from, the new table gives [D[0] - D[1]], which is
    row 0 of the old table. *)
Lemma bdf_step_continuous fuel st st' :
  well_shaped st -> (1 <= s_order st <= MAX_ORDER)%Z -> s_h st <> 0 ->
  bdf_step fuel st = Some st' ->
  _bdf_interpolate st' (s_t st) = _bdf_interpolate st (s_t st).
Proof.
  intros Hw Ho Hh H.
  assert (Hne0 : s_D st <> []).
  { destruct Hw as (HL0 & _). eapply nonempty_of_length; exact HL0. }
  rewrite (interpolate_at_step_time (length (s_y st)) st)
    by (try exact Hne0; apply Hw).
  destruct (bdf_step_unfold _ _ _ _ _ _ _ H) as (ws & Hloop & E).
  destruct (step_loop_frame fun_ jac lu_factor lu_solve _ _ _ Hloop)
    as (Ft & Fy & Fo & _).
  pose proof Hloop as Hlh.
  apply step_loop_h in Hlh as (f & Hf & Eh); [|apply Ho].
  pose proof Hloop as Hacc.
  apply step_loop_accepted in Hacc as [Hn _]; [|reflexivity].
  apply newton_n_iter_pos in Hn.
  pose proof Hloop as Hr0.
  apply step_loop_row0 in Hr0 as [_ Hr0]; [|exact Hw].
  pose proof Hloop as Hs.
  apply (step_loop_shape fun_ jac lu_factor lu_solve fun_length
           lu_solve_length) in Hs; [|exact Hw | reflexivity].
  destruct Hs as ((HL & HR & Hpsi & Hy0 & HU) & Hy & Hd).
  cbn [sw_state] in Ft, Fy, Fo, Eh, Hr0.
  set (sa := sw_state ws) in *. set (y := sw_y ws) in *.
  set (d := sw_d ws) in *.
  assert (Hha : s_h sa <> 0) by (rewrite Eh; nra).
  assert (Hly : length y = length (s_y sa)).
  { rewrite Hy, length_vadd, Hd, Hy0.
    rewrite length_colsum by (apply rows_of_mask, HR). lia. }
  change (Z.to_nat (MAX_ORDER + 1)) with 6%nat in HL.
  rewrite <- Hly in HR, Hd.
  destruct (update_difference_shape (length y) (s_D sa) d (s_order sa)
              HL HR Hd) as [HL' HR'].
  pose proof (update_difference_row0 (length y) (s_D sa) d
                (vsub d (jget [] (s_D sa) (s_order sa + 1))) (s_order sa)
                HL HR) as Hrec.
  cbv zeta in Hrec, HL', HR'.
  assert (Hoa : (0 <= s_order sa <= 5)%Z)
    by (unfold MAX_ORDER in Ho; lia).
  specialize (Hrec Hoa).
  set (D' := difference_loop _ _) in *.
  assert (Hne : D' <> []) by (eapply nonempty_of_length; exact HL').
  assert (Hback : vadd (jget [] D' 0) (map (fun x => x * -1) (jget [] D' 1))
                  = jget [] (s_D st) 0).
  { assert (Ha : length (jget [] (s_D sa) 0) = length y)
      by (apply rows_of_jget; [exact HR|];
          eapply nonempty_of_length; exact HL).
    assert (Hb : length (jget [] D' 1) = length y)
      by (apply rows_of_jget; assumption).
    rewrite Hrec. rewrite Hr0 in *.
    vec_ext (length y) i. lra. }
  set (st2 := set_n_equal_steps (set_t (set_y sa y) (s_t sa + s_h sa))
                                (s_n_equal_steps sa + 1)) in E.
  assert (E2 : s_D st2 = s_D sa /\ s_order st2 = s_order sa
               /\ s_y st2 = y /\ s_U st2 = s_U sa
               /\ s_t st2 = s_t sa + s_h sa /\ s_h st2 = s_h sa)
    by (repeat split).
  destruct E2 as (ED & EO & EY & EU & ET & EH).
  rewrite <- Hback, E. destruct (_ <? _)%Z.
  - unfold no_change_in_order.
    destruct (update_difference_frame st2 d false)
      as (Gt & _ & Gh & Go & _).
    rewrite (interpolate_one_step_back (length y));
      rewrite ?D_update_difference, ?ED, ?EO, ?Gt, ?Gh, ?Go, ?ET, ?EH, ?Ft;
      auto; try lia; try lra.
  - rewrite order_change_unfold.
    match goal with
    |- context [_update_step_size _ (set_order ?s ?kk) ?FF _] =>
      set (k' := kk); set (F := FF);
      pose proof (order_change_in_range lu_factor st2 d y (sw_n_iter ws))
        as Hk';
      pose proof (order_change_factor_range st2 d y (sw_n_iter ws)) as HF
    end.
    rewrite order_change_order, EO, Fo in Hk'. specialize (Hk' Ho).
    rewrite EO, Fo in HF. specialize (HF ltac:(lia) Hn). fold F in HF.
    fold k' in Hk'.
    destruct (update_difference_frame st2 d true)
      as (Gt & Gy & Gh & Go & _ & _ & _ & _ & _ & GU).
    rewrite update_step_size_interpolate;
      cbn [s_D s_y s_U s_h s_order set_order];
      rewrite ?D_update_difference, ?ED, ?EO, ?Gy, ?GU, ?Gh, ?EY, ?EU, ?EH;
      auto; try (unfold MAX_ORDER in Hk'; lia); try lra.
    rewrite (interpolate_one_step_back (length y));
      cbn [s_D s_y s_U s_h s_t s_order set_order];
      rewrite ?D_update_difference, ?ED, ?EO, ?Gt, ?Gh, ?ET, ?EH, ?Ft;
      auto; try lia; try lra.
Qed.
End DenseOutput.

(** ** The output matrix of the driver *)

Lemma nth_list_set_same {A} (l : list A) j v d :
  (j < length l)%nat -> nth j (list_set l j v) d = v.
Proof.
  revert j; induction l as [|a l IH]; intros [|j] Hj; simpl in *;
    try lia; [reflexivity | apply IH; lia].
Qed.

Lemma nth_list_set_other {A} (l : list A) j j' v d :
  j <> j' -> nth j' (list_set l j v) d = nth j' l d.
Proof.
  revert j j'; induction l as [|a l IH]; intros [|j] [|j'] Hj; simpl;
    try reflexivity; try lia. apply IH; lia.
Qed.

Lemma in_bounds_nat n j : in_bounds n (Z.of_nat j) = (j <? n)%nat.
Proof.
  unfold in_bounds, norm_index.
  replace (Z.of_nat j <? 0)%Z with false by (symmetry; apply Z.ltb_ge; lia).
  replace (0 <=? Z.of_nat j)%Z with true by (symmetry; apply Z.leb_le; lia).
  cbn [andb]. apply eq_true_iff_eq. rewrite Z.ltb_lt, Nat.ltb_lt. lia.
Qed.

Lemma jset_nat {A} (l : list A) j v :
  jset l (Z.of_nat j) v = if (j <? length l)%nat then list_set l j v else l.
Proof.
  unfold jset. rewrite in_bounds_nat. destruct (j <? length l)%nat; auto.
  unfold norm_index.
  replace (Z.of_nat j <? 0)%Z with false by (symmetry; apply Z.ltb_ge; lia).
  rewrite Nat2Z.id. reflexivity.
Qed.

Lemma nth_jset_same (row : vec) j x :
  (j < length row)%nat -> nth j (jset row (Z.of_nat j) x) 0 = x.
Proof.
  intros Hj. rewrite jset_nat.
  replace (j <? length row)%nat with true
    by (symmetry; apply Nat.ltb_lt; exact Hj).
  apply nth_list_set_same, Hj.
Qed.

Lemma nth_jset_other (row : vec) j j' x :
  j <> j' -> nth j' (jset row (Z.of_nat j) x) 0 = nth j' row 0.
Proof.
  intros Hj. rewrite jset_nat. destruct (j <? length row)%nat; auto.
  apply nth_list_set_other, Hj.
Qed.

(** Writing column [j] of a matrix with [m] columns. *)
Lemma set_column_shape m (y_out : matrix) j v :
  length v = length y_out -> rows_of m y_out ->
  length (set_column y_out j v) = length y_out
  /\ rows_of m (set_column y_out j v).
Proof.
  unfold set_column. intros Hl HR. split.
  - rewrite length_zipWith. unfold matrix, vec in *. lia.
  - clear Hl. revert v. induction HR as [|r M Hr HR IH]; intros [|x v];
      simpl; try constructor.
    + rewrite length_jset. exact Hr.
    + apply IH.
Qed.

Lemma column_set_column_same m (y_out : matrix) j v :
  length v = length y_out -> rows_of m y_out -> (j < m)%nat ->
  column j (set_column y_out j v) = v.
Proof.
  unfold set_column, column. intros Hl HR Hj. revert v Hl.
  induction HR as [|r M Hr HR IH]; intros [|x v] Hl; simpl in *;
    try discriminate; [reflexivity|].
  rewrite nth_jset_same by lia. f_equal. apply IH. lia.
Qed.

Lemma column_set_column_other (y_out : matrix) j j' v :
  length v = length y_out -> j <> j' ->
  column j' (set_column y_out j v) = column j' y_out.
Proof.
  unfold set_column, column. intros Hl Hj. revert v Hl.
  induction y_out as [|r M IH]; intros [|x v] Hl; simpl in *;
    try discriminate; [reflexivity|].
  rewrite nth_jset_other by exact Hj. f_equal. apply IH. lia.
Qed.

(** The interpolant has the length of the rows of the table. *)
Lemma length_interpolate_loop {LUt} n fuel (st : state LUt) t j tf acc :
  rows_of n (s_D st) -> s_D st <> [] -> length acc = n ->
  length (interpolate_loop fuel st t j tf acc) = n.
Proof.
  intros HR Hne. revert j tf acc.
  induction fuel as [|fuel IH]; intros j tf acc Ha; simpl; auto.
  apply IH. rewrite length_vadd, length_map, Ha, (rows_of_jget n); auto. lia.
Qed.

Lemma length_interpolate {LUt} (st : state LUt) t :
  well_shaped st -> length (_bdf_interpolate st t) = length (s_y st).
Proof.
  intros (HL & HR & _).
  assert (Hne : s_D st <> []) by (eapply nonempty_of_length; exact HL).
  apply length_interpolate_loop; auto. apply rows_of_jget; auto.
Qed.

Section Columns.
Context {LUt : Type}.
Variable stepper : state LUt.
Variable t_eval : vec.
Hypothesis stepper_shape : well_shaped stepper.

Abbreviation fill :=
  (fun (y : matrix) (j : nat) =>
     set_column y j (_bdf_interpolate stepper (nth j t_eval 0))).

(** Filling the columns [js]: the shape is kept, the columns of [js] hold
    the interpolants and the other columns are not touched. *)
Lemma fill_columns m js (y_out : matrix) :
  length y_out = length (s_y stepper) -> rows_of m y_out ->
  NoDup js -> (forall j, In j js -> (j < m)%nat) ->
  length (fold_left fill js y_out) = length y_out
  /\ rows_of m (fold_left fill js y_out)
  /\ (forall j, In j js ->
                column j (fold_left fill js y_out)
                = _bdf_interpolate stepper (nth j t_eval 0))
  /\ (forall j, ~ In j js ->
                column j (fold_left fill js y_out) = column j y_out).
Proof.
  revert y_out. induction js as [|a js IH]; intros y_out Hl HR Hnd Hm.
  - simpl. repeat split; auto. intros j [].
  - cbn [fold_left]. inversion Hnd as [|? ? Hna Hnd']; subst.
    destruct (set_column_shape m y_out a
                (_bdf_interpolate stepper (nth a t_eval 0))) as [Hl1 HR1];
      [rewrite length_interpolate; auto | exact HR |].
    destruct (IH (set_column y_out a
                    (_bdf_interpolate stepper (nth a t_eval 0))))
      as (Hl2 & HR2 & Hin & Hout); auto.
    + rewrite Hl1; exact Hl.
    + intros j Hj; apply Hm; right; exact Hj.
    + split; [rewrite Hl2; exact Hl1|]. split; [exact HR2|]. split.
      * intros j [-> | Hj]; [|apply Hin, Hj].
        rewrite Hout by exact Hna.
        apply (column_set_column_same m); auto.
        -- rewrite length_interpolate; auto.
        -- apply Hm; left; reflexivity.
      * intros j Hj. rewrite Hout by (intros Hc; apply Hj; right; exact Hc).
        apply column_set_column_other.
        -- rewrite length_interpolate; auto.
        -- intros ->; apply Hj; left; reflexivity.
Qed.

(** After the outputs of a step are filled, the columns from the cursor up
    to [searchsorted t_eval t] hold the interpolants of the state of the
    step, every other column is as before, and the cursor has moved past
    them. *)
Lemma fill_outputs_columns i (y_out : matrix) :
  length y_out = length (s_y stepper) -> rows_of (length t_eval) y_out ->
  let index := searchsorted t_eval (s_t stepper) in
  let ws' := fill_outputs stepper t_eval i y_out in
  ow_i ws' = Nat.max i index
  /\ length (ow_y_out ws') = length y_out
  /\ rows_of (length t_eval) (ow_y_out ws')
  /\ (forall j, (i <= j < index)%nat ->
                column j (ow_y_out ws')
                = _bdf_interpolate stepper (nth j t_eval 0))
  /\ (forall j, ~ (i <= j < index)%nat ->
                column j (ow_y_out ws') = column j y_out).
Proof.
  intros Hl HR; cbv zeta. unfold fill_outputs, fori_loop; cbv zeta.
  rewrite fori_loop_for_body. cbn [ow_i ow_y_out].
  pose proof (searchsorted_le t_eval (s_t stepper)) as Hle.
  destruct (fill_columns (length t_eval)
              (seq i (searchsorted t_eval (s_t stepper) - i)) y_out Hl HR)
    as (H1 & H2 & H3 & H4).
  - apply seq_NoDup.
  - intros j Hj; apply in_seq in Hj; lia.
  - split; [rewrite length_seq; lia|]. split; [exact H1|].
    split; [exact H2|]. split.
    + intros j Hj; apply H3, in_seq; lia.
    + intros j Hj; apply H4. rewrite in_seq. lia.
Qed.
End Columns.

Section Driver.
Context {LUt : Type}.
Variable fun_ : R -> vec -> vec.
Variable jac : R -> vec -> matrix.
Variable lu_factor : matrix -> LUt.
Variable lu_solve : LUt -> vec -> vec.
Hypothesis fun_length : forall t y, length (fun_ t y) = length y.
Hypothesis lu_solve_length : forall LU b, length (lu_solve LU b) = length b.
Implicit Type st : state LUt.

Abbreviation bdf_step := (_bdf_step fun_ jac lu_factor lu_solve).
Abbreviation body := (body_fun fun_ jac lu_factor lu_solve).
Abbreviation loop := (odeint_loop fun_ jac lu_factor lu_solve).

(** One round of the loop: a step, then the outputs it has passed. *)
Lemma body_fun_columns n sfuel ws ws1 :
  driver_shape n ws -> body sfuel ws = Some ws1 ->
  exists st1,
    bdf_step sfuel (ow_stepper ws) = Some st1
    /\ ow_stepper ws1 = st1 /\ ow_t_eval ws1 = ow_t_eval ws
    /\ driver_shape n ws1
    /\ ow_i ws1 = Nat.max (ow_i ws) (searchsorted (ow_t_eval ws) (s_t st1))
    /\ (forall j, (ow_i ws <= j < searchsorted (ow_t_eval ws) (s_t st1))%nat ->
                  column j (ow_y_out ws1)
                  = _bdf_interpolate st1 (nth j (ow_t_eval ws) 0))
    /\ (forall j, ~ (ow_i ws <= j
                     < searchsorted (ow_t_eval ws) (s_t st1))%nat ->
                  column j (ow_y_out ws1) = column j (ow_y_out ws)).
Proof.
  intros (Hw & Hn & Hl & HR). unfold body_fun.
  destruct (bdf_step sfuel (ow_stepper ws)) as [st1|] eqn:Hs; [|discriminate].
  intros H; injection H as <-. exists st1. split; [reflexivity|].
  destruct (bdf_step_shape fun_ jac lu_factor lu_solve fun_length
              lu_solve_length _ _ _ Hw Hs) as [Hw1 Hn1].
  destruct (fill_outputs_fields st1 (ow_t_eval ws) (ow_i ws) (ow_y_out ws))
    as [E1 E2].
  destruct (fill_outputs_columns st1 (ow_t_eval ws) Hw1 (ow_i ws)
              (ow_y_out ws)) as (Hi & Hl1 & HR1 & Hin & Hout);
    [rewrite Hl, Hn1, Hn; reflexivity | exact HR |].
  split; [exact E1|]. split; [exact E2|]. split.
  - unfold driver_shape. rewrite E1, E2.
    split; [exact Hw1|]. split; [rewrite Hn1; exact Hn|].
    split; [rewrite Hl1; exact Hl | exact HR1].
  - repeat split; assumption.
Qed.

(** Along the loop the shapes are kept, the cursor does not move back, and
    a column below the cursor is not written again. *)
Lemma odeint_loop_columns n sfuel fuel ws ws' :
  driver_shape n ws -> loop sfuel fuel ws = Some ws' ->
  driver_shape n ws' /\ ow_t_eval ws' = ow_t_eval ws
  /\ (ow_i ws <= ow_i ws')%nat
  /\ (forall j, (j < ow_i ws)%nat ->
                column j (ow_y_out ws') = column j (ow_y_out ws)).
Proof.
  revert ws; induction fuel as [|fuel IH]; intros ws Hsh; simpl.
  - destruct (cond_fun ws); [discriminate|].
    intros H; injection H as <-.
    split; [exact Hsh|]. split; [reflexivity|]. split; [lia | auto].
  - destruct (cond_fun ws);
      [|intros H; injection H as <-; split; [exact Hsh|];
        split; [reflexivity|]; split; [lia | auto]].
    destruct (body sfuel ws) as [ws1|] eqn:Hb; [|discriminate].
    destruct (body_fun_columns n sfuel ws ws1 Hsh Hb)
      as (st1 & _ & _ & Et & Hsh1 & Hi & _ & Hout).
    intros H. destruct (IH ws1 Hsh1 H) as (Hsh' & Et' & Hi' & Hk).
    split; [exact Hsh'|]. split; [congruence|]. split; [lia|].
    intros j Hj. rewrite Hk by lia. apply Hout. lia.
Qed.

Lemma init_state_shape y0 t_eval rtol atol :
  driver_shape (length y0) (init_state fun_ jac lu_factor y0 t_eval rtol atol).
Proof.
  unfold driver_shape, init_state; cbv zeta.
  cbn [ow_stepper ow_y_out ow_t_eval].
  split; [apply init_well_shaped, fun_length|]. split; [reflexivity|].
  split; [apply repeat_length|].
  apply Forall_forall. intros r Hr. apply repeat_spec in Hr. subst r.
  apply length_zeros.
Qed.

(** The result of the integrator has a row for each equation and a column
    for each output time. *)
Lemma integrate_shape sfuel fuel y0 t_eval rtol atol y_out :
  jax_bdf_integrate fun_ jac lu_factor lu_solve sfuel fuel y0 t_eval rtol atol
  = Some y_out ->
  length y_out = length y0 /\ rows_of (length t_eval) y_out.
Proof.
  unfold jax_bdf_integrate, _bdf_odeint.
  destruct (loop sfuel fuel _) as [ws'|] eqn:Hl; [|discriminate].
  intros H; injection H as <-.
  destruct (odeint_loop_columns _ _ _ _ _
              (init_state_shape y0 t_eval rtol atol) Hl)
    as ((_ & _ & H1 & H2) & Et & _).
  rewrite Et in H2. split; assumption.
Qed.

(** With a positive initial step, the first column of the result is the
    initial state: the first step passes [t_eval[0]], its interpolant
    there is that of the initial table, whose row 0 is [y0], and the column
    is not written again. *)
Lemma integrate_first_column sfuel fuel y0 t_eval rtol atol y_out :
  t_eval <> [] ->
  0 < s_h (ow_stepper (init_state fun_ jac lu_factor y0 t_eval rtol atol)) ->
  jax_bdf_integrate fun_ jac lu_factor lu_solve sfuel fuel y0 t_eval rtol atol
  = Some y_out ->
  column 0 y_out = y0.
Proof.
  intros Hne Hh. unfold jax_bdf_integrate, _bdf_odeint.
  destruct t_eval as [|x a]; [congruence|].
  destruct (loop sfuel fuel _) as [ws'|] eqn:Hl; [|discriminate].
  intros H; injection H as <-.
  pose proof (init_state_shape y0 (x :: a) rtol atol) as Hsh.
  set (ws0 := init_state fun_ jac lu_factor y0 (x :: a) rtol atol) in *.
  assert (Hc : cond_fun ws0 = true) by reflexivity.
  destruct fuel as [|fuel]; cbn [odeint_loop] in Hl; rewrite Hc in Hl;
    [discriminate|].
  destruct (body sfuel ws0) as [ws1|] eqn:Hb; [|discriminate].
  destruct (body_fun_columns _ sfuel ws0 ws1 Hsh Hb)
    as (st1 & Hs & _ & Et & Hsh1 & Hi & Hin & _).
  destruct (odeint_loop_columns _ _ _ _ _ Hsh1 Hl) as (_ & _ & _ & Hk).
  assert (Ho : s_order (ow_stepper ws0) = 1%Z) by reflexivity.
  assert (Ht0 : s_t (ow_stepper ws0) = x).
  { unfold ws0, init_state; cbv zeta. cbn [ow_stepper].
    rewrite jget_0_cons. reflexivity. }
  destruct (bdf_step_progress fun_ jac lu_factor lu_solve sfuel _ _
              ltac:(rewrite Ho; lia) Hh Hs) as [[Hlt _] _].
  assert (Hidx : (1 <= searchsorted (ow_t_eval ws0) (s_t st1))%nat).
  { change (ow_t_eval ws0) with (x :: a). rewrite Ht0 in Hlt.
    cbn [searchsorted]. rewrite Rltb_true by exact Hlt. lia. }
  rewrite Hk by (rewrite Hi; lia).
  rewrite Hin by (change (ow_i ws0) with 0%nat; lia).
  change (nth 0 (ow_t_eval ws0) 0) with x. rewrite <- Ht0.
  destruct Hsh as (Hw & _).
  rewrite (bdf_step_continuous fun_ jac lu_factor lu_solve fun_length
             lu_solve_length sfuel _ _ Hw); auto.
  - rewrite (interpolate_at_step_time (length (s_y (ow_stepper ws0)))).
    + unfold ws0, init_state; cbv zeta. cbn [ow_stepper].
      rewrite init_D. apply jget_0_cons.
    + apply Hw.
    + destruct Hw as (HL & _). eapply nonempty_of_length; exact HL.
  - rewrite Ho. unfold MAX_ORDER. lia.
  - lra.
Qed.
End Driver.

Section DriverOutputs.
Context {LUt : Type}.
Variable fun_ : R -> vec -> vec.
Variable jac : R -> vec -> matrix.
Variable lu_factor : matrix -> LUt.
Variable lu_solve : LUt -> vec -> vec.
Hypothesis fun_length : forall t y, length (fun_ t y) = length y.
Hypothesis lu_solve_length : forall LU b, length (lu_solve LU b) = length b.
Implicit Type st : state LUt.

Abbreviation body := (body_fun fun_ jac lu_factor lu_solve).
Abbreviation loop := (odeint_loop fun_ jac lu_factor lu_solve).
Abbreviation reaches := (reached fun_ jac lu_factor lu_solve).


End DriverOutputs.

(** ** A run of the integrator *)

Lemma init_forward :
  _bdf_init (fun_quadratic 0) (jac_quadratic 0) diag_factor 0 [0] 1 1 1
  = st_forward.
Proof.
  unfold _bdf_init, st_forward, scalar_state; cbv zeta.
  unfold _update_psi, _predict, set_psi, set_y0, set_scale_y0; simpl.
  f_equal.
  - unfold _select_initial_step; cbv zeta.
    replace (sqrt _) with 0.
    + unfold fpow. destruct (Req_dec_T 0 0) as [_|N]; [|contradiction].
      destruct (Rlt_dec (-1 / IZR (1 + 1)) 0) as [_|N];
        [|exfalso; apply N; simpl; lra].
      simpl. lra.
    + transitivity (sqrt 0); [symmetry; apply sqrt_0 | f_equal].
      unfold mean, vdiv, vsub, vadd, vadds, vscale, vabs, fun_quadratic; simpl.
      rewrite Rabs_R0. field.
  - rewrite fdiv_fin by lra. unfold fpow.
    destruct (Req_dec_T 1 0) as [N|_]; [lra|].
    rewrite Rpower_base_1. cbn [emin_fin emax]. f_equal.
    pose proof EPS_small.
    rewrite Rmin_left, Rmax_right by lra. reflexivity.
  - unfold fun_quadratic, jset, zeros; simpl. list_eq; lra.
  - unfold vadd, fun_quadratic, jset, zeros, colsum, mask_rows; simpl.
    list_eq; lra.
  - unfold vadd, vadds, vscale, vabs, fun_quadratic, jset, zeros, colsum,
      mask_rows; simpl. f_equal.
    match goal with |- context [Rabs ?x] => replace x with 1 by lra end.
    rewrite Rabs_pos_eq; lra.
  - unfold alpha_table, gamma_table, kappa_table, jget; simpl. field.
  - unfold jac_quadratic; simpl. list_eq; lra.
  - unfold diag_factor, msub, mscale, vsub, vscale, alpha_table, gamma_table,
      kappa_table, jget, jac_quadratic; simpl.
    list_eq; field.
  - unfold vadd, vscale, alpha_table, gamma_table, kappa_table, jget,
      fun_quadratic, jset, zeros, lincomb, colsum, mask_rows; simpl.
    list_eq. field.
Qed.

(** The first step: the prediction [y = 1] solves the equation at once. *)
Lemma newton_forward :
  _newton_iteration (fun_quadratic 0) diag_solve st_forward
  = (false, 1%Z, [1], [0]).
Proof.
  unfold _newton_iteration.
  change (Z.to_nat NEWTON_MAXITER) with 4%nat.
  change (s_y0 st_forward) with [1]. change (zeros (length [1])) with [0].
  newton_round 1 2 (200 / 237) (1 - 200 / 237 * 0) 1 0 0.
  rewrite newton_loop_S; change (newton_cond _) with false; cbv iota.
  cbn [nw_not_converged nw_k nw_y nw_d].
  replace (1 + (0 + 0)) with 1 by lra. replace (0 + 0) with 0 by lra.
  reflexivity.
Qed.

Lemma step_loop_forward :
  step_loop (fun_quadratic 0) (jac_quadratic 0) diag_factor diag_solve 1
            (mkStep st_forward false true [0] [0] (-1))
  = Some (mkStep st_forward true true [1] [0] 1).
Proof.
  cbn [step_loop sw_step_accepted negb].
  unfold step_body; cbv zeta.
  cbn [sw_state sw_step_accepted sw_not_updated_jacobian].
  rewrite newton_forward. cbn [andb].
  replace (error_norm_of st_forward [1] [0]) with 0.
  - unfold Rgtb; Rdecide. reflexivity.
  - unfold error_norm_of, scale_of, vdiv, vscale, vadds, vabs; simpl.
    rewrite rms_single. symmetry. apply Rabs_eq_pos; [lra|].
    unfold Rdiv; ring.
Qed.

Lemma bdf_step_forward :
  _bdf_step (fun_quadratic 0) (jac_quadratic 0) diag_factor diag_solve 1
            st_forward = Some st_forward_1.
Proof.
  unfold _bdf_step; cbv zeta.
  change (zeros (length (s_y st_forward))) with [0].
  rewrite step_loop_forward. cbv iota.
  cbn [sw_state sw_y sw_d sw_n_iter]. f_equal.
  unfold no_change_in_order, _update_difference_for_next_step, _update_psi,
    _predict, st_forward_1; simpl.
  unfold set_psi, set_y0, set_scale_y0; simpl.
  f_equal.
  - lra.
  - unfold jset, jadd, jget, vadd, vsub; simpl. list_eq; lra.
  - unfold jset, jadd, jget, vadd, vsub, colsum, mask_rows, zeros; simpl.
    list_eq; lra.
  - unfold jset, jadd, jget, vadd, vsub, vadds, vscale, vabs, colsum,
      mask_rows, zeros; simpl. f_equal.
    match goal with |- context [Rabs ?x] => replace x with 2 by lra end.
    rewrite Rabs_pos_eq; lra.
  - unfold jset, jadd, jget, vadd, vsub, vscale, lincomb, colsum, mask_rows,
      zeros, alpha_table, gamma_table, kappa_table; simpl.
    list_eq. field.
Qed.

(** The whole integration for the output times [0, 1]: the first step goes
    to [t = 100] and both outputs are interpolated from it. *)
Lemma init_state_forward :
  init_state (fun_quadratic 0) (jac_quadratic 0) diag_factor [0] [0; 1] 1 1
  = mkOde st_forward [0; 1] 0 [[0; 0]].
Proof.
  unfold init_state; cbv zeta.
  replace (jget 0 [0; 1] 1 - jget 0 [0; 1] 0) with 1
    by (unfold jget; simpl; lra).
  change (jget 0 [0; 1] 0) with 0.
  rewrite init_forward. reflexivity.
Qed.

Lemma odeint_loop_forward :
  odeint_loop (fun_quadratic 0) (jac_quadratic 0) diag_factor diag_solve 1 1
              (mkOde st_forward [0; 1] 0 [[0; 0]])
  = Some (mkOde st_forward_1 [0; 1] 2 [[0; 1 / 100]]).
Proof.
  cbn [odeint_loop cond_fun ow_i ow_t_eval length Nat.ltb Nat.leb].
  unfold body_fun. cbn [ow_stepper ow_t_eval ow_i ow_y_out].
  rewrite bdf_step_forward.
  unfold fill_outputs, fori_loop; cbv zeta.
  change (s_t st_forward_1) with 100.
  cbn [searchsorted]. Rdecide. cbn [Nat.sub seq fold_left for_body nth].
  cbn [cond_fun ow_i ow_t_eval length Nat.ltb Nat.leb ow_y_out].
  f_equal. f_equal.
  unfold _bdf_interpolate, set_column, jset, jget; simpl.
  unfold vadd; simpl. list_eq; field.
Qed.

Lemma integrate_forward :
  jax_bdf_integrate (fun_quadratic 0) (jac_quadratic 0) diag_factor diag_solve
                    1 1 [0] [0; 1] 1 1
  = Some [[0; 1 / 100]].
Proof.
  unfold jax_bdf_integrate, _bdf_odeint.
  rewrite init_state_forward, odeint_loop_forward. reflexivity.
Qed.

(** ** The derived quantities of a state *)

Section Derived.
Context {LUt : Type}.
Variable fun_ : R -> vec -> vec.
Variable jac : R -> vec -> matrix.
Variable lu_factor : matrix -> LUt.
Variable lu_solve : LUt -> vec -> vec.
Implicit Type st : state LUt.

(** Computing [psi], [y0] and [scale_y0] again changes nothing. *)
Lemma refresh_idempotent st :
  _predict (_update_psi (_predict (_update_psi st)))
  = _predict (_update_psi st).
Proof. reflexivity. Qed.

Lemma update_step_size_fresh st factor b :
  _predict (_update_psi (_update_step_size lu_factor st factor b))
  = _update_step_size lu_factor st factor b.
Proof. unfold _update_step_size; cbv zeta. apply refresh_idempotent. Qed.

Lemma bdf_step_fresh fuel st st' :
  _bdf_step fun_ jac lu_factor lu_solve fuel st = Some st' ->
  _predict (_update_psi st') = st'.
Proof.
  intros H.
  destruct (bdf_step_unfold _ _ _ _ _ _ _ H) as (ws & _ & ->).
  destruct (_ <? _)%Z.
  - unfold no_change_in_order, _update_difference_for_next_step; cbv zeta.
    cbn [negb]. apply refresh_idempotent.
  - rewrite order_change_unfold. apply update_step_size_fresh.
Qed.

Lemma init_fresh t0 y0 h0 rtol atol :
  _predict (_update_psi (_bdf_init fun_ jac lu_factor t0 y0 h0 rtol atol))
  = _bdf_init fun_ jac lu_factor t0 y0 h0 rtol atol.
Proof. reflexivity. Qed.
End Derived.

(** ** The initial state *)

Section Init.
Context {LUt : Type}.
Variable fun_ : R -> vec -> vec.
Variable jac : R -> vec -> matrix.
Variable lu_factor : matrix -> LUt.

(** For a positive guess and a non-negative radicand, the selected step is
    positive and at most 100 times the guess. *)
Lemma select_initial_step_range atol rtol t0 y0 f0 h0 :
  0 < h0 ->
  0 <= mean (vdiv (vsub (fun_ (t0 + h0) (vadd y0 (vscale h0 f0))) f0)
                  (vadds atol (vscale rtol (vabs y0)))) ->
  0 < _select_initial_step fun_ atol rtol t0 y0 f0 h0 <= 100 * h0.
Proof.
  intros Hh _. split; [|apply select_initial_step_cap].
  unfold _select_initial_step; cbv zeta.
  set (d2 := sqrt _). unfold fpow.
  destruct (Req_dec_T d2 0).
  - destruct (Rlt_dec (-1 / IZR (1 + 1)) 0) as [_|N];
      [|exfalso; apply N; simpl; lra].
    simpl. lra.
  - cbn [emul emin_fin].
    assert (0 < Rpower d2 (-1 / IZR (1 + 1))) by apply exp_pos.
    apply Rmin_glb_lt; [lra | nra].
Qed.

(** The state built by [_bdf_init]: order 1, no equal steps counted, the
    table holds [y0] in row 0 and the prediction is the Euler step with the
    guess [h0]; the factorisation is that of [I - c J] at [(t0, y0)]. *)
Lemma init_facts t0 y0 h0 rtol atol :
  length (fun_ t0 y0) = length y0 ->
  let st := _bdf_init fun_ jac lu_factor t0 y0 h0 rtol atol in
  well_shaped st
  /\ s_t st = t0 /\ s_y st = y0
  /\ s_order st = 1%Z /\ s_n_equal_steps st = 0%Z
  /\ jget [] (s_D st) 0 = y0
  /\ s_y0 st = vadd y0 (map (fun x => x * h0) (fun_ t0 y0))
  /\ s_J st = jac t0 y0
  /\ s_LU st = lu_factor (msub (s_I st) (mscale (s_c st) (s_J st))).
Proof.
  intros Hf; cbv zeta.
  assert (Hw : well_shaped (_bdf_init fun_ jac lu_factor t0 y0 h0 rtol atol)).
  { unfold _bdf_init; cbv zeta. apply well_shaped_refresh.
    - reflexivity.
    - cbn [s_D s_y]. unfold jset; simpl.
      repeat constructor; auto using length_zeros.
      rewrite length_map. exact Hf.
    - reflexivity. }
  split; [exact Hw|].
  do 4 (split; [reflexivity|]).
  split; [rewrite init_D; apply jget_0_cons|].
  split; [|split; reflexivity].
  destruct Hw as (_ & _ & _ & -> & _).
  rewrite init_D.
  change (s_y (_bdf_init fun_ jac lu_factor t0 y0 h0 rtol atol)) with y0.
  change (s_order (_bdf_init fun_ jac lu_factor t0 y0 h0 rtol atol)) with 1%Z.
  unfold mask_rows, colsum; simpl.
  rewrite !vadd_zeros_r by (rewrite ?length_zeros, ?length_map; lia).
  reflexivity.
Qed.
End Init.

(** ** The Python loops *)

Lemma arange_cons a b : (a < b)%Z -> arange a b = a :: arange (a + 1) b.
Proof.
  intros H. unfold arange.
  replace (Z.to_nat (b - a)) with (S (Z.to_nat (b - (a + 1)))) by lia.
  cbn [seq map]. f_equal; [lia|].
  rewrite <- seq_shift, map_map. apply map_ext. intros k. lia.
Qed.

Lemma arange_nil a b : (b <= a)%Z -> arange a b = [].
Proof.
  intros H. unfold arange. replace (Z.to_nat (b - a)) with 0%nat by lia.
  reflexivity.
Qed.

(** [flax_fori_loop] is the while loop over a counter. *)
Lemma fori_as_while {A : Type} fuel (start stop : Z) (body : Z -> A -> A)
      (init_val : A) :
  (Z.to_nat (stop - start) <= fuel)%nat ->
  flax_while_loop fuel (fun s => (fst s <? stop)%Z)
                  (fun s => ((fst s + 1)%Z, body (fst s) (snd s)))
                  (start, init_val)
  = Some (Z.max start stop, flax_fori_loop start stop body init_val).
Proof.
  revert start init_val.
  induction fuel as [|fuel IH]; intros start init_val Hf;
    cbn [flax_while_loop fst snd]; destruct (start <? stop)%Z eqn:E.
  - apply Z.ltb_lt in E. lia.
  - apply Z.ltb_ge in E. unfold flax_fori_loop.
    rewrite arange_nil by lia. cbn [fold_left]. f_equal. f_equal. lia.
  - apply Z.ltb_lt in E. rewrite IH by lia. unfold flax_fori_loop.
    rewrite (arange_cons start stop) by lia. cbn [fold_left].
    f_equal. f_equal. lia.
  - apply Z.ltb_ge in E. unfold flax_fori_loop.
    rewrite arange_nil by lia. cbn [fold_left]. f_equal. f_equal. lia.
Qed.

(** ** Two changes of the step size *)

(** Rescaling the table by [f] and then by [g] is rescaling it by
    [f * g]. *)
Lemma rescale_compose_rows n k (r0 r1 r2 r3 r4 r5 : vec) f g :
  length r0 = n -> length r1 = n -> length r2 = n -> length r3 = n ->
  length r4 = n -> length r5 = n -> (0 <= k <= 5)%Z ->
  matmul_T 6 n (masked_RU k g (compute_R 0 1))
    (matmul_T 6 n (masked_RU k f (compute_R 0 1)) [r0; r1; r2; r3; r4; r5])
  = matmul_T 6 n (masked_RU k (f * g) (compute_R 0 1))
             [r0; r1; r2; r3; r4; r5].
Proof.
  intros H0 H1 H2 H3 H4 H5 Hk.
  assert (Hc : (k = 0 \/ k = 1 \/ k = 2 \/ k = 3 \/ k = 4 \/ k = 5)%Z) by lia.
  destruct Hc as [-> | [-> | [-> | [-> | [-> | ->]]]]];
    unfold masked_RU, compute_R, matmul, matmul_T, lincomb, colsum, column;
    unfold cumprod; simpl; unfold vmul; simpl;
    fold vadd; fold (zeros n);
    name_coefficients;
    list_eq; vec_ext n i; unname_coefficients; field.
Qed.

Section Compose.
Context {LUt : Type}.
Variable lu_factor : matrix -> LUt.
Implicit Type st : state LUt.

(** [_update_step_size] as a function of the new step and the new table. *)
Lemma update_step_size_eq st factor :
  _update_step_size lu_factor st factor false
  = _predict
      (_update_psi
         (set_D
            (set_c
               (set_h
                  (set_LU (set_n_equal_steps st 0)
                     (lu_factor
                        (msub (s_I st)
                           (mscale
                              (s_h st * factor
                               * jget 0 (s_alpha st) (s_order st))
                              (s_J st)))))
                  (s_h st * factor))
               (s_h st * factor * jget 0 (s_alpha st) (s_order st)))
            (s_D (_update_step_size lu_factor st factor false)))).
Proof. reflexivity. Qed.

Lemma update_step_size_compose st f g :
  well_shaped st -> (0 <= s_order st <= MAX_ORDER)%Z ->
  _update_step_size lu_factor (_update_step_size lu_factor st f false) g false
  = _update_step_size lu_factor st (f * g) false.
Proof.
  intros (HL & HR & _ & _ & HU) Ho.
  destruct (rows6 _ _ HL HR)
    as (r0 & r1 & r2 & r3 & r4 & r5 & HD & H0 & H1 & H2 & H3 & H4 & H5).
  assert (ED : s_D (_update_step_size lu_factor
                      (_update_step_size lu_factor st f false) g false)
               = s_D (_update_step_size lu_factor st (f * g) false)).
  { rewrite !D_update_step_size.
    rewrite (y_update_step_size lu_factor), (order_update_step_size lu_factor).
    destruct (update_step_size_frame lu_factor st f false)
      as (_ & _ & _ & _ & _ & _ & _ & -> & _).
    rewrite HU, HD. apply rescale_compose_rows; auto. }
  rewrite (update_step_size_eq (_update_step_size lu_factor st f false)).
  rewrite (update_step_size_eq st (f * g)).
  rewrite ED.
  rewrite (h_update_step_size lu_factor), (order_update_step_size lu_factor).
  destruct (update_step_size_frame lu_factor st f false)
    as (_ & _ & _ & _ & _ & -> & -> & _ & -> & _).
  replace (s_h st * f * g) with (s_h st * (f * g)) by ring.
  reflexivity.
Qed.
End Compose.

(** ** Runs of several steps *)

Section Runs.
Context {LUt : Type}.
Variable fun_ : R -> vec -> vec.
Variable jac : R -> vec -> matrix.
Variable lu_factor : matrix -> LUt.
Variable lu_solve : LUt -> vec -> vec.
Implicit Type st : state LUt.

(** With a positive step and an order in range, every state reached lies
    later in time, and has a positive step and an order in range. *)
Lemma reached_forward sfuel st st' :
  (1 <= s_order st <= MAX_ORDER)%Z -> 0 < s_h st ->
  reached fun_ jac lu_factor lu_solve sfuel st st' ->
  s_t st < s_t st' /\ 0 < s_h st'
  /\ (1 <= s_order st' <= MAX_ORDER)%Z.
Proof.
  intros Ho Hh Hr. induction Hr as [st st' Hs | st st1 st' Hs Hr IH].
  - destruct (bdf_step_progress fun_ jac lu_factor lu_solve sfuel st st'
                ltac:(lia) Hh Hs) as [[Ht _] [Hh' _]].
    split; [exact Ht|]. split; [exact Hh'|].
    eapply step_keeps_order_in_range; eassumption.
  - destruct (bdf_step_progress fun_ jac lu_factor lu_solve sfuel st st1
                ltac:(lia) Hh Hs) as [[Ht _] [Hh' _]].
    pose proof (step_keeps_order_in_range fun_ jac lu_factor lu_solve
                  sfuel st st1 Ho Hs) as Ho1.
    destruct (IH Ho1 Hh') as (Ht1 & Hh1 & Ho').
    split; [lra|]. split; assumption.
Qed.
End Runs.

(** ** The order reached by a run *)

Lemma rsum_vscale c v : rsum (vscale c v) = c * rsum v.
Proof.
  unfold rsum, vscale. induction v as [|x v IH]; simpl; [ring|].
  rewrite IH. ring.
Qed.

Lemma vsq_vdiv_vscale a d s :
  vsq (vdiv (vscale a d) s) = vscale (a ^ 2) (vsq (vdiv d s)).
Proof.
  unfold vsq, vdiv, vscale. revert s.
  induction d as [|x d IH]; intros [|y s]; simpl; try reflexivity.
  rewrite IH. f_equal. unfold Rdiv. ring.
Qed.

Lemma mean_vsq_nonneg v : 0 <= mean (vsq v).
Proof.
  unfold mean. assert (Hs : 0 <= rsum (vsq v)).
  { unfold rsum, vsq. induction v as [|x v IH]; [simpl; lra|].
    cbn [map fold_right]. pose proof (pow2_ge_0 x). lra. }
  destruct (length (vsq v)) as [|n] eqn:E.
  - simpl. unfold Rdiv. rewrite Rinv_0. lra.
  - apply Rmult_le_pos; [exact Hs|].
    apply Rlt_le, Rinv_0_lt_compat, lt_0_INR. lia.
Qed.

(** The norm of a scaled error is the scaled norm. *)
Lemma rms_vscale a d s :
  rms (vdiv (vscale a d) s) = Rabs a * rms (vdiv d s).
Proof.
  unfold rms. rewrite vsq_vdiv_vscale.
  assert (Hm : mean (vscale (a ^ 2) (vsq (vdiv d s)))
               = Rsqr a * mean (vsq (vdiv d s))).
  { unfold mean. rewrite rsum_vscale, length_vscale.
    unfold Rsqr, Rdiv. ring. }
  rewrite Hm, sqrt_mult.
  - rewrite sqrt_Rsqr_abs. reflexivity.
  - apply Rle_0_sqr.
  - apply mean_vsq_nonneg.
Qed.

Lemma error_const_4 : jget 0 error_const_table 4 = 109 / 960.
Proof.
  unfold error_const_table, gamma_table, kappa_table, vadd, vmul, jget; simpl.
  field.
Qed.

Lemma error_const_5 : jget 0 error_const_table 5 = 1 / 6.
Proof.
  unfold error_const_table, gamma_table, kappa_table, vadd, vmul, jget; simpl.
  field.
Qed.

(** The factor of order 5 does not exceed that of order 4 when the error
    norm of order 5 is a multiple [k >= 1] of an error norm [e <= 1] of
    order 4. *)
Lemma factor_order5_below e k :
  0 <= e <= 1 -> 1 <= k ->
  ext_ltb (epow (Fin e) (-1 / IZR (1 + 4)))
          (epow (Fin (k * e)) (-1 / IZR (2 + 4))) = false.
Proof.
  intros [He0 He1] Hk. cbn [epow]. unfold fpow.
  replace (-1 / IZR (1 + 4)) with (- (1 / 5)) by (simpl; lra).
  replace (-1 / IZR (2 + 4)) with (- (1 / 6)) by (simpl; lra).
  destruct (Req_dec_T e 0) as [E0|E0].
  - destruct (Rlt_dec (- (1 / 5)) 0); [reflexivity | lra].
  - destruct (Req_dec_T (k * e) 0) as [Ek|Ek]; [exfalso; nra|].
    cbn [ext_ltb]. apply Rltb_false. apply Rle_not_lt.
    unfold Rpower.
    assert (Hle : ln e <= 0).
    { rewrite <- ln_1. destruct (Req_dec e 1) as [->|N]; [lra|].
      apply Rlt_le, ln_increasing; lra. }
    assert (Hlk : 0 <= ln k).
    { rewrite <- ln_1. destruct (Req_dec k 1) as [->|N]; [lra|].
      apply Rlt_le, ln_increasing; lra. }
    rewrite ln_mult by lra.
    destruct (Req_dec (- (1 / 6) * (ln k + ln e)) (- (1 / 5) * ln e))
      as [->|N]; [lra|].
    apply Rlt_le, exp_increasing. lra.
Qed.

Section OrderFour.
Context {LUt : Type}.
Variable lu_factor : matrix -> LUt.
Implicit Type st : state LUt.

(** At order 4 the table has no row [order + 2 = 6]: the update of that row
    is dropped and its read is clamped to row 5, which holds [d]. *)
Lemma update_difference_row6 st d :
  length (s_D st) = 6%nat -> s_order st = 4%Z ->
  jget [] (s_D (_update_difference_for_next_step st d true)) (4 + 2) = d.
Proof.
  intros HL Ho.
  unfold _update_difference_for_next_step; cbv zeta. cbn [negb s_D set_D].
  rewrite Ho.
  destruct (s_D st) as [|r0 [|r1 [|r2 [|r3 [|r4 [|r5 [|]]]]]]];
    try discriminate.
  reflexivity.
Qed.

(** The three factors at order 4: the error norm of order 5 is computed
    from [d], as that of order 4 is, with the error constant [1/6] in
    place of [109/960]. *)
Lemma order_factors_order4 st d y :
  length (s_D st) = 6%nat -> s_order st = 4%Z ->
  s_error_const st = error_const_table ->
  exists m,
    order_factors st d y
    = [epow m (-1 / IZR (0 + 4));
       epow (Fin (error_norm_of st y d)) (-1 / IZR (1 + 4));
       epow (Fin (160 / 109 * error_norm_of st y d)) (-1 / IZR (2 + 4))].
Proof.
  intros HL Ho He.
  pose proof (update_difference_row6 st d HL Ho) as Hrow.
  unfold order_factors; cbv zeta. rewrite Ho.
  change (4 >? 1)%Z with true. change (4 <? MAX_ORDER)%Z with true.
  cbv iota. eexists.
  change (arange 0 3) with [0; 1; 2]%Z. cbn [zipWith].
  list_eq; [reflexivity | reflexivity |].
  f_equal. f_equal.
  replace (s_error_const (_update_difference_for_next_step st d true))
    with (s_error_const st) by reflexivity.
  rewrite Hrow, He. unfold error_norm_of. rewrite He, Ho.
  change (4 + 1)%Z with 5%Z.
  rewrite !rms_vscale, error_const_4, error_const_5.
    rewrite !Rabs_pos_eq by lra. field.
Qed.

(** At order 4 the order is not raised after an accepted step: the factor
    of order 5 is below that of order 4, or both are infinite, and the
    first maximum is taken. *)
Lemma order_change_order4 st d y n_iter :
  length (s_D st) = 6%nat -> s_order st = 4%Z ->
  s_error_const st = error_const_table ->
  error_norm_of st y d <= 1 ->
  (s_order (order_change lu_factor st d y n_iter) <= 4)%Z.
Proof.
  intros HL Ho He Hn. rewrite order_change_order, Ho.
  destruct (order_factors_order4 st d y HL Ho He) as (m & ->).
  assert (H0 : 0 <= error_norm_of st y d) by apply rms_nonneg.
  pose proof (factor_order5_below (error_norm_of st y d) (160 / 109)
                (conj H0 Hn) ltac:(lra)) as Hbc.
  rewrite argmax3, Hbc.
  destruct (ext_ltb (epow m _) (epow (Fin (error_norm_of st y d)) _))
    eqn:Eab; [lia|].
  rewrite (ext_ltb_false_trans _ _ _ Eab Hbc). lia.
Qed.
End OrderFour.

Section StepFactors.
Context {LUt : Type}.
Variable fun_ : R -> vec -> vec.
Variable jac : R -> vec -> matrix.
Variable lu_factor : matrix -> LUt.
Variable lu_solve : LUt -> vec -> vec.
Implicit Type st : state LUt.

Abbreviation rounds := (step_loop fun_ jac lu_factor lu_solve).
Abbreviation bdf_step := (_bdf_step fun_ jac lu_factor lu_solve).

(** A step multiplies the step size by two positive factors: [f], the
    product of the factors of its rejections, with which the time advances,
    and [g], the factor of the order change (1 without one). *)
Lemma bdf_step_factors fuel st st' :
  (1 <= s_order st)%Z ->
  bdf_step fuel st = Some st' ->
  exists f g,
    0 < f <= 1 /\ 0 < g <= MAX_FACTOR
    /\ s_t st' = s_t st + s_h st * f
    /\ s_h st' = s_h st * f * g.
Proof.
  intros Ho H.
  destruct (bdf_step_unfold _ _ _ _ _ _ _ H) as (ws & Hloop & E).
  destruct (bdf_step_y_t _ _ _ _ _ _ _ _ Hloop E) as (_ & Et & _).
  destruct (step_loop_frame fun_ jac lu_factor lu_solve _ _ _ Hloop)
    as (_ & _ & Fo & _).
  pose proof Hloop as Hlh.
  apply step_loop_h in Hlh as (f & Hf & Eh); [|exact Ho].
  pose proof Hloop as Hacc.
  apply step_loop_accepted in Hacc as [Hn _]; [|reflexivity].
  apply newton_n_iter_pos in Hn.
  cbn [sw_state] in Fo, Eh.
  exists f. rewrite Et, Eh, E. unfold MAX_FACTOR. destruct (_ <? _)%Z.
  - exists 1. split; [exact Hf|]. split; [lra|]. split; [reflexivity|].
    unfold no_change_in_order.
    match goal with |- context [_update_difference_for_next_step ?s ?d ?b] =>
      destruct (update_difference_frame s d b) as (_ & _ & -> & _)
    end.
    cbn [s_h set_n_equal_steps set_t set_y]. rewrite Eh. ring.
  - eexists. split; [exact Hf|].
    rewrite order_change_unfold, h_update_step_size.
    cbn [s_h set_order].
    match goal with |- context [_update_difference_for_next_step ?s ?d ?b] =>
      destruct (update_difference_frame s d b) as (_ & _ & -> & _)
    end.
    cbn [s_h set_n_equal_steps set_t set_y]. rewrite Eh.
    split; [|split; reflexivity].
    apply order_change_factor_range; [|exact Hn].
    cbn [s_order set_n_equal_steps set_t set_y]. rewrite Fo; exact Ho.
Qed.

(** A non-zero step stays non-zero. *)
Lemma bdf_step_h_nonzero fuel st st' :
  (1 <= s_order st)%Z -> s_h st <> 0 ->
  bdf_step fuel st = Some st' -> s_h st' <> 0.
Proof.
  intros Ho Hh H.
  destruct (bdf_step_factors fuel st st' Ho H)
    as (f & g & Hf & Hg & _ & ->).
  unfold MAX_FACTOR in Hg.
  apply Rmult_integral_contrapositive_currified; [|lra].
  apply Rmult_integral_contrapositive_currified; lra.
Qed.

(** With a negative step the time moves backwards and the step stays
    negative. *)
Lemma bdf_step_backwards fuel st st' :
  (1 <= s_order st)%Z -> s_h st < 0 ->
  bdf_step fuel st = Some st' ->
  s_t st' < s_t st /\ s_h st' < 0.
Proof.
  intros Ho Hh H.
  destruct (bdf_step_factors fuel st st' Ho H)
    as (f & g & Hf & Hg & -> & ->).
  unfold MAX_FACTOR in Hg.
  assert (Hhf : s_h st * f < 0) by nra.
  split; [lra | nra].
Qed.

(** *** The error constants are kept *)

Lemma step_loop_error_const fuel ws ws' :
  rounds fuel ws = Some ws' ->
  s_error_const (sw_state ws') = s_error_const (sw_state ws).
Proof.
  intros H.
  apply (step_loop_invariant fun_ jac lu_factor lu_solve
           (fun w => s_error_const (sw_state w)
                     = s_error_const (sw_state ws)) fuel ws ws'); auto.
  intros w Hw _. rewrite <- Hw.
  destruct (step_body_cases fun_ jac lu_factor lu_solve w)
    as (nc & n_iter & y & d & _ & _ & _ & _ & Hc).
  destruct Hc as [(_ & _ & -> & _) | [(_ & _ & -> & _)
                 | [(_ & _ & -> & _) | (_ & _ & -> & _)]]];
    try reflexivity;
    match goal with |- context [_update_step_size _ ?s ?f ?b] =>
      destruct (update_step_size_frame lu_factor s f b)
        as (_ & _ & _ & _ & _ & _ & _ & _ & _ & -> & _)
    end; reflexivity.
Qed.

Lemma bdf_step_error_const fuel st st' :
  bdf_step fuel st = Some st' -> s_error_const st' = s_error_const st.
Proof.
  intros H.
  destruct (bdf_step_unfold _ _ _ _ _ _ _ H) as (ws & Hloop & E).
  apply step_loop_error_const in Hloop. cbn [sw_state] in Hloop.
  rewrite <- Hloop, E. destruct (_ <? _)%Z.
  - unfold no_change_in_order, _update_difference_for_next_step; reflexivity.
  - rewrite order_change_unfold.
    match goal with |- context [_update_step_size _ ?s ?f ?b] =>
      destruct (update_step_size_frame lu_factor s f b)
        as (_ & _ & _ & _ & _ & _ & _ & _ & _ & -> & _)
    end.
    reflexivity.
Qed.

(** *** Below the maximal order *)

Hypothesis fun_length : forall t y, length (fun_ t y) = length y.
Hypothesis lu_solve_length : forall LU b, length (lu_solve LU b) = length b.

(** A step from an order in [[1, MAX_ORDER - 1]] ends at such an order: the
    order is raised from below 4 at most to 4, and not raised at 4. *)
Lemma bdf_step_order_below_max fuel st st' :
  well_shaped st -> s_error_const st = error_const_table ->
  (1 <= s_order st <= MAX_ORDER - 1)%Z ->
  bdf_step fuel st = Some st' ->
  (1 <= s_order st' <= MAX_ORDER - 1)%Z.
Proof.
  intros Hw He Ho H.
  assert (Hlow : (1 <= s_order st' <= MAX_ORDER)%Z).
  { apply (step_keeps_order_in_range fun_ jac lu_factor lu_solve fuel st);
      [unfold MAX_ORDER in *; lia | exact H]. }
  split; [lia|].
  destruct (bdf_step_unfold _ _ _ _ _ _ _ H) as (ws & Hloop & E).
  destruct (step_loop_frame fun_ jac lu_factor lu_solve _ _ _ Hloop)
    as (_ & _ & Fo & _).
  pose proof (step_loop_error_const _ _ _ Hloop) as Fe.
  pose proof Hloop as Hacc.
  apply step_loop_accepted in Hacc as [_ Hn]; [|reflexivity].
  pose proof Hloop as Hsh.
  apply (step_loop_shape fun_ jac lu_factor lu_solve fun_length
           lu_solve_length) in Hsh as ((HL & _) & _); [|exact Hw|reflexivity].
  cbn [sw_state] in Fo, Fe.
  unfold MAX_ORDER in *. rewrite E. destruct (_ <? _)%Z.
  - unfold no_change_in_order. rewrite order_update_difference.
    cbn [s_order set_n_equal_steps set_t set_y]. lia.
  - destruct (Z.eq_dec (s_order st) 4) as [E4|N4].
    + apply order_change_order4.
      * exact HL.
      * cbn [s_order set_n_equal_steps set_t set_y]. lia.
      * cbn [s_error_const set_n_equal_steps set_t set_y]. congruence.
      * exact Hn.
    + rewrite order_change_order.
      cbn [s_order set_n_equal_steps set_t set_y].
      match goal with |- context [argmax ?l] =>
        assert (Ha : (argmax l < 3)%nat)
      end.
      { match goal with |- context [order_factors ?s ?d ?y] =>
          destruct (order_factors_shape s d y) as (m & e & p & -> & _)
        end. apply argmax3_lt. }
      lia.
Qed.
End StepFactors.

Section RegularRuns.
Context {LUt : Type}.
Variable fun_ : R -> vec -> vec.
Variable jac : R -> vec -> matrix.
Variable lu_factor : matrix -> LUt.
Variable lu_solve : LUt -> vec -> vec.
Implicit Type st : state LUt.

(** With a negative step, every state reached lies earlier in time and has
    a negative step. *)
Lemma reached_backwards sfuel st st' :
  (1 <= s_order st <= MAX_ORDER)%Z -> s_h st < 0 ->
  reached fun_ jac lu_factor lu_solve sfuel st st' ->
  s_t st' < s_t st /\ s_h st' < 0.
Proof.
  intros Ho Hh Hr. induction Hr as [st st' Hs | st st1 st' Hs Hr IH].
  - apply (bdf_step_backwards fun_ jac lu_factor lu_solve sfuel st st');
      [lia | exact Hh | exact Hs].
  - destruct (bdf_step_backwards fun_ jac lu_factor lu_solve sfuel st st1
                ltac:(lia) Hh Hs) as [Ht Hh1].
    pose proof (step_keeps_order_in_range fun_ jac lu_factor lu_solve
                  sfuel st st1 Ho Hs) as Ho1.
    destruct (IH Ho1 Hh1) as [Ht1 Hh']. split; [lra | exact Hh'].
Qed.

(** The step [_select_initial_step] returns for a negative guess and a
    positive root [d2]. *)
Lemma select_initial_step_negative atol rtol t0 y0 f0 h0 :
  h0 < 0 ->
  0 < mean (vdiv (vsub (fun_ (t0 + h0) (vadd y0 (vscale h0 f0))) f0)
                 (vadds atol (vscale rtol (vabs y0)))) ->
  _select_initial_step fun_ atol rtol t0 y0 f0 h0
  = Rmin (100 * h0)
         (h0 * Rpower (sqrt (mean (vdiv (vsub (fun_ (t0 + h0)
                                                 (vadd y0 (vscale h0 f0)))
                                              f0)
                                        (vadds atol
                                               (vscale rtol (vabs y0))))))
                      (-1 / 2))
  /\ _select_initial_step fun_ atol rtol t0 y0 f0 h0 < 0.
Proof.
  intros Hh Hm. unfold _select_initial_step; cbv zeta.
  set (m := mean _) in *.
  assert (Hd : 0 < sqrt m) by (apply sqrt_lt_R0; exact Hm).
  unfold fpow. destruct (Req_dec_T (sqrt m) 0) as [E|_]; [lra|].
  cbn [emul emin_fin].
  replace (-1 / IZR (1 + 1)) with (-1 / 2) by (simpl; lra).
  assert (Hp : 0 < Rpower (sqrt m) (-1 / 2)) by apply exp_pos.
  rewrite (Rmult_comm (Rpower _ _) h0). split; [reflexivity|].
  apply Rle_lt_trans with (100 * h0); [apply Rmin_l | lra].
Qed.

Hypothesis fun_length : forall t y, length (fun_ t y) = length y.
Hypothesis lu_solve_length : forall LU b, length (lu_solve LU b) = length b.

(** One step from a state of the kind [_bdf_init] builds, at an order
    below [MAX_ORDER] and with a non-zero step, ends in such a state. *)
Lemma bdf_step_regular fuel st st' :
  well_shaped st -> s_error_const st = error_const_table ->
  (1 <= s_order st <= MAX_ORDER - 1)%Z -> s_h st <> 0 ->
  _bdf_step fun_ jac lu_factor lu_solve fuel st = Some st' ->
  _bdf_interpolate st' (s_t st') = s_y st'
  /\ s_h st' <> 0
  /\ (1 <= s_order st' <= MAX_ORDER - 1)%Z
  /\ well_shaped st' /\ s_error_const st' = error_const_table.
Proof.
  intros Hw He Ho Hh H.
  destruct (step_interpolates_accepted_state fun_ jac lu_factor lu_solve
              fun_length lu_solve_length fuel st st' Hw ltac:(lia) H)
    as [Hi Hw'].
  split; [exact Hi|].
  split; [apply (bdf_step_h_nonzero fun_ jac lu_factor lu_solve fuel st);
          [lia | exact Hh | exact H]|].
  split; [apply (bdf_step_order_below_max fun_ jac lu_factor lu_solve
                   fun_length lu_solve_length fuel st); assumption|].
  split; [exact Hw'|].
  rewrite (bdf_step_error_const fun_ jac lu_factor lu_solve fuel st st' H).
  exact He.
Qed.

Lemma reached_regular sfuel st st' :
  well_shaped st -> s_error_const st = error_const_table ->
  (1 <= s_order st <= MAX_ORDER - 1)%Z -> s_h st <> 0 ->
  reached fun_ jac lu_factor lu_solve sfuel st st' ->
  _bdf_interpolate st' (s_t st') = s_y st'
  /\ s_h st' <> 0
  /\ (1 <= s_order st' <= MAX_ORDER - 1)%Z
  /\ well_shaped st' /\ s_error_const st' = error_const_table.
Proof.
  intros Hw He Ho Hh Hr.
  induction Hr as [st st' Hs | st st1 st' Hs Hr IH].
  - apply (bdf_step_regular sfuel st); assumption.
  - destruct (bdf_step_regular sfuel st st1 Hw He Ho Hh Hs)
      as (_ & Hh1 & Ho1 & Hw1 & He1).
    apply IH; assumption.
Qed.
End RegularRuns.

(** ** Runs from the initial state *)

Section RunTheorems.
Context {LUt : Type}.
Variable fun_ : R -> vec -> vec.
Variable jac : R -> vec -> matrix.
Variable lu_factor : matrix -> LUt.
Variable lu_solve : LUt -> vec -> vec.
Implicit Type st : state LUt.

(** C7 (amended).  A descending start of the output times is integrated,
    backwards.  For a negative guess [h0 = t_eval[1] - t_eval[0]] (which
    takes two output times), error scales that are not zero and a positive
    mean under the root of [_select_initial_step], the state handed to the
    loop of [_bdf_odeint] is at [t_eval[0]] with the negative step
    [min(100 h0, h0 d2 ** (-1/2))] and the order 1, the test of the loop
    holds, so that [_bdf_step] is run on this state, and every state the
    steps reach from it lies before [t_eval[0]] and has a negative step. *)
Theorem negative_step_is_integrated sfuel y0 t_eval rtol atol :
  let t0 := jget 0 t_eval 0 in
  let h0 := jget 0 t_eval 1 - t0 in
  let f0 := fun_ t0 y0 in
  let scale := vadds atol (vscale rtol (vabs y0)) in
  let f1 := fun_ (t0 + h0) (vadd y0 (vscale h0 f0)) in
  let d2 := sqrt (mean (vdiv (vsub f1 f0) scale)) in
  let ws := init_state fun_ jac lu_factor y0 t_eval rtol atol in
  h0 < 0 -> Forall (fun s => s <> 0) scale ->
  0 < mean (vdiv (vsub f1 f0) scale) ->
  (2 <= length t_eval)%nat
  /\ cond_fun ws = true
  /\ s_t (ow_stepper ws) = t0
  /\ s_order (ow_stepper ws) = 1%Z
  /\ s_h (ow_stepper ws) = Rmin (100 * h0) (h0 * Rpower d2 (-1 / 2))
  /\ s_h (ow_stepper ws) < 0
  /\ (forall st',
        reached fun_ jac lu_factor lu_solve sfuel (ow_stepper ws) st' ->
        s_t st' < t0 /\ s_h st' < 0).
Proof.
  cbv zeta. intros Hh _ Hm.
  assert (Hlen : (2 <= length t_eval)%nat).
  { destruct t_eval as [|a [|b l]]; simpl; try lia;
      unfold jget in Hh; simpl in Hh; lra. }
  split; [exact Hlen|].
  split.
  { unfold cond_fun, init_state; cbn [ow_i ow_t_eval].
    apply Nat.ltb_lt. lia. }
  unfold init_state; cbv zeta. cbn [ow_stepper].
  split; [reflexivity|]. split; [reflexivity|].
  destruct (select_initial_step_negative fun_ atol rtol (jget 0 t_eval 0) y0
              (fun_ (jget 0 t_eval 0) y0)
              (jget 0 t_eval 1 - jget 0 t_eval 0) Hh Hm) as [E Hneg].
  rewrite init_h. split; [exact E|]. split; [exact Hneg|].
  intros st' Hr.
  apply (reached_backwards fun_ jac lu_factor lu_solve sfuel _ st') in Hr.
  - exact Hr.
  - rewrite init_order. unfold MAX_ORDER. lia.
  - rewrite init_h. exact Hneg.
Qed.

(** C5.  After every accepted step the interpolant at the accepted time is
    the accepted [y].  The states are those reached by steps from a state of
    the kind [_bdf_init] builds (well shaped, with its error constants, at
    an order from 1 to [MAX_ORDER - 1]) whose step is not zero: row 0 of the
    table is [y0 + d = y] after the update of the differences, a change of
    the step size keeps row 0, and the first time factor of the interpolant
    is [0 / h = 0].  The order stays below [MAX_ORDER] on the way: at order
    4 the error norm of order 5 is read from the clamped row 6, that is
    from [d], and the order is not raised. *)
Theorem accepted_state_is_interpolated sfuel st st' :
  (forall t y, length (fun_ t y) = length y) ->
  (forall LU b, length (lu_solve LU b) = length b) ->
  well_shaped st -> s_error_const st = error_const_table ->
  (1 <= s_order st <= MAX_ORDER - 1)%Z -> s_h st <> 0 ->
  reached fun_ jac lu_factor lu_solve sfuel st st' ->
  _bdf_interpolate st' (s_t st') = s_y st'
  /\ s_h st' <> 0
  /\ (1 <= s_order st' <= MAX_ORDER - 1)%Z
  /\ well_shaped st' /\ s_error_const st' = error_const_table.
Proof.
  intros Hf Hs Hw He Ho Hh Hr.
  exact (reached_regular fun_ jac lu_factor lu_solve Hf Hs sfuel st st'
           Hw He Ho Hh Hr).
Qed.
End RunTheorems.

(** ** The states of the run for dy/dt = 1 *)

Lemma st_forward_well_shaped : well_shaped st_forward.
Proof.
  rewrite <- init_forward.
  apply init_well_shaped. apply fun_quadratic_length.
Qed.

Lemma st_forward_1_well_shaped : well_shaped st_forward_1.
Proof.
  apply (bdf_step_shape (fun_quadratic 0) (jac_quadratic 0) diag_factor
           diag_solve (fun_quadratic_length 0) diag_solve_length
           1 st_forward st_forward_1 st_forward_well_shaped bdf_step_forward).
Qed.

(** * Further properties of the code *)

(** ** Changes of the step size *)

Section StepSizeChange.
Context {LUt : Type}.
Variable lu_factor : matrix -> LUt.
Implicit Type st : state LUt.

(** X1.  A change of the step size does not change the dense output: for a
    state of the shape [_bdf_init] builds, an order in [[0, MAX_ORDER]], a
    non-zero step and a non-zero factor, the interpolant of the state
    returned by [_update_step_size] is, at every time, the interpolant of
    the state it was given.  The matrix [R U] of [compute_R] turns the
    backward differences on the grid of spacing [h] into those of the same
    polynomial on the grid of spacing [h * factor]. *)
Theorem rescaling_keeps_interpolant st factor dont_update_lu t_eval :
  well_shaped st -> (0 <= s_order st <= MAX_ORDER)%Z ->
  s_h st <> 0 -> factor <> 0 ->
  _bdf_interpolate (_update_step_size lu_factor st factor dont_update_lu)
                   t_eval
  = _bdf_interpolate st t_eval.
Proof.
  intros (HL & HR & _ & _ & HU) Ho Hh Hf.
  apply update_step_size_interpolate; assumption.
Qed.

(** X2.  Two changes of the step size compose: changing it by [f] and then
    by [g] gives the state that one change by [f * g] gives (difference
    table, step, [c], factorisation, [psi] and prediction included). *)
Theorem rescalings_compose st f g :
  well_shaped st -> (0 <= s_order st <= MAX_ORDER)%Z ->
  _update_step_size lu_factor (_update_step_size lu_factor st f false) g false
  = _update_step_size lu_factor st (f * g) false.
Proof.
  intros Hw Ho. apply update_step_size_compose; assumption.
Qed.

(** X3.  A change by the factor 1 keeps the difference table and the step:
    [R U] is then [U U], the identity on the rows up to the order. *)
Theorem unit_rescaling_keeps_table st dont_update_lu :
  well_shaped st -> (0 <= s_order st <= MAX_ORDER)%Z ->
  s_D (_update_step_size lu_factor st 1 dont_update_lu) = s_D st
  /\ s_h (_update_step_size lu_factor st 1 dont_update_lu) = s_h st.
Proof.
  intros (HL & HR & _ & _ & HU) Ho. split.
  - apply update_step_size_one; assumption.
  - rewrite h_update_step_size. apply Rmult_1_r.
Qed.

(** X4.  Whatever the factor and the order, a change of the step size
    leaves row 0 of the difference table (the current solution), the time
    and [y] as they are, resets the count of equal steps, and returns a
    state of the same shape. *)
Theorem rescaling_keeps_current_solution st factor dont_update_lu :
  well_shaped st ->
  let st' := _update_step_size lu_factor st factor dont_update_lu in
  jget [] (s_D st') 0 = jget [] (s_D st) 0
  /\ s_t st' = s_t st /\ s_y st' = s_y st
  /\ s_n_equal_steps st' = 0%Z
  /\ well_shaped st'.
Proof.
  intros (HL & HR & Hpsi & Hy0 & HU); cbv zeta.
  split; [rewrite D_update_step_size, HU; apply rescale_row0; assumption|].
  split; [apply t_update_step_size|].
  split; [apply y_update_step_size|].
  split; [apply update_step_size_n_equal_steps|].
  apply update_step_size_shape; assumption.
Qed.
End StepSizeChange.

(** X5.  The prediction is the dense output one step ahead: for a state of
    the shape [_bdf_init] builds, with an order in [[0, MAX_ORDER]] and a
    non-zero step, the interpolant at [t + h] is the [y0] that [_predict]
    computes, which is the [y0] the state holds. *)
Theorem prediction_is_extrapolated_interpolant {LUt} (st : state LUt) :
  well_shaped st -> (0 <= s_order st <= MAX_ORDER)%Z -> s_h st <> 0 ->
  _bdf_interpolate st (s_t st + s_h st) = s_y0 (_predict st)
  /\ s_y0 (_predict st) = s_y0 st.
Proof.
  intros (HL & HR & _ & Hy0 & _) Ho Hh.
  split; [apply interpolate_at_next_time; assumption|].
  symmetry; exact Hy0.
Qed.

(** X6.  The update of the difference table computes backward differences:
    at an order below [MAX_ORDER], row [order + 1] becomes [d], every row
    [j <= order] becomes its old value plus the new row [j + 1], the rows
    above [order + 2] are kept, and row [order + 2], where the table has
    it, becomes [d] minus the old row [order + 1]. *)
Theorem difference_update_is_backward_difference {LUt} (st : state LUt) d
        only_update_D :
  well_shaped st -> length d = length (s_y st) ->
  (0 <= s_order st <= MAX_ORDER - 1)%Z ->
  let D := s_D st in
  let D' := s_D (_update_difference_for_next_step st d only_update_D) in
  jget [] D' (s_order st + 1) = d
  /\ (forall j, (0 <= j <= s_order st)%Z ->
                jget [] D' j = vadd (jget [] D j) (jget [] D' (j + 1)))
  /\ (forall j, (s_order st + 2 < j <= MAX_ORDER)%Z ->
                jget [] D' j = jget [] D j)
  /\ ((s_order st + 2 <= MAX_ORDER)%Z ->
      jget [] D' (s_order st + 2) = vsub d (jget [] D (s_order st + 1))).
Proof.
  intros (HL & HR & _) Hd Ho; cbv zeta.
  rewrite D_update_difference.
  destruct (update_difference_rows (length (s_y st)) (s_D st) d (s_order st)
              HL HR Hd Ho) as (H1 & H2 & H3 & H4).
  unfold MAX_ORDER in *.
  split; [exact H1|]. split; [exact H2|]. split; [exact H3|].
  intros H; apply H4; lia.
Qed.

(** ** The Newton iteration *)

Section NewtonIteration.
Context {LUt : Type}.
Variable fun_ : R -> vec -> vec.
Variable lu_solve : LUt -> vec -> vec.
Implicit Type st : state LUt.

(** X7.  The iteration count returned by [_newton_iteration] lies between
    1 and [NEWTON_MAXITER + 1], and the iteration is reported as not
    converged exactly when the count is [NEWTON_MAXITER + 1]. *)
Theorem newton_iteration_count_range st not_converged n_iter y d :
  _newton_iteration fun_ lu_solve st = (not_converged, n_iter, y, d) ->
  (1 <= n_iter <= NEWTON_MAXITER + 1)%Z
  /\ (not_converged = true <-> n_iter = (NEWTON_MAXITER + 1)%Z).
Proof. apply newton_iteration_count. Qed.

(** X8.  The first iteration compares with the norm [dy_norm_old = -1]:
    its rate is not positive, so it declares convergence only when the
    first correction has norm 0.  [_newton_iteration] returns the count 1
    exactly in that case, and then reports convergence with [d] the first
    correction and [y = y0 + d]. *)
Theorem newton_first_iteration_converges_only_at_zero st not_converged n_iter
        y d :
  let dy :=
    lu_solve (s_LU st)
      (vsub (vsub (vscale (s_c st) (fun_ (s_t st + s_h st) (s_y0 st)))
                  (s_psi st))
            (zeros (length (s_y0 st)))) in
  _newton_iteration fun_ lu_solve st = (not_converged, n_iter, y, d) ->
  (n_iter = 1%Z <-> rms (vdiv dy (s_scale_y0 st)) = 0)
  /\ (n_iter = 1%Z ->
      not_converged = false /\ d = vadd (zeros (length (s_y0 st))) dy
      /\ y = vadd (s_y0 st) d).
Proof. apply newton_single_iteration. Qed.
End NewtonIteration.

(** ** A step of the integrator *)

Section Step.
Context {LUt : Type}.
Variable fun_ : R -> vec -> vec.
Variable jac : R -> vec -> matrix.
Variable lu_factor : matrix -> LUt.
Variable lu_solve : LUt -> vec -> vec.
Implicit Type st : state LUt.

(** X9.  A step is accepted only on a converged Newton iteration whose
    error norm is at most 1: the [y] of the state [_bdf_step] returns is
    the result of [_newton_iteration] on a state [sa] with the time, the
    [y] and the order of the state given (the retry loop changes the step
    size, the table and the Jacobian), the iteration converged, its error
    norm is at most 1, and the new time is the old one plus the step of
    [sa]. *)
Theorem accepted_step_meets_tolerance fuel st st' :
  _bdf_step fun_ jac lu_factor lu_solve fuel st = Some st' ->
  exists sa n_iter d,
    s_t sa = s_t st /\ s_y sa = s_y st /\ s_order sa = s_order st
    /\ _newton_iteration fun_ lu_solve sa = (false, n_iter, s_y st', d)
    /\ error_norm_of sa (s_y st') d <= 1
    /\ s_t st' = s_t st + s_h sa.
Proof. apply bdf_step_accepted. Qed.

(** X10.  With a positive step and an order of at least 1, a step moves
    the time forward by at most the step it was given, and leaves a
    positive step of at most [MAX_FACTOR] times that step. *)
Theorem step_advances_time fuel st st' :
  (1 <= s_order st)%Z -> 0 < s_h st ->
  _bdf_step fun_ jac lu_factor lu_solve fuel st = Some st' ->
  s_t st < s_t st' <= s_t st + s_h st
  /\ 0 < s_h st' <= MAX_FACTOR * s_h st.
Proof. apply bdf_step_progress. Qed.

(** X11.  The order changes only after [order + 1] steps at the same order
    and step size.  With the order in [[1, MAX_ORDER]] and
    [0 <= n_equal_steps <= order], a step keeps
    [0 <= n_equal_steps <= order], moves the order by at most one, keeps
    the order while [n_equal_steps < order], and resets [n_equal_steps]
    to 0 whenever it changes the order. *)
Theorem order_changes_after_enough_equal_steps fuel st st' :
  (1 <= s_order st <= MAX_ORDER)%Z ->
  (0 <= s_n_equal_steps st <= s_order st)%Z ->
  _bdf_step fun_ jac lu_factor lu_solve fuel st = Some st' ->
  (0 <= s_n_equal_steps st' <= s_order st')%Z
  /\ (s_order st - 1 <= s_order st' <= s_order st + 1)%Z
  /\ ((s_n_equal_steps st < s_order st)%Z ->
      s_order st' = s_order st /\ (1 <= s_n_equal_steps st')%Z)
  /\ (s_order st' <> s_order st -> s_n_equal_steps st' = 0%Z).
Proof. apply bdf_step_order_schedule. Qed.

(** X12.  The factorisation follows [c] and [J]: if the state given holds
    the factorisation of [I - c J], so does the state returned, and the
    Jacobian of the state returned is the one given or [jac] at the point
    [(t, y)] the step started from. *)
Theorem factorisation_follows_jacobian fuel st st' :
  s_LU st = lu_factor (msub (s_I st) (mscale (s_c st) (s_J st))) ->
  _bdf_step fun_ jac lu_factor lu_solve fuel st = Some st' ->
  s_LU st' = lu_factor (msub (s_I st') (mscale (s_c st') (s_J st')))
  /\ (s_J st' = s_J st \/ s_J st' = jac (s_t st) (s_y st)).
Proof. apply bdf_step_jacobian. Qed.

(** X13.  The state a step returns holds the [psi], [y0] and [scale_y0] of
    its own table and order: computing them again with [_update_psi] and
    [_predict] changes nothing (the order change first updates the table
    alone, and the change of the step size that follows refreshes them). *)
Theorem step_returns_fresh_prediction fuel st st' :
  _bdf_step fun_ jac lu_factor lu_solve fuel st = Some st' ->
  _predict (_update_psi st') = st'.
Proof. apply bdf_step_fresh. Qed.

(** X14.  For a right-hand side and a linear solve that keep the length of
    their argument, a step begun with a step size that is not zero, at an
    order from 1 to [MAX_ORDER - 1], ends in a state whose step size is not
    zero, whose interpolant at its own time is its [y], and which has the
    shape [_bdf_init] builds. *)
Theorem dense_output_reaches_accepted_state fuel st st' :
  (forall t y, length (fun_ t y) = length y) ->
  (forall LU b, length (lu_solve LU b) = length b) ->
  well_shaped st -> (1 <= s_order st <= MAX_ORDER - 1)%Z -> s_h st <> 0 ->
  _bdf_step fun_ jac lu_factor lu_solve fuel st = Some st' ->
  s_h st' <> 0
  /\ _bdf_interpolate st' (s_t st') = s_y st' /\ well_shaped st'.
Proof.
  intros Hf Hs Hw Ho Hh H.
  split; [apply (bdf_step_h_nonzero fun_ jac lu_factor lu_solve fuel st);
          [lia | exact Hh | exact H]|].
  apply (step_interpolates_accepted_state fun_ jac lu_factor lu_solve Hf Hs
           fuel st st' Hw); [lia | exact H].
Qed.

(** X15.  The dense output is continuous across a step: for such a
    right-hand side and linear solve, an order in [[1, MAX_ORDER]] and a
    non-zero step, the interpolant of the state returned and the
    interpolant of the state given agree at the time the step started
    from (also when the step changes the order or the step size). *)
Theorem dense_output_is_continuous fuel st st' :
  (forall t y, length (fun_ t y) = length y) ->
  (forall LU b, length (lu_solve LU b) = length b) ->
  well_shaped st -> (1 <= s_order st <= MAX_ORDER)%Z -> s_h st <> 0 ->
  _bdf_step fun_ jac lu_factor lu_solve fuel st = Some st' ->
  _bdf_interpolate st' (s_t st) = _bdf_interpolate st (s_t st).
Proof.
  intros Hf Hs Hw Ho Hh H.
  exact (bdf_step_continuous fun_ jac lu_factor lu_solve Hf Hs fuel st st'
           Hw Ho Hh H).
Qed.

(** X16.  With a positive step and an order in [[1, MAX_ORDER]], every
    state reached by steps of the integrator lies later in time and has a
    positive step and an order in [[1, MAX_ORDER]]. *)
Theorem forward_run_is_monotone sfuel st st' :
  (1 <= s_order st <= MAX_ORDER)%Z -> 0 < s_h st ->
  reached fun_ jac lu_factor lu_solve sfuel st st' ->
  s_t st < s_t st' /\ 0 < s_h st'
  /\ (1 <= s_order st' <= MAX_ORDER)%Z.
Proof. apply reached_forward. Qed.

(** ** The initial state *)

(** X17.  For a positive guess [h0], error scales that are not zero and a
    non-negative mean under the root (the source takes the root of the mean
    of [(f1 - f0) / scale] itself, not of its square), the step
    [_select_initial_step] returns is positive and at most 100 times the
    guess. *)
Theorem initial_step_range atol rtol t0 y0 f0 h0 :
  0 < h0 -> y0 <> [] ->
  length f0 = length y0 ->
  length (fun_ (t0 + h0) (vadd y0 (vscale h0 f0))) = length y0 ->
  Forall (fun s => s <> 0) (vadds atol (vscale rtol (vabs y0))) ->
  0 <= mean (vdiv (vsub (fun_ (t0 + h0) (vadd y0 (vscale h0 f0))) f0)
                  (vadds atol (vscale rtol (vabs y0)))) ->
  0 < _select_initial_step fun_ atol rtol t0 y0 f0 h0 <= 100 * h0.
Proof.
  intros Hh _ _ _ _ Hm. apply select_initial_step_range; assumption.
Qed.

(** X18.  The state [_bdf_init] builds, for a right-hand side that returns
    a vector of the length of [y0]: it has the shape the other theorems
    ask for, the time [t0], [y = y0], the order 1 and no equal step
    counted; row 0 of its table is [y0]; its prediction is the Euler step
    [y0 + h0 * f0] with the guess [h0]; its Jacobian is [jac t0 y0] and its
    factorisation that of [I - c J]. *)
Theorem init_state_facts t0 y0 h0 rtol atol :
  length (fun_ t0 y0) = length y0 ->
  let st := _bdf_init fun_ jac lu_factor t0 y0 h0 rtol atol in
  well_shaped st
  /\ s_t st = t0 /\ s_y st = y0
  /\ s_order st = 1%Z /\ s_n_equal_steps st = 0%Z
  /\ jget [] (s_D st) 0 = y0
  /\ s_y0 st = vadd y0 (map (fun x => x * h0) (fun_ t0 y0))
  /\ s_J st = jac t0 y0
  /\ s_LU st = lu_factor (msub (s_I st) (mscale (s_c st) (s_J st))).
Proof. apply init_facts. Qed.

(** ** The driver *)

(** X19.  After a step, the driver writes the columns from the cursor up
    to [searchsorted t_eval t] with the interpolants of the state of the
    step at their output times, leaves every other column of [y_out] as it
    was, keeps the shape of [y_out], and moves the cursor to the larger of
    itself and [searchsorted t_eval t]. *)
Theorem filled_columns_are_interpolants (stepper : state LUt) t_eval i
        (y_out : matrix) :
  well_shaped stepper ->
  length y_out = length (s_y stepper) -> rows_of (length t_eval) y_out ->
  let index := searchsorted t_eval (s_t stepper) in
  let ws' := fill_outputs stepper t_eval i y_out in
  ow_i ws' = Nat.max i index
  /\ length (ow_y_out ws') = length y_out
  /\ rows_of (length t_eval) (ow_y_out ws')
  /\ (forall j, (i <= j < index)%nat ->
                column j (ow_y_out ws')
                = _bdf_interpolate stepper (nth j t_eval 0))
  /\ (forall j, ~ (i <= j < index)%nat ->
                column j (ow_y_out ws') = column j y_out).
Proof.
  intros Hw Hl HR. exact (fill_outputs_columns stepper t_eval Hw i y_out Hl HR).
Qed.

(** X20.  Along the loop of [_bdf_odeint], for a right-hand side and a
    linear solve that keep the length of their argument: the shapes of the
    state and of [y_out] are kept, the output times are kept, the cursor
    does not move back, and a column below the cursor is never written
    again. *)
Theorem written_columns_are_kept n sfuel fuel ws ws' :
  (forall t y, length (fun_ t y) = length y) ->
  (forall LU b, length (lu_solve LU b) = length b) ->
  driver_shape n ws ->
  odeint_loop fun_ jac lu_factor lu_solve sfuel fuel ws = Some ws' ->
  driver_shape n ws' /\ ow_t_eval ws' = ow_t_eval ws
  /\ (ow_i ws <= ow_i ws')%nat
  /\ (forall j, (j < ow_i ws)%nat ->
                column j (ow_y_out ws') = column j (ow_y_out ws)).
Proof.
  intros Hf Hs Hsh H.
  exact (odeint_loop_columns fun_ jac lu_factor lu_solve Hf Hs n sfuel fuel
           ws ws' Hsh H).
Qed.

(** X21.  The result of [jax_bdf_integrate], for such a right-hand side
    and linear solve, has a row for each equation and a column for each
    output time. *)
Theorem integrator_output_shape sfuel fuel y0 t_eval rtol atol y_out :
  (forall t y, length (fun_ t y) = length y) ->
  (forall LU b, length (lu_solve LU b) = length b) ->
  jax_bdf_integrate fun_ jac lu_factor lu_solve sfuel fuel y0 t_eval rtol atol
  = Some y_out ->
  length y_out = length y0 /\ rows_of (length t_eval) y_out.
Proof.
  intros Hf Hs H.
  exact (integrate_shape fun_ jac lu_factor lu_solve Hf Hs sfuel fuel y0
           t_eval rtol atol y_out H).
Qed.

(** X22.  The first column of the result is the initial state: when the
    initial step is positive, the first step passes [t_eval[0]], its
    interpolant there is that of the initial table (row 0, [y0]), and the
    column is not written again. *)
Theorem first_output_is_initial_state sfuel fuel y0 t_eval rtol atol y_out :
  (forall t y, length (fun_ t y) = length y) ->
  (forall LU b, length (lu_solve LU b) = length b) ->
  t_eval <> [] ->
  0 < s_h (ow_stepper (init_state fun_ jac lu_factor y0 t_eval rtol atol)) ->
  jax_bdf_integrate fun_ jac lu_factor lu_solve sfuel fuel y0 t_eval rtol atol
  = Some y_out ->
  column 0 y_out = y0.
Proof.
  intros Hf Hs Hne Hh H.
  exact (integrate_first_column fun_ jac lu_factor lu_solve Hf Hs sfuel fuel
           y0 t_eval rtol atol y_out Hne Hh H).
Qed.

End Step.

(** ** The Python loops *)

(** X24.  [flax_fori_loop] is [flax_while_loop] over a counter: with fuel
    for [stop - start] rounds, the while loop that counts from [start]
    while below [stop] and applies [body] to the counter and the value
    ends, with the counter at [max start stop] and the value
    [flax_fori_loop] returns. *)
Theorem fori_loop_is_while_loop {A : Type} fuel (start stop : Z)
        (body : Z -> A -> A) (init_val : A) :
  (Z.to_nat (stop - start) <= fuel)%nat ->
  flax_while_loop fuel (fun s => (fst s <? stop)%Z)
                  (fun s => ((fst s + 1)%Z, body (fst s) (snd s)))
                  (start, init_val)
  = Some (Z.max start stop, flax_fori_loop start stop body init_val).
Proof. apply fori_as_while. Qed.

(** ** The further theorems at concrete inputs

    The inputs are the states of the run for dy/dt = 1: [st_forward], built
    by [_bdf_init], and [st_forward_1], reached from it by one step. *)

(** Halving the step of [st_forward_1] keeps its interpolant at [t = 50]. *)
Lemma rescaling_keeps_interpolant_witness :
  _bdf_interpolate (_update_step_size diag_factor st_forward_1 (1 / 2) false)
                   50
  = _bdf_interpolate st_forward_1 50.
Proof.
  apply (rescaling_keeps_interpolant diag_factor st_forward_1 (1 / 2) false 50
           st_forward_1_well_shaped).
  - unfold MAX_ORDER; simpl; lia.
  - simpl; lra.
  - lra.
Defined.

(** Halving the step of [st_forward_1] and then doubling it. *)
Lemma rescalings_compose_witness :
  _update_step_size diag_factor
    (_update_step_size diag_factor st_forward_1 (1 / 2) false) 2 false
  = _update_step_size diag_factor st_forward_1 (1 / 2 * 2) false.
Proof.
  apply (rescalings_compose diag_factor st_forward_1 (1 / 2) 2
           st_forward_1_well_shaped).
  unfold MAX_ORDER; simpl; lia.
Defined.

Lemma unit_rescaling_keeps_table_witness :
  s_D (_update_step_size diag_factor st_forward_1 1 false) = s_D st_forward_1
  /\ s_h (_update_step_size diag_factor st_forward_1 1 false)
     = s_h st_forward_1.
Proof.
  apply (unit_rescaling_keeps_table diag_factor st_forward_1 false
           st_forward_1_well_shaped).
  unfold MAX_ORDER; simpl; lia.
Defined.

Lemma rescaling_keeps_current_solution_witness :
  jget [] (s_D (_update_step_size diag_factor st_forward_1 (3 / 10) false)) 0
  = jget [] (s_D st_forward_1) 0.
Proof.
  exact (proj1 (rescaling_keeps_current_solution diag_factor st_forward_1
                  (3 / 10) false st_forward_1_well_shaped)).
Defined.

Lemma prediction_is_extrapolated_interpolant_witness :
  _bdf_interpolate st_forward_1 (s_t st_forward_1 + s_h st_forward_1)
  = s_y0 (_predict st_forward_1)
  /\ s_y0 (_predict st_forward_1) = s_y0 st_forward_1.
Proof.
  apply (prediction_is_extrapolated_interpolant st_forward_1
           st_forward_1_well_shaped).
  - unfold MAX_ORDER; simpl; lia.
  - simpl; lra.
Defined.

(** The update of the table of [st_forward_1] with [d = [0]]. *)
Lemma difference_update_is_backward_difference_witness :
  jget [] (s_D (_update_difference_for_next_step st_forward_1 [0] false))
       (s_order st_forward_1 + 1)
  = [0].
Proof.
  assert (Ho : (0 <= s_order st_forward_1 <= MAX_ORDER - 1)%Z)
    by (unfold MAX_ORDER; simpl; lia).
  exact (proj1 (difference_update_is_backward_difference st_forward_1 [0]
                  false st_forward_1_well_shaped eq_refl Ho)).
Defined.

(** The Newton iteration of the first step from [st_forward]: one
    iteration, converged. *)
Lemma newton_iteration_count_range_witness :
  _newton_iteration (fun_quadratic 0) diag_solve st_forward
  = (false, 1%Z, [1], [0])
  /\ (1 <= 1 <= NEWTON_MAXITER + 1)%Z
  /\ (false = true <-> 1%Z = (NEWTON_MAXITER + 1)%Z).
Proof.
  split; [exact newton_forward|].
  exact (newton_iteration_count_range (fun_quadratic 0) diag_solve st_forward
           false 1 [1] [0] newton_forward).
Defined.

(** Its first correction has the norm 0. *)
Lemma newton_first_iteration_converges_only_at_zero_witness :
  _newton_iteration (fun_quadratic 0) diag_solve st_forward
  = (false, 1%Z, [1], [0])
  /\ rms (vdiv (diag_solve (s_LU st_forward)
                  (vsub (vsub (vscale (s_c st_forward)
                                 (fun_quadratic 0
                                    (s_t st_forward + s_h st_forward)
                                    (s_y0 st_forward)))
                              (s_psi st_forward))
                        (zeros (length (s_y0 st_forward)))))
               (s_scale_y0 st_forward)) = 0.
Proof.
  split; [exact newton_forward|].
  exact (proj1 (proj1 (newton_first_iteration_converges_only_at_zero
                         (fun_quadratic 0) diag_solve st_forward
                         false 1 [1] [0] newton_forward)) eq_refl).
Defined.

(** The first step of the run: from [st_forward] to [st_forward_1]. *)
Lemma accepted_step_meets_tolerance_witness :
  _bdf_step (fun_quadratic 0) (jac_quadratic 0) diag_factor diag_solve 1
            st_forward = Some st_forward_1
  /\ exists sa n_iter d,
      s_t sa = s_t st_forward /\ s_y sa = s_y st_forward
      /\ s_order sa = s_order st_forward
      /\ _newton_iteration (fun_quadratic 0) diag_solve sa
         = (false, n_iter, s_y st_forward_1, d)
      /\ error_norm_of sa (s_y st_forward_1) d <= 1
      /\ s_t st_forward_1 = s_t st_forward + s_h sa.
Proof.
  split; [exact bdf_step_forward|].
  exact (accepted_step_meets_tolerance (fun_quadratic 0) (jac_quadratic 0)
           diag_factor diag_solve 1 st_forward st_forward_1
           bdf_step_forward).
Defined.

Lemma step_advances_time_witness :
  s_t st_forward < s_t st_forward_1 <= s_t st_forward + s_h st_forward
  /\ 0 < s_h st_forward_1 <= MAX_FACTOR * s_h st_forward.
Proof.
  apply (step_advances_time (fun_quadratic 0) (jac_quadratic 0) diag_factor
           diag_solve 1 st_forward st_forward_1).
  - simpl; lia.
  - simpl; lra.
  - exact bdf_step_forward.
Defined.

Lemma order_changes_after_enough_equal_steps_witness :
  (0 <= s_n_equal_steps st_forward_1 <= s_order st_forward_1)%Z
  /\ (s_order st_forward - 1 <= s_order st_forward_1
      <= s_order st_forward + 1)%Z
  /\ ((s_n_equal_steps st_forward < s_order st_forward)%Z ->
      s_order st_forward_1 = s_order st_forward
      /\ (1 <= s_n_equal_steps st_forward_1)%Z)
  /\ (s_order st_forward_1 <> s_order st_forward ->
      s_n_equal_steps st_forward_1 = 0%Z).
Proof.
  apply (order_changes_after_enough_equal_steps (fun_quadratic 0)
           (jac_quadratic 0) diag_factor diag_solve 1 st_forward
           st_forward_1).
  - unfold MAX_ORDER; simpl; lia.
  - simpl; lia.
  - exact bdf_step_forward.
Defined.

Lemma factorisation_follows_jacobian_witness :
  s_LU st_forward_1
  = diag_factor (msub (s_I st_forward_1)
                      (mscale (s_c st_forward_1) (s_J st_forward_1)))
  /\ (s_J st_forward_1 = s_J st_forward
      \/ s_J st_forward_1
         = jac_quadratic 0 (s_t st_forward) (s_y st_forward)).
Proof.
  apply (factorisation_follows_jacobian (fun_quadratic 0) (jac_quadratic 0)
           diag_factor diag_solve 1 st_forward st_forward_1).
  - reflexivity.
  - exact bdf_step_forward.
Defined.

Lemma step_returns_fresh_prediction_witness :
  _predict (_update_psi st_forward_1) = st_forward_1.
Proof.
  apply (step_returns_fresh_prediction (fun_quadratic 0) (jac_quadratic 0)
           diag_factor diag_solve 1 st_forward st_forward_1).
  exact bdf_step_forward.
Defined.

Lemma dense_output_reaches_accepted_state_witness :
  _bdf_interpolate st_forward_1 (s_t st_forward_1) = s_y st_forward_1
  /\ well_shaped st_forward_1.
Proof.
  apply (dense_output_reaches_accepted_state (fun_quadratic 0)
           (jac_quadratic 0) diag_factor diag_solve 1 st_forward st_forward_1
           (fun_quadratic_length 0) diag_solve_length st_forward_well_shaped).
  - unfold MAX_ORDER; simpl; lia.
  - simpl; lra.
  - exact bdf_step_forward.
Defined.

Lemma dense_output_is_continuous_witness :
  _bdf_interpolate st_forward_1 (s_t st_forward)
  = _bdf_interpolate st_forward (s_t st_forward).
Proof.
  apply (dense_output_is_continuous (fun_quadratic 0) (jac_quadratic 0)
           diag_factor diag_solve 1 st_forward st_forward_1
           (fun_quadratic_length 0) diag_solve_length st_forward_well_shaped).
  - unfold MAX_ORDER; simpl; lia.
  - simpl; lra.
  - exact bdf_step_forward.
Defined.

Lemma forward_run_is_monotone_witness :
  s_t st_forward < s_t st_forward_1 /\ 0 < s_h st_forward_1
  /\ (1 <= s_order st_forward_1 <= MAX_ORDER)%Z.
Proof.
  apply (forward_run_is_monotone (fun_quadratic 0) (jac_quadratic 0)
           diag_factor diag_solve 1 st_forward st_forward_1).
  - unfold MAX_ORDER; simpl; lia.
  - simpl; lra.
  - apply reached_step. exact bdf_step_forward.
Defined.

(** The initial step for dy/dt = 1, y(0) = 0 and the guess 1, with the
    scale 1. *)
Lemma initial_step_range_witness :
  0 < _select_initial_step (fun_quadratic 0) 1 1 0 [0]
        (fun_quadratic 0 0 [0]) 1 <= 100 * 1.
Proof.
  apply (initial_step_range (fun_quadratic 0) 1 1 0 [0]
           (fun_quadratic 0 0 [0]) 1).
  - lra.
  - discriminate.
  - reflexivity.
  - reflexivity.
  - repeat constructor. unfold vabs; simpl. rewrite Rabs_R0. lra.
  - unfold mean, vdiv, vsub, vadd, vadds, vscale, vabs, fun_quadratic; simpl.
    rewrite Rabs_R0. right. field.
Defined.

Lemma init_state_facts_witness :
  let st := _bdf_init (fun_quadratic 0) (jac_quadratic 0) diag_factor
                      0 [0] 1 1 1 in
  well_shaped st
  /\ s_t st = 0 /\ s_y st = [0]
  /\ s_order st = 1%Z /\ s_n_equal_steps st = 0%Z
  /\ jget [] (s_D st) 0 = [0]
  /\ s_y0 st = vadd [0] (map (fun x => x * 1) (fun_quadratic 0 0 [0]))
  /\ s_J st = jac_quadratic 0 0 [0]
  /\ s_LU st = diag_factor (msub (s_I st) (mscale (s_c st) (s_J st))).
Proof.
  apply (init_state_facts (fun_quadratic 0) (jac_quadratic 0) diag_factor
           0 [0] 1 1 1).
  reflexivity.
Defined.

(** The outputs of the first step of the run, at the times [0, 1]. *)
Lemma filled_columns_are_interpolants_witness :
  let index := searchsorted [0; 1] (s_t st_forward_1) in
  let ws' := fill_outputs st_forward_1 [0; 1] 0 [[0; 0]] in
  ow_i ws' = Nat.max 0 index
  /\ length (ow_y_out ws') = length [[0; 0]]
  /\ rows_of (length [0; 1]) (ow_y_out ws')
  /\ (forall j, (0 <= j < index)%nat ->
                column j (ow_y_out ws')
                = _bdf_interpolate st_forward_1 (nth j [0; 1] 0))
  /\ (forall j, ~ (0 <= j < index)%nat ->
                column j (ow_y_out ws') = column j [[0; 0]]).
Proof.
  apply (filled_columns_are_interpolants st_forward_1 [0; 1] 0 [[0; 0]]
           st_forward_1_well_shaped).
  - reflexivity.
  - repeat constructor.
Defined.

Lemma init_state_forward_shape :
  driver_shape 1 (mkOde st_forward [0; 1] 0 [[0; 0]]).
Proof.
  split; [exact st_forward_well_shaped|]. split; [reflexivity|].
  split; [reflexivity|]. repeat constructor.
Qed.

Lemma written_columns_are_kept_witness :
  odeint_loop (fun_quadratic 0) (jac_quadratic 0) diag_factor diag_solve 1 1
              (mkOde st_forward [0; 1] 0 [[0; 0]])
  = Some (mkOde st_forward_1 [0; 1] 2 [[0; 1 / 100]])
  /\ driver_shape 1 (mkOde st_forward_1 [0; 1] 2 [[0; 1 / 100]]).
Proof.
  split; [exact odeint_loop_forward|].
  exact (proj1 (written_columns_are_kept (fun_quadratic 0) (jac_quadratic 0)
                  diag_factor diag_solve 1 1 1 _ _ (fun_quadratic_length 0)
                  diag_solve_length init_state_forward_shape
                  odeint_loop_forward)).
Defined.

(** The run for the output times [0, 1]. *)
Lemma integrator_output_shape_witness :
  length [[0; 1 / 100]] = length [0]
  /\ rows_of (length [0; 1]) [[0; 1 / 100]].
Proof.
  apply (integrator_output_shape (fun_quadratic 0) (jac_quadratic 0)
           diag_factor diag_solve 1 1 [0] [0; 1] 1 1 [[0; 1 / 100]]
           (fun_quadratic_length 0) diag_solve_length).
  exact integrate_forward.
Defined.

Lemma first_output_is_initial_state_witness :
  column 0 [[0; 1 / 100]] = [0].
Proof.
  apply (first_output_is_initial_state (fun_quadratic 0) (jac_quadratic 0)
           diag_factor diag_solve 1 1 [0] [0; 1] 1 1 [[0; 1 / 100]]
           (fun_quadratic_length 0) diag_solve_length).
  - discriminate.
  - rewrite init_state_forward. simpl; lra.
  - exact integrate_forward.
Defined.


(** Summing the counters 0, 1, 2. *)
Lemma fori_loop_is_while_loop_witness :
  flax_while_loop 3 (fun s => (fst s <? 3)%Z)
                  (fun s => ((fst s + 1)%Z, (snd s + fst s)%Z)) (0%Z, 0%Z)
  = Some (Z.max 0 3,
          flax_fori_loop 0 3 (fun i v => (v + i)%Z) 0%Z).
Proof.
  apply (fori_loop_is_while_loop 3 0 3 (fun i v => (v + i)%Z) 0%Z).
  simpl; lia.
Defined.

(** The first step of the run for dy/dt = 1, from the state [_bdf_init]
    builds. *)
Lemma accepted_state_is_interpolated_witness :
  _bdf_interpolate st_forward_1 (s_t st_forward_1) = s_y st_forward_1.
Proof.
  apply (accepted_state_is_interpolated (fun_quadratic 0) (jac_quadratic 0)
           diag_factor diag_solve 1 st_forward st_forward_1
           (fun_quadratic_length 0) diag_solve_length
           st_forward_well_shaped).
  - reflexivity.
  - unfold MAX_ORDER; simpl; lia.
  - simpl; lra.
  - apply reached_step. exact bdf_step_forward.
Defined.

(** The output times [1, 0] for dy/dt = -2 t, y(1) = 1: the guess is -1,
    the scale 2 and the mean under the root 1. *)
Lemma negative_step_is_integrated_witness :
  cond_fun (init_state fun_ramp jac_zero diag_factor [1] [1; 0] 1 1) = true
  /\ s_h (ow_stepper (init_state fun_ramp jac_zero diag_factor [1] [1; 0]
                                 1 1)) < 0.
Proof.
  destruct (negative_step_is_integrated fun_ramp jac_zero diag_factor
              diag_solve 1 [1] [1; 0] 1 1)
    as (_ & Hc & _ & _ & _ & Hneg & _).
  - unfold jget; simpl; lra.
  - repeat constructor. unfold vabs; simpl. rewrite Rabs_R1. lra.
  - match goal with |- 0 < ?m => replace m with 1; [lra|] end.
    unfold jget, mean, vdiv, vsub, vadd, vadds, vscale, vabs, fun_ramp; simpl.
    rewrite Rabs_R1. field.
  - split; [exact Hc | exact Hneg].
Defined.
